(** * spotgen: the playlist pipeline of [spotify.js]

    A shallow embedding of [src/spotify.js] (the parser of
    [spotify.Playlist], the [spotify.Queue] container, the [spotify.Track],
    [spotify.Album] and [spotify.Artist] entries and the controller
    [spotify.Playlist.prototype.dispatch]) together with the properties of
    the specification that concern them.

    Conventions of the embedding.
    - A JavaScript string is a [string]: a sequence of code units below 256
      (the Latin-1 range of UTF-16).
    - A promise is a computation in the monad [M]: it reads and extends the
      [World] (the requests issued so far, the console, the next free object
      reference) and ends either resolved with a value or rejected with an
      [error].  An exception thrown inside a [then] callback rejects the
      promise, so thrown exceptions and rejections share one representation.
    - A remote response is a record of the fields the program reads, each of
      them possibly absent ([None] stands for [undefined]); the shapes are
      those of the endpoints the program calls.
    - Objects stored in a queue carry a reference (a [nat]) which stands for
      their identity: [===] on objects compares references. *)

From Stdlib Require Import String Ascii List ZArith NArith Bool Arith Lia.
From Stdlib Require Import Permutation Sorted DecimalString.
Import ListNotations.

Local Open Scope string_scope.
Local Open Scope list_scope.

(* ================================================================== *)
(** * JavaScript strings *)
(* ================================================================== *)

Definition code (c : ascii) : N := N_of_ascii c.

Definition between (lo hi : N) (c : ascii) : bool :=
  (N.leb lo (code c) && N.leb (code c) hi)%bool.

(** [WhiteSpace] and [LineTerminator] code units below 256: TAB, LF, VT, FF,
    CR, SP and NBSP.  These are what [String.prototype.trim] removes. *)
Definition is_space (c : ascii) : bool :=
  (between 9 13 c || N.eqb (code c) 32 || N.eqb (code c) 160)%bool.

Definition is_line_terminator (c : ascii) : bool :=
  (N.eqb (code c) 10 || N.eqb (code c) 13)%bool.

Definition is_digit (c : ascii) : bool := between 48 57 c.
Definition is_upper (c : ascii) : bool := between 65 90 c.
Definition is_lower (c : ascii) : bool := between 97 122 c.
Definition is_alnum (c : ascii) : bool :=
  (is_digit c || is_upper c || is_lower c)%bool.

Fixpoint string_forallb (p : ascii -> bool) (s : string) : bool :=
  match s with
  | EmptyString => true
  | String c r => (p c && string_forallb p r)%bool
  end.

Fixpoint string_map (f : ascii -> ascii) (s : string) : string :=
  match s with
  | EmptyString => EmptyString
  | String c r => String (f c) (string_map f r)
  end.

Definition is_empty (s : string) : bool :=
  match s with EmptyString => true | _ => false end.

(** [String.prototype.toLowerCase] on one code unit: A-Z and the Latin-1
    capitals U+00C0..U+00DE (U+00D7, the multiplication sign, apart). *)
Definition lower_char (c : ascii) : ascii :=
  if (is_upper c || (between 192 222 c && negb (N.eqb (code c) 215)))%bool
  then ascii_of_N (code c + 32)
  else c.

Definition toLowerCase (s : string) : string := string_map lower_char s.

Fixpoint trimStart (s : string) : string :=
  match s with
  | EmptyString => EmptyString
  | String c r => if is_space c then trimStart r else s
  end.

Fixpoint trimEnd (s : string) : string :=
  match s with
  | EmptyString => EmptyString
  | String c r =>
      let r' := trimEnd r in
      if (is_space c && is_empty r')%bool then EmptyString else String c r'
  end.

(** [String.prototype.trim]. *)
Definition trim (s : string) : string := trimEnd (trimStart s).

(** [s.substring(n)]: the string without its first [n] code units. *)
Fixpoint substring_from (n : nat) (s : string) : string :=
  match n, s with
  | O, _ => s
  | S _, EmptyString => EmptyString
  | S n', String _ r => substring_from n' r
  end.

(** [s.split(sep)] for a separator that is a predicate on one code unit: the
    pieces between the separators, empty pieces included. *)
Fixpoint split_at (sep : ascii -> bool) (s : string) : list string :=
  match s with
  | EmptyString => [EmptyString]
  | String c r =>
      if sep c then EmptyString :: split_at sep r
      else match split_at sep r with
           | [] => [String c EmptyString]
           | piece :: pieces => String c piece :: pieces
           end
  end.

(** The canonical form of a code unit under the [i] flag of a regular
    expression, for the comparison with an ASCII pattern character: a-z is
    folded onto A-Z and no other code unit is canonicalised to an ASCII
    one. *)
Definition canonicalize (c : ascii) : ascii :=
  if is_lower c then ascii_of_N (code c - 32) else c.

Definition ci_char_eqb (p c : ascii) : bool :=
  Ascii.eqb (canonicalize p) (canonicalize c).

(** [s.match(/^pat/i)] for a pattern [pat] of literal ASCII characters:
    whether [s] begins with [pat], letter case ignored. *)
Fixpoint ci_prefix (pat s : string) : bool :=
  match pat, s with
  | EmptyString, _ => true
  | String _ _, EmptyString => false
  | String p pat', String c s' => (ci_char_eqb p c && ci_prefix pat' s')%bool
  end.

(** What is left of [s] after the literal pattern [pat], when [s] begins
    with it (letter case ignored). *)
Fixpoint ci_strip (pat s : string) : option string :=
  match pat, s with
  | EmptyString, _ => Some s
  | String _ _, EmptyString => None
  | String p pat', String c s' =>
      if ci_char_eqb p c then ci_strip pat' s' else None
  end.

Definition hex_digit (n : N) : ascii :=
  if N.ltb n 10 then ascii_of_N (48 + n) else ascii_of_N (55 + n).

Definition percent (byte : N) : string :=
  String "%" (String (hex_digit (N.div byte 16))
             (String (hex_digit (N.modulo byte 16)) EmptyString)).

(** The characters [encodeURIComponent] leaves alone: letters, digits and
    - _ . ! ~ * ' ( ). *)
Definition is_unreserved (c : ascii) : bool :=
  (is_alnum c ||
   existsb (Ascii.eqb c)
     ["-"; "_"; "."; "!"; "~"; "*"; "'"; "("; ")"]%char)%bool.

(** [encodeURIComponent]: every other code unit is written as the percent
    escapes of its UTF-8 encoding (one byte below 128, two bytes from 128 to
    255). *)
Definition encode_char (c : ascii) : string :=
  if is_unreserved c then String c EmptyString
  else if N.ltb (code c) 128 then percent (code c)
  else percent (192 + N.div (code c) 64) ++ percent (128 + N.modulo (code c) 64).

Fixpoint encodeURIComponent (s : string) : string :=
  match s with
  | EmptyString => EmptyString
  | String c r => encode_char c ++ encodeURIComponent r
  end.

(** [ToString] of an integral number. *)
Definition number_to_string (z : Z) : string :=
  NilZero.string_of_int (Z.to_int z).

(** The value of a digit in radix [radix] (10 or 16), if it is one. *)
Definition digit_value (radix : Z) (c : ascii) : option Z :=
  let n := Z.of_N (code c) in
  if is_digit c then Some (n - 48)%Z
  else if (Z.eqb radix 16 && between 97 102 c)%bool then Some (n - 87)%Z
  else if (Z.eqb radix 16 && between 65 70 c)%bool then Some (n - 55)%Z
  else None.

(** The longest prefix of digits of [s], read in radix [radix] after the
    digits already accumulated in [acc]; [None] when there is no digit at
    all. *)
Fixpoint parse_digits (radix : Z) (acc : option Z) (s : string) : option Z :=
  match s with
  | EmptyString => acc
  | String c r =>
      match digit_value radix c with
      | Some d =>
          parse_digits radix
            (Some (match acc with Some a => a * radix + d | None => d end)%Z) r
      | None => acc
      end
  end.

(** [parseInt(s)] without a radix argument; [None] is [NaN].  White space is
    skipped, a sign is read, a [0x] or [0X] prefix selects radix 16, and the
    longest prefix of digits is the value. *)
Definition parseInt (s : string) : option Z :=
  let s1 := trimStart s in
  let '(sign, s2) :=
    match s1 with
    | String "-" r => ((-1)%Z, r)
    | String "+" r => (1%Z, r)
    | _ => (1%Z, s1)
    end in
  let '(radix, s3) :=
    match s2 with
    | String "0" (String "x" r) => (16%Z, r)
    | String "0" (String "X" r) => (16%Z, r)
    | _ => (10%Z, s2)
    end in
  match parse_digits radix None s3 with
  | Some v => Some (sign * v)%Z
  | None => None
  end.

(** [String(x)] for a value that is a string or [undefined]. *)
Definition string_or_undefined (v : option string) : string :=
  match v with Some s => s | None => "undefined" end.

(** Truthiness of the values of the model. *)
Definition truthy_string (v : option string) : bool :=
  match v with Some s => negb (is_empty s) | None => false end.

Definition truthy_number (v : option Z) : bool :=
  match v with Some z => negb (Z.eqb z 0) | None => false end.

Definition truthy_object {A : Type} (v : option A) : bool :=
  match v with Some _ => true | None => false end.

(* ================================================================== *)
(** * Remote responses *)
(* ================================================================== *)

(** An element of [artists] in a track object. *)
Record ArtistObject := { artist_name : option string }.

(** The [album] of a full track object. *)
Record AlbumLink := { link_name : option string }.

(** A track object, simplified or full: [/v1/tracks/<id>], the hits of a
    track search and the listing of an album are all of this shape. *)
Record TrackObject := {
  track_id : option string;
  track_uri : option string;
  track_name : option string;
  track_artists : option (list ArtistObject);
  track_album : option AlbumLink;
  track_popularity : option Z
}.

(** [/v1/search?type=track]: [{tracks: {items: [...]}}]. *)
Record TrackSearch := { tracks_items : option (list TrackObject) }.

(** An album object, [/v1/albums/<id>] or an element of an artist's albums:
    [{id, tracks: {items: [...]}}]. *)
Record AlbumObject := {
  album_id : option string;
  album_tracks : option (list TrackObject)
}.

(** [/v1/search?type=album]: [{albums: {items: [...]}}]. *)
Record AlbumSearch := { albums_items : option (list AlbumObject) }.

(** A hit of an artist search. *)
Record ArtistHit := { hit_id : option string }.

(** [/v1/search?type=artist]: [{artists: {items: [...]}}]. *)
Record ArtistSearch := { artists_items : option (list ArtistHit) }.

(** [/v1/artists/<id>/albums]: [{items: [...]}]. *)
Record ArtistAlbums := { items : option (list AlbumObject) }.

(** Last.fm [track.getInfo]: [{track: {playcount: "<int>"}}]. *)
Record LastfmTrack := { playcount : option string }.
Record LastfmInfo := { lastfm_track : option LastfmTrack }.

(** What the program is run against: the services and the engine.

    [spotify.request(url)] is one function per call site, typed by the body
    each endpoint answers with; [None] is a rejected request (transport
    error, status other than 200, unparsable body or error envelope).
    [getInfo] is [lastfm.getInfo] of the module [./lastfm]; its code is not
    part of the sources under study, so it is taken as given.
    [array_property] tells the names every array already answers to: its own
    [length] and whatever [Array.prototype] and [Object.prototype] provide,
    which depends on the engine. *)
Record Environment := {
  request_track : string -> option TrackObject;
  request_track_search : string -> option TrackSearch;
  request_album : string -> option AlbumObject;
  request_album_search : string -> option AlbumSearch;
  request_artist_search : string -> option ArtistSearch;
  request_artist_albums : string -> option ArtistAlbums;
  getInfo : string -> string -> option LastfmInfo;
  array_property : string -> bool
}.

(* ================================================================== *)
(** * Promises *)
(* ================================================================== *)

Inductive error :=
| TypeError       (* a property of undefined, or a call of a non-function *)
| RequestError    (* spotify.request rejected *)
| Reject.         (* an explicit Promise.reject *)

Inductive outcome (A : Type) :=
| Resolved (a : A)
| Rejected (e : error).
Arguments Resolved {A} a.
Arguments Rejected {A} e.

Record World := {
  next_ref : nat;            (* the next fresh object reference *)
  requests : list string;    (* URLs handed to spotify.request, oldest first *)
  console : list string      (* lines written by console.log, oldest first *)
}.

Definition M (A : Type) : Type := World -> outcome A * World.

Definition ret {A} (a : A) : M A := fun w => (Resolved a, w).

Definition throw {A} (e : error) : M A := fun w => (Rejected e, w).

Definition bind {A B} (m : M A) (k : A -> M B) : M B :=
  fun w =>
    match m w with
    | (Resolved a, w') => k a w'
    | (Rejected e, w') => (Rejected e, w')
    end.

(** [p.then(null, handler)]. *)
Definition catch {A} (m : M A) (handler : error -> M A) : M A :=
  fun w =>
    match m w with
    | (Resolved a, w') => (Resolved a, w')
    | (Rejected e, w') => handler e w'
    end.

(** A synchronous computation that may throw, run as part of a promise. *)
Definition lift {A} (r : outcome A) : M A := fun w => (r, w).

Declare Scope promise_scope.
Delimit Scope promise_scope with promise.
Notation "x <- m ;; k" := (bind m (fun x => k))
  (at level 61, m at next level, right associativity) : promise_scope.
Notation "m ;;; k" := (bind m (fun _ => k))
  (at level 61, right associativity) : promise_scope.
Local Open Scope promise_scope.

(** The same sequencing for synchronous code. *)
Definition obind {A B} (r : outcome A) (k : A -> outcome B) : outcome B :=
  match r with
  | Resolved a => k a
  | Rejected e => Rejected e
  end.

Notation "x <-- r ;; k" := (obind r (fun x => k))
  (at level 61, r at next level, right associativity) : promise_scope.

Definition console_log (line : string) : M unit :=
  fun w => (Resolved tt,
            {| next_ref := next_ref w;
               requests := requests w;
               console := console w ++ [line] |}).

(** The reference of a new object that goes into a queue. *)
Definition alloc : M nat :=
  fun w => (Resolved (next_ref w),
            {| next_ref := S (next_ref w);
               requests := requests w;
               console := console w |}).

(** [spotify.request(url)], for the endpoint [endpoint]: the URL is written
    to the console, the request is issued, and the promise resolves with the
    body or is rejected. *)
Definition request {A} (endpoint : string -> option A) (url : string) : M A :=
  fun w =>
    let w' := {| next_ref := next_ref w;
                 requests := requests w ++ [url];
                 console := console w ++ [url] |} in
    match endpoint url with
    | Some body => (Resolved body, w')
    | None => (Rejected RequestError, w')
    end.

(** What an [id] method returns: a string of a response or of the entry
    text, the number [-1], or [undefined]. *)
Inductive ident :=
| IdString (s : string)
| IdNumber (z : Z)
| IdUndefined.

(** [String(id)], as [encodeURIComponent] applies it to its argument. *)
Definition ident_to_string (i : ident) : string :=
  match i with
  | IdString s => s
  | IdNumber z => number_to_string z
  | IdUndefined => "undefined"
  end.

(* ================================================================== *)
(** * Entries *)
(* ================================================================== *)

(** [spotify.Track]: the fields of the object. *)
Record Track := {
  Track_entry : string;
  Track_responseSimple : option TrackObject;
  Track_response : option TrackObject;
  Track_lastfmResponse : option LastfmInfo
}.

(** [spotify.Album]. *)
Record Album := {
  Album_entry : string;
  Album_searchResponse : option AlbumSearch;
  Album_albumResponse : option AlbumObject
}.

(** [spotify.Artist]. *)
Record Artist := {
  Artist_entry : string;
  Artist_artistResponse : option ArtistSearch;
  Artist_albumResponse : option ArtistAlbums
}.

(** What a queue holds: an entry object or a nested queue, each with its
    reference, or [undefined]. *)
#[warnings="-register-all"]
Inductive item :=
| ITrack (r : nat) (t : Track)
| IAlbum (r : nat) (a : Album)
| IArtist (r : nat) (a : Artist)
| IQueue (r : nat) (q : list item)
| IUndefined.

(** The receiver [this] of a call: the object a method is called on, or the
    global object when the method is called as a plain function. *)
Inductive receiver (A : Type) :=
| This (a : A)
| Global.
Arguments This {A} a.
Arguments Global {A}.

(** [entry === obj]. *)
Definition strict_eqb (a b : item) : bool :=
  match a, b with
  | ITrack r _, ITrack r' _ => Nat.eqb r r'
  | IAlbum r _, IAlbum r' _ => Nat.eqb r r'
  | IArtist r _, IArtist r' _ => Nat.eqb r r'
  | IQueue r _, IQueue r' _ => Nat.eqb r r'
  | IUndefined, IUndefined => true
  | _, _ => false
  end.

(* ------------------------------------------------------------------ *)
(** ** Track *)
(* ------------------------------------------------------------------ *)

(** [spotify.Track.prototype.isFullResponse]. *)
Definition Track_isFullResponse (response : option TrackObject) : bool :=
  match response with
  | Some r => truthy_number (track_popularity r)
  | None => false
  end.

(** [new spotify.Track(entry, response)]. *)
Definition Track_new (entry : string) (response : option TrackObject) : Track :=
  if Track_isFullResponse response
  then {| Track_entry := trim entry;
          Track_responseSimple := None;
          Track_response := response;
          Track_lastfmResponse := None |}
  else {| Track_entry := trim entry;
          Track_responseSimple := response;
          Track_response := None;
          Track_lastfmResponse := None |}.

(** [spotify.Track.prototype.isURI]. *)
Definition Track_isURI (str : string) : bool :=
  ci_prefix "spotify:track:" str.

(** [spotify.Track.prototype.isLink]: [/^https?:\/\/open\.spotify\.com\/track\//i]. *)
Definition Track_isLink (str : string) : bool :=
  (ci_prefix "http://open.spotify.com/track/" str ||
   ci_prefix "https://open.spotify.com/track/" str)%bool.

(** The truthy [id] of a response, if any. *)
Definition response_id (response : option TrackObject) : option string :=
  match response with
  | Some r => if truthy_string (track_id r) then track_id r else None
  | None => None
  end.

(** [spotify.Track.prototype.id]. *)
Definition Track_id (t : Track) : ident :=
  match response_id (Track_response t) with
  | Some i => IdString i
  | None =>
      match response_id (Track_responseSimple t) with
      | Some i => IdString i
      | None =>
          if Track_isURI (Track_entry t)
          then IdString (substring_from 14 (Track_entry t))
          else if Track_isLink (Track_entry t)
          then match nth_error (split_at (Ascii.eqb "/") (Track_entry t)) 4 with
               | Some piece => IdString piece
               | None => IdUndefined
               end
          else IdNumber (-1)
      end
  end.

(** [spotify.Track.prototype.uri]; [None] is [undefined], the [uri] of a
    response that has none. *)
Definition Track_uri (t : Track) : option string :=
  match Track_response t with
  | Some r => track_uri r
  | None =>
      match Track_responseSimple t with
      | Some r => track_uri r
      | None => Some ""
      end
  end.

(** [spotify.Track.prototype.popularity]; [None] is [undefined]. *)
Definition Track_popularity (t : Track) : option Z :=
  match Track_response t with
  | Some r => track_popularity r
  | None => Some (-1)%Z
  end.

(** [this.response || this.responseSimple]. *)
Definition Track_either (t : Track) : option TrackObject :=
  match Track_response t with
  | Some r => Some r
  | None => Track_responseSimple t
  end.

(** [spotify.Track.prototype.artist]. *)
Definition Track_artist (t : Track) : string :=
  match Track_either t with
  | Some response =>
      match track_artists response with
      | Some (first :: _) =>
          if truthy_string (artist_name first)
          then trim (string_or_undefined (artist_name first))
          else ""
      | _ => ""
      end
  | None => ""
  end.

(** [artist.name.trim()] for every artist of the list, the first failure
    ending the [map]. *)
Fixpoint artist_names (l : list ArtistObject) : outcome (list string) :=
  match l with
  | [] => Resolved []
  | a :: rest =>
      match artist_name a with
      | Some n => names <-- artist_names rest ;; Resolved (trim n :: names)
      | None => Rejected TypeError
      end
  end.

(** [Array.prototype.join]. *)
Fixpoint join (sep : string) (l : list string) : string :=
  match l with
  | [] => ""
  | [s] => s
  | s :: rest => s ++ sep ++ join sep rest
  end.

(** [spotify.Track.prototype.artists]: the guard reads
    [this.response || this.responseSimple], the [map] reads
    [this.response]. *)
Definition Track_artists (t : Track) : outcome string :=
  match Track_either t with
  | Some response =>
      match track_artists response with
      | Some _ =>
          match Track_response t with
          | Some full =>
              match track_artists full with
              | Some l => names <-- artist_names l ;; Resolved (join ", " names)
              | None => Rejected TypeError
              end
          | None => Rejected TypeError
          end
      | None => Resolved (join ", " [])
      end
  | None => Resolved (join ", " [])
  end.

(** [spotify.Track.prototype.title]. *)
Definition Track_title (t : Track) : string :=
  match Track_either t with
  | Some response =>
      if truthy_string (track_name response)
      then string_or_undefined (track_name response)
      else ""
  | None => ""
  end.

(** [spotify.Track.prototype.album]. *)
Definition Track_album (t : Track) : string :=
  match Track_response t with
  | Some response =>
      match track_album response with
      | Some album =>
          if truthy_string (link_name album)
          then string_or_undefined (link_name album)
          else ""
      | None => ""
      end
  | None => ""
  end.

(** [spotify.Track.prototype.name]. *)
Definition Track_name (t : Track) : string :=
  let title := Track_title t in
  if negb (is_empty title)
  then let artist := Track_artist t in
       if negb (is_empty artist) then title ++ " - " ++ artist else title
  else "".

(** [spotify.Track.prototype.toString]. *)
Definition Track_toString (t : Track) : string :=
  let name := Track_name t in
  if negb (is_empty name) then name else Track_entry t.

(** [obj.toString()] for what a queue may hold: a Track has its own
    [toString], the other objects inherit [Object.prototype.toString], and
    [undefined] has no properties. *)
Definition item_toString (obj : item) : outcome string :=
  match obj with
  | ITrack _ t => Resolved (Track_toString t)
  | IAlbum _ _ | IArtist _ _ | IQueue _ _ => Resolved "[object Object]"
  | IUndefined => Rejected TypeError
  end.

(** [spotify.Track.prototype.equals]. *)
Definition Track_equals (this : Track) (track : item) : outcome bool :=
  let str1 := toLowerCase (Track_toString this) in
  s <-- item_toString track ;;
  let str2 := toLowerCase s in
  Resolved (String.eqb str1 str2).

(** [spotify.Track.prototype.lastfm]; [None] is [NaN]. *)
Definition Track_lastfm (t : Track) : outcome (option Z) :=
  match Track_lastfmResponse t with
  | Some info =>
      match lastfm_track info with
      | Some tr =>
          match playcount tr with
          | Some s => Resolved (parseInt s)
          | None => Resolved None
          end
      | None => Rejected TypeError
      end
  | None => Resolved (Some (-1)%Z)
  end.

Section Program.

Variable env : Environment.

(** [spotify.Track.prototype.fetchTrack]. *)
Definition Track_fetchTrack (t : Track) : M Track :=
  let id := Track_id t in
  let url := ("https://api.spotify.com/v1/tracks/" ++
             encodeURIComponent (ident_to_string id))%string in
  result <- request (request_track env) url ;;
  ret {| Track_entry := Track_entry t;
         Track_responseSimple := Track_responseSimple t;
         Track_response := Some result;
         Track_lastfmResponse := Track_lastfmResponse t |}.

(** [spotify.Track.prototype.searchForTrack]; the promise resolves with the
    track, or with [undefined] ([None]) when the first hit is missing or has
    no [uri]. *)
Definition Track_searchForTrack (t : Track) (query : string) : M (option Track) :=
  let url := ("https://api.spotify.com/v1/search?type=track&q=" ++
             encodeURIComponent query)%string in
  result <- request (request_track_search env) url ;;
  match tracks_items result with
  | Some (first :: _) =>
      if truthy_string (track_uri first)
      then ret (Some {| Track_entry := Track_entry t;
                        Track_responseSimple := Some first;
                        Track_response := Track_response t;
                        Track_lastfmResponse := Track_lastfmResponse t |})
      else ret None
  | _ => ret None
  end.

(** [spotify.Track.prototype.dispatch]. *)
Definition Track_dispatch (t : Track) : M (option Track) :=
  if truthy_object (Track_response t) then ret (Some t)
  else if truthy_object (Track_responseSimple t)
  then t' <- Track_fetchTrack t ;; ret (Some t')
  else if Track_isURI (Track_entry t)
  then t' <- Track_fetchTrack t ;; ret (Some t')
  else if Track_isLink (Track_entry t)
  then t' <- Track_fetchTrack t ;; ret (Some t')
  else Track_searchForTrack t (Track_entry t).

(** [spotify.Track.prototype.fetchLastfm]. *)
Definition Track_fetchLastfm (t : Track) : M Track :=
  let artist := Track_artist t in
  let title := Track_title t in
  match getInfo env artist title with
  | Some result =>
      ret {| Track_entry := Track_entry t;
             Track_responseSimple := Track_responseSimple t;
             Track_response := Track_response t;
             Track_lastfmResponse := Some result |}
  | None => throw RequestError
  end.

(* ------------------------------------------------------------------ *)
(** ** Album *)
(* ------------------------------------------------------------------ *)

(** [spotify.Album.prototype.isSearchResponse]. *)
Definition Album_isSearchResponse (response : option AlbumSearch) : bool :=
  match response with
  | Some r =>
      match albums_items r with
      | Some (first :: _) => truthy_string (album_id first)
      | _ => false
      end
  | None => false
  end.

(** [spotify.Album.prototype.isAlbumResponse]. *)
Definition Album_isAlbumResponse (response : option AlbumObject) : bool :=
  match response with
  | Some r => truthy_string (album_id r)
  | None => false
  end.

(** [new spotify.Album(entry, response)].  The constructor is called with no
    response (by the parser) or with an album object (by
    [Artist.createQueue]); an album object has no [albums] field, so
    [isSearchResponse] is false of it. *)
Definition Album_new (entry : string) (response : option AlbumObject) : Album :=
  {| Album_entry := trim entry;
     Album_searchResponse := None;
     Album_albumResponse :=
       if Album_isAlbumResponse response then response else None |}.

(** [spotify.Album.prototype.id]. *)
Definition Album_id (a : Album) : ident :=
  if Album_isAlbumResponse (Album_albumResponse a)
  then match Album_albumResponse a with
       | Some r => IdString (string_or_undefined (album_id r))
       | None => IdUndefined
       end
  else if Album_isSearchResponse (Album_searchResponse a)
  then match Album_searchResponse a with
       | Some {| albums_items := Some (first :: _) |} =>
           IdString (string_or_undefined (album_id first))
       | _ => IdUndefined
       end
  else IdNumber (-1).

(** [spotify.Album.prototype.searchForAlbum]. *)
Definition Album_searchForAlbum (a : Album) (query : string) : M Album :=
  let url := ("https://api.spotify.com/v1/search?type=album&q=" ++
             encodeURIComponent query)%string in
  catch
    (response <- request (request_album_search env) url ;;
     if Album_isSearchResponse (Some response)
     then ret {| Album_entry := Album_entry a;
                 Album_searchResponse := Some response;
                 Album_albumResponse := Album_albumResponse a |}
     else throw Reject)
    (fun _ => console_log ("COULD NOT FIND " ++ query)%string ;;; throw Reject).

(** [spotify.Album.prototype.fetchAlbum]: the album with its response
    stored, and the response the promise resolves with. *)
Definition Album_fetchAlbum (a : Album) : M (Album * AlbumObject) :=
  let id := Album_id a in
  let url := ("https://api.spotify.com/v1/albums/" ++
             encodeURIComponent (ident_to_string id))%string in
  response <- request (request_album env) url ;;
  if Album_isAlbumResponse (Some response)
  then ret ({| Album_entry := Album_entry a;
               Album_searchResponse := Album_searchResponse a;
               Album_albumResponse := Some response |}, response)
  else throw Reject.

(** The loop of [createQueue]: one new Track per listed track. *)
Fixpoint Album_createTracks (entry : string) (tracks : list TrackObject)
  : M (list item) :=
  match tracks with
  | [] => ret []
  | track :: rest =>
      r <- alloc ;;
      others <- Album_createTracks entry rest ;;
      ret (ITrack r (Track_new entry (Some track)) :: others)
  end.

(** [spotify.Album.prototype.createQueue], called on [this]: on the global
    object there is no [createQueue] to call. *)
Definition Album_createQueue (this : receiver Album) (response : AlbumObject)
  : M item :=
  match this with
  | This a =>
      match album_tracks response with
      | Some tracks =>
          q <- alloc ;;
          entries <- Album_createTracks (Album_entry a) tracks ;;
          ret (IQueue q entries)
      | None => throw TypeError
      end
  | Global => throw TypeError
  end.

(** [spotify.Album.prototype.dispatch].  In the second branch the callback is
    a plain function that reads [this], which is then the global object. *)
Definition Album_dispatch (a : Album) : M item :=
  if truthy_object (Album_searchResponse a)
  then ar <- Album_fetchAlbum a ;;
       Album_createQueue (This (fst ar)) (snd ar)
  else if truthy_object (Album_albumResponse a)
  then ar <- Album_fetchAlbum a ;;
       Album_createQueue Global (snd ar)
  else a1 <- Album_searchForAlbum a (Album_entry a) ;;
       ar <- Album_fetchAlbum a1 ;;
       Album_createQueue (This (fst ar)) (snd ar).

(* ================================================================== *)
(** * Queue *)
(* ================================================================== *)

(** A [spotify.Queue] is represented by its array [this.queue]. *)

(** [spotify.Queue.prototype.add]. *)
Definition Queue_add (queue : list item) (entry : item) : list item :=
  queue ++ [entry].

(** [(entry.equals && entry.equals(obj)) || entry === obj]: only a Track has
    an [equals] method, and reading a property of [undefined] throws. *)
Definition entry_matches (entry obj : item) : outcome bool :=
  match entry with
  | ITrack _ t =>
      same <-- Track_equals t obj ;;
      Resolved (same || strict_eqb entry obj)%bool
  | IAlbum _ _ | IArtist _ _ | IQueue _ _ => Resolved (strict_eqb entry obj)
  | IUndefined => Rejected TypeError
  end.

(** [spotify.Queue.prototype.contains]. *)
Fixpoint Queue_contains (queue : list item) (obj : item) : outcome bool :=
  match queue with
  | [] => Resolved false
  | entry :: rest =>
      found <-- entry_matches entry obj ;;
      if found then Resolved true else Queue_contains rest obj
  end.

(** The [forEach] of [dedup], [result] being the queue built so far. *)
Fixpoint dedup_loop (queue result : list item) : outcome (list item) :=
  match queue with
  | [] => Resolved result
  | entry :: rest =>
      found <-- Queue_contains result entry ;;
      dedup_loop rest (if found then result else Queue_add result entry)
  end.

(** [spotify.Queue.prototype.dedup]. *)
Definition Queue_dedup (queue : list item) : outcome (list item) :=
  dedup_loop queue [].

(** [spotify.Queue.prototype.flatten]. *)
Fixpoint flatten_item (entry : item) : list item :=
  match entry with
  | IQueue _ q => flat_map flatten_item q
  | _ => [entry]
  end.

Definition Queue_flatten (queue : list item) : list item :=
  flat_map flatten_item queue.

Definition is_undefined (entry : item) : bool :=
  match entry with IUndefined => true | _ => false end.

(** [Array.prototype.sort(fn)] as ECMAScript 2019 defines it: the sort is
    stable, and the [undefined] elements go last without being handed to
    [fn].  [fn a b] says [a] first when negative, [b] first when positive.
    For an [fn] that is not a consistent ordering the standard leaves the
    order to the engine; the model then gives the order of a stable
    insertion sort. *)
Fixpoint sort_insert (fn : item -> item -> outcome Z) (x : item)
  (sorted : list item) : outcome (list item) :=
  match sorted with
  | [] => Resolved [x]
  | y :: rest =>
      v <-- fn x y ;;
      if (v <=? 0)%Z then Resolved (x :: y :: rest)
      else rest' <-- sort_insert fn x rest ;; Resolved (y :: rest')
  end.

Fixpoint sort_defined (fn : item -> item -> outcome Z) (l : list item)
  : outcome (list item) :=
  match l with
  | [] => Resolved []
  | x :: rest => sorted <-- sort_defined fn rest ;; sort_insert fn x sorted
  end.

(** [spotify.Queue.prototype.sort]. *)
Definition Queue_sort (fn : item -> item -> outcome Z) (queue : list item)
  : outcome (list item) :=
  sorted <-- sort_defined fn (filter (fun e => negb (is_undefined e)) queue) ;;
  Resolved (sorted ++ filter is_undefined queue).

(** The value of a string of decimal digits. *)
Fixpoint decimal_value (acc : N) (s : string) : N :=
  match s with
  | EmptyString => acc
  | String c r => decimal_value (acc * 10 + (code c - 48)) r
  end.

(** [ToString] of a non-negative integer. *)
Definition index_to_string (n : N) : string :=
  NilZero.string_of_uint (N.to_uint n).

(** Whether a property key is an array index: the canonical decimal form of
    an integer from 0 to 2^32 - 2, that is, a string of digits that is what
    its value prints as. *)
Definition array_index (key : string) : option N :=
  if (negb (is_empty key) && string_forallb is_digit key)%bool
  then let n := decimal_value 0 key in
       if (String.eqb (index_to_string n) key && N.leb n 4294967294)%bool
       then Some n
       else None
  else None.

(** The object [map] of [group]: an array used as a table from keys to
    arrays of entries.  [for (k in map)] visits the array indices in
    ascending order and then the other keys in the order of their
    creation. *)
Record table := {
  indexed : list (N * list item);
  named : list (string * list item)
}.

Fixpoint add_indexed (n : N) (entry : item) (l : list (N * list item))
  : list (N * list item) :=
  match l with
  | [] => [(n, [entry])]
  | (n', group) :: rest =>
      if N.eqb n n' then (n', group ++ [entry]) :: rest
      else if N.ltb n n' then (n, [entry]) :: (n', group) :: rest
      else (n', group) :: add_indexed n entry rest
  end.

Fixpoint add_named (k : string) (entry : item) (l : list (string * list item))
  : list (string * list item) :=
  match l with
  | [] => [(k, [entry])]
  | (k', group) :: rest =>
      if String.eqb k k' then (k', group ++ [entry]) :: rest
      else (k', group) :: add_named k entry rest
  end.

(** [if (!map[key]) { map[key] = [] }; map[key].push(entry)].  A key that
    names a property every array already has is not looked up in the table:
    [map[key]] is then the array's own value, a number or a function, and
    [push] is not a method of it.  (For [__proto__] the value is
    [Array.prototype], which the program would extend instead; the model
    stops there as well.) *)
Definition table_push (key : string) (entry : item) (map : table)
  : outcome table :=
  if array_property env key then Rejected TypeError
  else match array_index key with
       | Some n => Resolved {| indexed := add_indexed n entry (indexed map);
                               named := named map |}
       | None => Resolved {| indexed := indexed map;
                             named := add_named key entry (named map) |}
       end.

Fixpoint group_loop (fn : item -> outcome string) (queue : list item)
  (map : table) : outcome table :=
  match queue with
  | [] => Resolved map
  | entry :: rest =>
      key <-- fn entry ;;
      map' <-- table_push key entry map ;;
      group_loop fn rest map'
  end.

(** [for (var k in map) { result = result.concat(map[k]) }]. *)
Definition table_concat (map : table) : list item :=
  flat_map snd (indexed map) ++ flat_map snd (named map).

(** [spotify.Queue.prototype.group]. *)
Definition Queue_group (fn : item -> outcome string) (queue : list item)
  : outcome (list item) :=
  map <-- group_loop fn queue {| indexed := []; named := [] |} ;;
  Resolved (table_concat map).

(** The chain of [resolveAll]: every entry in turn, the next one starting
    when the previous one has settled; a resolved value is added to
    [result], a rejection is dropped. *)
Fixpoint resolve_loop {A : Type} (fn : A -> M item) (queue : list A)
  (result : list item) : M (list item) :=
  match queue with
  | [] => ret result
  | entry :: rest =>
      fun w =>
        match fn entry w with
        | (Resolved value, w') => resolve_loop fn rest (Queue_add result value) w'
        | (Rejected _, w') => resolve_loop fn rest result w'
        end
  end.

(** [spotify.Queue.prototype.resolveAll]. *)
Definition Queue_resolveAll {A : Type} (fn : A -> M item) (queue : list A)
  : M (list item) :=
  resolve_loop fn queue [].

(* ------------------------------------------------------------------ *)
(** ** Artist *)
(* ------------------------------------------------------------------ *)

(** [new spotify.Artist(entry)]. *)
Definition Artist_new (entry : string) : Artist :=
  {| Artist_entry := trim entry;
     Artist_artistResponse := None;
     Artist_albumResponse := None |}.

(** [spotify.Artist.prototype.isSearchResponse]. *)
Definition Artist_isSearchResponse (response : option ArtistSearch) : bool :=
  match response with
  | Some r =>
      match artists_items r with
      | Some (first :: _) => truthy_string (hit_id first)
      | _ => false
      end
  | None => false
  end.

(** [spotify.Artist.prototype.id]. *)
Definition Artist_id (a : Artist) : ident :=
  if Artist_isSearchResponse (Artist_artistResponse a)
  then match Artist_artistResponse a with
       | Some {| artists_items := Some (first :: _) |} =>
           IdString (string_or_undefined (hit_id first))
       | _ => IdUndefined
       end
  else IdNumber (-1).

(** [spotify.Artist.prototype.searchForArtist]. *)
Definition Artist_searchForArtist (a : Artist) (query : string) : M Artist :=
  let url := ("https://api.spotify.com/v1/search?type=artist&q=" ++
              encodeURIComponent query)%string in
  response <- request (request_artist_search env) url ;;
  if Artist_isSearchResponse (Some response)
  then ret {| Artist_entry := Artist_entry a;
              Artist_artistResponse := Some response;
              Artist_albumResponse := Artist_albumResponse a |}
  else throw Reject.

(** [spotify.Artist.prototype.fetchAlbums]. *)
Definition Artist_fetchAlbums (a : Artist) : M (Artist * ArtistAlbums) :=
  let id := Artist_id a in
  let url := ("https://api.spotify.com/v1/artists/" ++
              encodeURIComponent (ident_to_string id) ++ "/albums")%string in
  response <- request (request_artist_albums env) url ;;
  if truthy_object (items response)
  then ret ({| Artist_entry := Artist_entry a;
               Artist_artistResponse := Artist_artistResponse a;
               Artist_albumResponse := Some response |}, response)
  else throw Reject.

(** The loop of [createQueue]: one new Album per listed album. *)
Fixpoint Artist_createAlbums (entry : string) (albums : list AlbumObject)
  : M (list (nat * Album)) :=
  match albums with
  | [] => ret []
  | album :: rest =>
      r <- alloc ;;
      others <- Artist_createAlbums entry rest ;;
      ret ((r, Album_new entry (Some album)) :: others)
  end.

(** [spotify.Artist.prototype.createQueue]: the albums are dispatched in
    turn, and the promise resolves with the queue of their results. *)
Definition Artist_createQueue (a : Artist) (response : ArtistAlbums) : M item :=
  match items response with
  | Some albums =>
      alloc ;;;
      queue <- Artist_createAlbums (Artist_entry a) albums ;;
      result <- Queue_resolveAll (fun entry => Album_dispatch (snd entry)) queue ;;
      r <- alloc ;;
      ret (IQueue r result)
  | None => throw TypeError
  end.

(** [spotify.Artist.prototype.dispatch]. *)
Definition Artist_dispatch (a : Artist) : M item :=
  a1 <- Artist_searchForArtist a (Artist_entry a) ;;
  ar <- Artist_fetchAlbums a1 ;;
  Artist_createQueue (fst ar) (snd ar).

(** [entry.dispatch()] for what a queue may hold.  A Track resolves with
    itself or with [undefined]; a nested queue has the [dispatch] of
    [spotify.Queue.prototype]. *)
Fixpoint item_dispatch (entry : item) : M item :=
  match entry with
  | ITrack r t =>
      result <- Track_dispatch t ;;
      ret (match result with Some t' => ITrack r t' | None => IUndefined end)
  | IAlbum _ a => Album_dispatch a
  | IArtist _ a => Artist_dispatch a
  | IQueue _ q =>
      result <- Queue_resolveAll item_dispatch q ;;
      r <- alloc ;;
      ret (IQueue r result)
  | IUndefined => throw TypeError
  end.

(** [spotify.Queue.prototype.dispatch]. *)
Definition Queue_dispatch (queue : list item) : M (list item) :=
  Queue_resolveAll item_dispatch queue.

(** [entry.fetchLastfm()] for what a queue may hold: only a Track has the
    method. *)
Definition item_fetchLastfm (entry : item) : M item :=
  match entry with
  | ITrack r t => t' <- Track_fetchLastfm t ;; ret (ITrack r t')
  | _ => throw TypeError
  end.

(* ================================================================== *)
(** * Playlist *)
(* ================================================================== *)

(** [this.ordering]: [null], ['popularity'] or ['lastfm']. *)
Inductive ordering := OrderNull | OrderPopularity | OrderLastfm.

(** [this.grouping]: [true], ['entry'], ['artist'] or ['album']. *)
Inductive grouping := GroupTrue | GroupEntry | GroupArtist | GroupAlbum.

(** [spotify.Playlist]: the fields of the object. *)
Record Playlist := {
  Playlist_ordering : ordering;
  Playlist_grouping : grouping;
  Playlist_unique : bool;
  Playlist_entries : list item
}.

Definition set_ordering (o : ordering) (p : Playlist) : Playlist :=
  {| Playlist_ordering := o;
     Playlist_grouping := Playlist_grouping p;
     Playlist_unique := Playlist_unique p;
     Playlist_entries := Playlist_entries p |}.

Definition set_grouping (g : grouping) (p : Playlist) : Playlist :=
  {| Playlist_ordering := Playlist_ordering p;
     Playlist_grouping := g;
     Playlist_unique := Playlist_unique p;
     Playlist_entries := Playlist_entries p |}.

Definition set_unique (u : bool) (p : Playlist) : Playlist :=
  {| Playlist_ordering := Playlist_ordering p;
     Playlist_grouping := Playlist_grouping p;
     Playlist_unique := u;
     Playlist_entries := Playlist_entries p |}.

Definition set_entries (q : list item) (p : Playlist) : Playlist :=
  {| Playlist_ordering := Playlist_ordering p;
     Playlist_grouping := Playlist_grouping p;
     Playlist_unique := Playlist_unique p;
     Playlist_entries := q |}.

(** [/^#(SORT|ORDER) BY LAST.?FM/i]: after either keyword and [ BY LAST],
    the letters [FM] follow at once or after one code unit that is not a
    line terminator. *)
Definition last_fm_tail (rest : string) : bool :=
  match ci_strip " BY LAST" rest with
  | Some r =>
      (ci_prefix "FM" r ||
       match r with
       | String c r' => negb (is_line_terminator c) && ci_prefix "FM" r'
       | EmptyString => false
       end)%bool
  | None => false
  end.

Definition matches_last_fm (line : string) : bool :=
  (match ci_strip "#SORT" line with Some r => last_fm_tail r | None => false end ||
   match ci_strip "#ORDER" line with Some r => last_fm_tail r | None => false end)%bool.

(** The body of the [while] loop of the constructor, for one line. *)
Definition Playlist_line (line : string) (p : Playlist) : M Playlist :=
  if ci_prefix "#ORDER BY POPULARITY" line then ret (set_ordering OrderPopularity p)
  else if matches_last_fm line then ret (set_ordering OrderLastfm p)
  else if ci_prefix "#GROUP BY ENTRY" line then ret (set_grouping GroupEntry p)
  else if ci_prefix "#GROUP BY ARTIST" line then ret (set_grouping GroupArtist p)
  else if ci_prefix "#GROUP BY ALBUM" line then ret (set_grouping GroupAlbum p)
  else if ci_prefix "#UNIQUE" line then ret (set_unique true p)
  else if ci_prefix "##" line then ret p
  else if ci_prefix "#ALBUM " line
  then r <- alloc ;;
       let album := Album_new (substring_from 7 line) None in
       ret (set_entries (Queue_add (Playlist_entries p) (IAlbum r album)) p)
  else if ci_prefix "#ARTIST " line
  then r <- alloc ;;
       let artist := Artist_new (substring_from 8 line) in
       ret (set_entries (Queue_add (Playlist_entries p) (IArtist r artist)) p)
  else if negb (is_empty line)
  then r <- alloc ;;
       let track := Track_new line None in
       ret (set_entries (Queue_add (Playlist_entries p) (ITrack r track)) p)
  else ret p.

Fixpoint Playlist_lines (lines : list string) (p : Playlist) : M Playlist :=
  match lines with
  | [] => ret p
  | line :: rest => p' <- Playlist_line line p ;; Playlist_lines rest p'
  end.

(** [new spotify.Playlist(str)]; [/\r|\n|\r\n/] splits at every CR and at
    every LF. *)
Definition Playlist_new (str : string) : M Playlist :=
  let this := {| Playlist_ordering := OrderNull;
                 Playlist_grouping := GroupTrue;
                 Playlist_unique := true;
                 Playlist_entries := [] |} in
  let str := trim str in
  if negb (is_empty str)
  then Playlist_lines (split_at is_line_terminator str) this
  else ret this.

(** [spotify.Playlist.prototype.fetchTracks]. *)
Definition Playlist_fetchTracks (p : Playlist) : M Playlist :=
  result <- Queue_dispatch (Playlist_entries p) ;;
  ret (set_entries (Queue_flatten result) p).

(** [spotify.Playlist.prototype.refreshTracks]. *)
Definition Playlist_refreshTracks (p : Playlist) : M Playlist :=
  result <- Queue_dispatch (Playlist_entries p) ;;
  ret (set_entries (Queue_flatten result) p).

(** What [resolveAll] leaves in the queue it runs over when [fn] changes the
    entry it is given: the entries whose [fn] resolved are the changed
    objects, the other ones are as before. *)
Fixpoint update_loop (fn : item -> M item) (queue : list item) : M (list item) :=
  match queue with
  | [] => ret []
  | entry :: rest =>
      fun w =>
        match fn entry w with
        | (Resolved entry', w') =>
            (rest' <- update_loop fn rest ;; ret (entry' :: rest')) w'
        | (Rejected _, w') =>
            (rest' <- update_loop fn rest ;; ret (entry :: rest')) w'
        end
  end.

(** [spotify.Playlist.prototype.fetchLastfm]: the queue of results is not
    used, the entries are annotated in place. *)
Definition Playlist_fetchLastfm (p : Playlist) : M Playlist :=
  entries <- update_loop item_fetchLastfm (Playlist_entries p) ;;
  ret (set_entries entries p).

(** [spotify.Playlist.prototype.dedup]. *)
Definition Playlist_dedup (p : Playlist) : outcome Playlist :=
  if Playlist_unique p
  then q <-- Queue_dedup (Playlist_entries p) ;; Resolved (set_entries q p)
  else Resolved p.

(** [x < y] on numbers; with [undefined] or [NaN] ([None]) on either side
    the comparison is false. *)
Definition less_than (x y : option Z) : bool :=
  match x, y with
  | Some a, Some b => Z.ltb a b
  | _, _ => false
  end.

(** [(x < y) ? 1 : ((x > y) ? -1 : 0)]. *)
Definition descending (x y : option Z) : Z :=
  if less_than x y then 1%Z else if less_than y x then (-1)%Z else 0%Z.

(** [a.popularity()] for what a queue may hold. *)
Definition item_popularity (a : item) : outcome (option Z) :=
  match a with
  | ITrack _ t => Resolved (Track_popularity t)
  | _ => Rejected TypeError
  end.

(** [a.lastfm()] for what a queue may hold. *)
Definition item_lastfm (a : item) : outcome (option Z) :=
  match a with
  | ITrack _ t => Track_lastfm t
  | _ => Rejected TypeError
  end.

Definition by_popularity (a b : item) : outcome Z :=
  x <-- item_popularity a ;;
  y <-- item_popularity b ;;
  Resolved (descending x y).

Definition by_lastfm (a b : item) : outcome Z :=
  x <-- item_lastfm a ;;
  y <-- item_lastfm b ;;
  Resolved (descending x y).

(** [spotify.Playlist.prototype.orderByPopularity]. *)
Definition Playlist_orderByPopularity (p : Playlist) : outcome Playlist :=
  q <-- Queue_sort by_popularity (Playlist_entries p) ;;
  Resolved (set_entries q p).

(** [spotify.Playlist.prototype.orderByLastfm]. *)
Definition Playlist_orderByLastfm (p : Playlist) : outcome Playlist :=
  q <-- Queue_sort by_lastfm (Playlist_entries p) ;;
  Resolved (set_entries q p).

(** [spotify.Playlist.prototype.order]. *)
Definition Playlist_order (p : Playlist) : M Playlist :=
  match Playlist_ordering p with
  | OrderPopularity =>
      p' <- Playlist_refreshTracks p ;; lift (Playlist_orderByPopularity p')
  | OrderLastfm =>
      p' <- Playlist_fetchLastfm p ;; lift (Playlist_orderByLastfm p')
  | OrderNull => ret p
  end.

(** The key functions of the three groupings. *)
Definition artist_key (track : item) : outcome string :=
  match track with
  | ITrack _ t => Resolved (toLowerCase (Track_artist t))
  | _ => Rejected TypeError
  end.

Definition album_key (track : item) : outcome string :=
  match track with
  | ITrack _ t => Resolved (toLowerCase (Track_album t))
  | _ => Rejected TypeError
  end.

Definition entry_key (track : item) : outcome string :=
  match track with
  | ITrack _ t => Resolved (toLowerCase (Track_entry t))
  | IAlbum _ a => Resolved (toLowerCase (Album_entry a))
  | IArtist _ a => Resolved (toLowerCase (Artist_entry a))
  | IQueue _ _ | IUndefined => Rejected TypeError
  end.

(** [spotify.Playlist.prototype.groupByArtist]. *)
Definition Playlist_groupByArtist (p : Playlist) : outcome Playlist :=
  q <-- Queue_group artist_key (Playlist_entries p) ;;
  Resolved (set_entries q p).

(** [spotify.Playlist.prototype.groupByAlbum], called on [this]: the global
    object has no [entries]. *)
Definition Playlist_groupByAlbum (this : receiver Playlist)
  : outcome (receiver Playlist) :=
  match this with
  | This p =>
      q <-- Queue_group album_key (Playlist_entries p) ;;
      Resolved (This (set_entries q p))
  | Global => Rejected TypeError
  end.

(** [spotify.Playlist.prototype.groupByEntry]. *)
Definition Playlist_groupByEntry (p : Playlist) : outcome Playlist :=
  q <-- Queue_group entry_key (Playlist_entries p) ;;
  Resolved (set_entries q p).

(** [spotify.Playlist.prototype.group].  In the album branch the method
    [this.groupByAlbum] is handed to [then] without its object, so it is
    called as a plain function. *)
Definition Playlist_group (p : Playlist) : M Playlist :=
  match Playlist_grouping p with
  | GroupArtist => lift (Playlist_groupByArtist p)
  | GroupAlbum =>
      p' <- Playlist_refreshTracks p ;;
      lift (Playlist_groupByAlbum Global) ;;;
      ret p'
  | GroupEntry => lift (Playlist_groupByEntry p)
  | GroupTrue => ret p
  end.

Definition newline : string := String (ascii_of_nat 10) EmptyString.

(** What [console.log] prints for a number. *)
Definition show_number (x : option Z) : string :=
  match x with Some z => number_to_string z | None => "NaN" end.

(** The callback of the [forEach] of [toString], [result] being the text
    built so far. *)
Definition toString_step (track : item) (result : string) : M string :=
  name <- lift (item_toString track) ;;
  console_log name ;;;
  plays <- lift (item_lastfm track) ;;
  console_log (show_number plays) ;;;
  match track with
  | ITrack _ t =>
      match Track_uri t with
      | Some EmptyString => ret result
      | uri => ret (result ++ string_or_undefined uri ++ newline)%string
      end
  | _ => throw TypeError
  end.

Fixpoint toString_loop (queue : list item) (result : string) : M string :=
  match queue with
  | [] => ret result
  | track :: rest =>
      result' <- toString_step track result ;; toString_loop rest result'
  end.

(** [spotify.Playlist.prototype.toString]. *)
Definition Playlist_toString (p : Playlist) : M string :=
  result <- toString_loop (Playlist_entries p) "" ;;
  ret (trim result).

(** [spotify.Playlist.prototype.dispatch]. *)
Definition Playlist_dispatch (p : Playlist) : M string :=
  p1 <- Playlist_fetchTracks p ;;
  p2 <- lift (Playlist_dedup p1) ;;
  p3 <- Playlist_order p2 ;;
  p4 <- Playlist_group p3 ;;
  Playlist_toString p4.

(** [main], from the text of the input file to the text handed to
    [fs.writeFile]. *)
Definition run (str : string) : M string :=
  playlist <- Playlist_new str ;;
  Playlist_dispatch playlist.

End Program.

(* ================================================================== *)
(** * Vocabulary of the properties *)
(* ================================================================== *)

(** A Track no response has reached. *)
Definition unresolved (t : Track) : Prop :=
  Track_response t = None /\ Track_responseSimple t = None.

(** The case-folded [toString()] of a Track. *)
Definition folded (t : Track) : string := toLowerCase (Track_toString t).

(** The URL of [GET /tracks/<id>] for a Track. *)
Definition track_url (t : Track) : string :=
  ("https://api.spotify.com/v1/tracks/" ++
   encodeURIComponent (ident_to_string (Track_id t)))%string.

(** A Track with [body] stored as its full response. *)
Definition promoted (t : Track) (body : TrackObject) : Track :=
  {| Track_entry := Track_entry t;
     Track_responseSimple := Track_responseSimple t;
     Track_response := Some body;
     Track_lastfmResponse := Track_lastfmResponse t |}.

(** The world after one more request. *)
Definition after_request (url : string) (w : World) : World :=
  {| next_ref := next_ref w;
     requests := requests w ++ [url];
     console := console w ++ [url] |}.

(** The world after one more allocation. *)
Definition after_alloc (w : World) : World :=
  {| next_ref := S (next_ref w);
     requests := requests w;
     console := console w |}.

(** A line that begins with [#]. *)
Definition begins_with_hash (line : string) : bool :=
  match line with
  | String c _ => Ascii.eqb c "#"
  | EmptyString => false
  end.

(** A line one of the directive patterns of the parser matches. *)
Definition recognised (line : string) : bool :=
  (ci_prefix "#ORDER BY POPULARITY" line ||
   matches_last_fm line ||
   ci_prefix "#GROUP BY ENTRY" line ||
   ci_prefix "#GROUP BY ARTIST" line ||
   ci_prefix "#GROUP BY ALBUM" line ||
   ci_prefix "#UNIQUE" line ||
   ci_prefix "##" line ||
   ci_prefix "#ALBUM " line ||
   ci_prefix "#ARTIST " line)%bool.

(** The playlist of the constructor before any line is read. *)
Definition empty_playlist : Playlist :=
  {| Playlist_ordering := OrderNull;
     Playlist_grouping := GroupTrue;
     Playlist_unique := true;
     Playlist_entries := [] |}.

Definition empty_world : World :=
  {| next_ref := 0; requests := []; console := [] |}.

(** The property names of an array in ECMAScript 5.1: its own [length] and
    the members of [Array.prototype] and [Object.prototype]. *)
Definition es5_array_property (key : string) : bool :=
  existsb (String.eqb key)
    ["length"; "constructor"; "toString"; "toLocaleString"; "join"; "pop";
     "push"; "reverse"; "shift"; "slice"; "sort"; "splice"; "unshift";
     "concat"; "indexOf"; "lastIndexOf"; "every"; "some"; "forEach"; "map";
     "filter"; "reduce"; "reduceRight"; "valueOf"; "hasOwnProperty";
     "isPrototypeOf"; "propertyIsEnumerable"; "__proto__";
     "__defineGetter__"; "__defineSetter__"; "__lookupGetter__";
     "__lookupSetter__"].

(** A service on which every track search succeeds and finds nothing, and
    every other request fails. *)
Definition no_hits : Environment :=
  {| request_track := fun _ => None;
     request_track_search := fun _ => Some {| tracks_items := Some [] |};
     request_album := fun _ => None;
     request_album_search := fun _ => None;
     request_artist_search := fun _ => None;
     request_artist_albums := fun _ => None;
     getInfo := fun _ _ => None;
     array_property := es5_array_property |}.

(** A full track object. *)
Definition full_track (id name artist album : string) (popularity : Z)
  : TrackObject :=
  {| track_id := Some id;
     track_uri := Some ("spotify:track:" ++ id)%string;
     track_name := Some name;
     track_artists := Some [{| artist_name := Some artist |}];
     track_album := Some {| link_name := Some album |};
     track_popularity := Some popularity |}.

(** A service that knows one track, [/v1/tracks/4uLU6hMCjMI75M1A2tKUQC]. *)
Definition one_track : Environment :=
  {| request_track := fun url =>
       if String.eqb url "https://api.spotify.com/v1/tracks/4uLU6hMCjMI75M1A2tKUQC"
       then Some (full_track "4uLU6hMCjMI75M1A2tKUQC" "Idioteque" "Radiohead"
                    "Kid A" 70)
       else None;
     request_track_search := fun _ => None;
     request_album := fun _ => None;
     request_album_search := fun _ => None;
     request_artist_search := fun _ => None;
     request_artist_albums := fun _ => None;
     getInfo := fun _ _ => None;
     array_property := es5_array_property |}.

(** A track object as the listing of an album gives it: no popularity. *)
Definition simple_track (id name artist : string) : TrackObject :=
  {| track_id := Some id;
     track_uri := Some ("spotify:track:" ++ id)%string;
     track_name := Some name;
     track_artists := Some [{| artist_name := Some artist |}];
     track_album := None;
     track_popularity := None |}.

(** Whether an entry is a Track. *)
Definition is_track (e : item) : bool :=
  match e with ITrack _ _ => true | _ => false end.

(** The equivalence of [contains], as the specification words it: the two
    items are the same object, or both are Tracks whose case-folded
    [toString()] agree. *)
Definition same_class (x y : item) : bool :=
  (strict_eqb x y ||
   match x, y with
   | ITrack _ a, ITrack _ b => String.eqb (folded a) (folded b)
   | _, _ => false
   end)%bool.

(** An entry that is an object, not [undefined]. *)
Definition is_object (e : item) : bool := negb (is_undefined e).

(** [obj.toString()] of an object. *)
Definition printed (obj : item) : string :=
  match obj with
  | ITrack _ t => Track_toString t
  | _ => "[object Object]"
  end.

(** The test of [contains] between two objects: [entry], an item of the
    queue, matches [obj] when they are the same object, or when [entry] is a
    Track and the case-folded [toString()] of both agree. *)
Definition matches (entry obj : item) : bool :=
  (strict_eqb entry obj ||
   match entry with
   | ITrack _ t => String.eqb (folded t) (toLowerCase (printed obj))
   | _ => false
   end)%bool.

(** [l1] is [l2] with some items left out. *)
Inductive subsequence : list item -> list item -> Prop :=
| subsequence_nil : subsequence [] []
| subsequence_skip (x : item) (l1 l2 : list item) :
    subsequence l1 l2 -> subsequence l1 (x :: l2)
| subsequence_keep (x : item) (l1 l2 : list item) :
    subsequence l1 l2 -> subsequence (x :: l1) (x :: l2).

(** The first occurrence of each class of [queue]: an item is kept when none
    of the items before it, which are [seen] and the earlier items of
    [queue], is of its class. *)
Fixpoint first_occurrences (seen queue : list item) : list item :=
  match queue with
  | [] => []
  | x :: rest =>
      if existsb (fun y => same_class y x) seen
      then first_occurrences (seen ++ [x]) rest
      else x :: first_occurrences (seen ++ [x]) rest
  end.

(** References identify objects: two entries of the queue with the same
    reference are the same object. *)
Definition consistent_refs (queue : list item) : Prop :=
  forall x y, In x queue -> In y queue -> strict_eqb x y = true -> x = y.

Section GreedyLoop.

(** The loop of [dedup] for an arbitrary matching test [eqv]. *)
Variable eqv : item -> item -> bool.

Definition matched (acc : list item) (x : item) : bool :=
  existsb (fun y => eqv y x) acc.

Fixpoint kept (queue acc : list item) : list item :=
  match queue with
  | [] => acc
  | x :: rest => kept rest (if matched acc x then acc else acc ++ [x])
  end.

(** No item of [l] is matched by an item before it, [acc] included. *)
Fixpoint chain (acc l : list item) : Prop :=
  match l with
  | [] => True
  | x :: l' => matched acc x = false /\ chain (acc ++ [x]) l'
  end.

End GreedyLoop.

(** The key of the class of a Track. *)
Definition class_key (e : item) : string :=
  match e with
  | ITrack _ t => folded t
  | _ => EmptyString
  end.

(** An unresolved Track entry. *)
Definition query (entry : string) : Track :=
  {| Track_entry := entry;
     Track_responseSimple := None;
     Track_response := None;
     Track_lastfmResponse := None |}.

(** A Track whose text is what an object prints as, and an Album. *)
Definition mixed_queue : list item :=
  [ITrack 0 (query "[object Object]"); IAlbum 1 (Album_new "Kid A" None)].

(** A queue in which the object 0 occurs twice and the objects 0 and 1
    differ in letter case only. *)
Definition sample_queue : list item :=
  [ITrack 0 (query "foo"); ITrack 1 (query "FOO");
   ITrack 0 (query "foo"); ITrack 2 (query "bar")].

(** The keys of [ks] in the order of their first appearance. *)
Fixpoint distinct (ks : list string) : list string :=
  match ks with
  | [] => []
  | k :: rest => k :: filter (fun k' => negb (String.eqb k' k)) (distinct rest)
  end.

(** The key [fn] gives, for an entry on which it does not throw. *)
Definition key_of (fn : item -> outcome string) (e : item) : string :=
  match fn e with
  | Resolved k => k
  | Rejected _ => EmptyString
  end.

(** The entries of [queue] whose key is [k], in the order of the queue. *)
Definition group_of (key : item -> string) (queue : list item) (k : string)
  : list item :=
  filter (fun e => String.eqb (key e) k) queue.

(** The partition the specification describes: the groups one after the
    other, in the order in which their keys first appear. *)
Definition grouped_by_first_appearance (key : item -> string)
  (queue : list item) : list item :=
  flat_map (group_of key queue) (distinct (map key queue)).

Definition is_index (k : string) : bool :=
  match array_index k with Some _ => true | None => false end.

(** The entries of [queue] whose key is the array index [n]. *)
Definition index_group (key : item -> string) (queue : list item) (n : N)
  : list item :=
  filter (fun e => match array_index (key e) with
                   | Some m => N.eqb m n
                   | None => false
                   end) queue.

(** The key list of the table of [group] after the keys [ks]: a new key goes
    last among the names, and at its place among the indices. *)
Fixpoint append_new (k : string) (l : list string) : list string :=
  match l with
  | [] => [k]
  | k' :: rest => if String.eqb k k' then l else k' :: append_new k rest
  end.

Fixpoint insert_new (n : N) (l : list N) : list N :=
  match l with
  | [] => [n]
  | m :: rest =>
      if N.eqb n m then l
      else if N.ltb n m then n :: l
      else m :: insert_new n rest
  end.

Definition names_seen (ks : list string) : list string :=
  fold_left (fun acc k => append_new k acc)
    (filter (fun k => negb (is_index k)) ks) [].

Definition indices_seen (ks : list string) : list N :=
  fold_left (fun acc k => match array_index k with
                          | Some n => insert_new n acc
                          | None => acc
                          end) ks [].

(** The table of [group] after the entries [p]. *)
Definition table_of (key : item -> string) (p : list item) : table :=
  {| indexed := map (fun n => (n, index_group key p n))
                  (indices_seen (map key p));
     named := map (fun k => (k, group_of key p k))
                (names_seen (map key p)) |}.

(** Six unresolved entries; two of their keys are array indices, one is the
    empty string. *)
Definition keyed_queue : list item :=
  [ITrack 0 (query "b"); ITrack 1 (query "10"); ITrack 2 (query "9");
   ITrack 3 (query ""); ITrack 4 (query "B"); ITrack 5 (query "10")].









(** A service that knows two tracks, of popularity 30 and 70, and a third
    one of popularity 30. *)
Definition three_tracks : Environment :=
  {| request_track := fun url =>
       if String.eqb url "https://api.spotify.com/v1/tracks/a1"
       then Some (full_track "a1" "First" "A" "Album" 30)
       else if String.eqb url "https://api.spotify.com/v1/tracks/b2"
       then Some (full_track "b2" "Second" "B" "Album" 70)
       else if String.eqb url "https://api.spotify.com/v1/tracks/c3"
       then Some (full_track "c3" "Third" "C" "Album" 30)
       else None;
     request_track_search := fun _ => None;
     request_album := fun _ => None;
     request_album_search := fun _ => None;
     request_artist_search := fun _ => None;
     request_artist_albums := fun _ => None;
     getInfo := fun _ _ => None;
     array_property := es5_array_property |}.

(** A playlist ordered by popularity that holds [undefined] and four simple
    Tracks; the service does not know the last one. *)
Definition popularity_playlist : Playlist :=
  {| Playlist_ordering := OrderPopularity;
     Playlist_grouping := GroupTrue;
     Playlist_unique := true;
     Playlist_entries :=
       [IUndefined;
        ITrack 0 (Track_new "first" (Some (simple_track "a1" "First" "A")));
        ITrack 1 (Track_new "second" (Some (simple_track "b2" "Second" "B")));
        ITrack 2 (Track_new "third" (Some (simple_track "c3" "Third" "C")));
        ITrack 3 (Track_new "fourth" (Some (simple_track "d4" "Fourth" "D")))] |}.

(** What is left of [s] after the literal prefix [pat], letter case
    observed. *)
Fixpoint strip_prefix (pat s : string) : option string :=
  match pat, s with
  | EmptyString, _ => Some s
  | String _ _, EmptyString => None
  | String p pat', String c s' =>
      if Ascii.eqb p c then strip_prefix pat' s' else None
  end.

(** What is left of [s] after a scheme, one or more letters or digits, and
    the colon that ends it. *)
Fixpoint strip_scheme (s : string) : option string :=
  match s with
  | EmptyString => None
  | String c r =>
      if is_alnum c
      then match r with
           | String ":" rest => Some rest
           | _ => strip_scheme r
           end
      else None
  end.

(** [<scheme>:track:[A-Za-z0-9]+]. *)
Definition track_uri_format (s : string) : bool :=
  match strip_scheme s with
  | Some rest =>
      match strip_prefix "track:" rest with
      | Some id => (negb (is_empty id) && string_forallb is_alnum id)%bool
      | None => false
      end
  | None => false
  end.

(** A Track the renderer accepts: [lastfm()] does not throw, and the URI is
    empty or of the format of track URIs. *)
Definition renderable (e : item) : bool :=
  match e with
  | ITrack _ t =>
      (match Track_lastfm t with Resolved _ => true | Rejected _ => false end &&
       match Track_uri t with
       | Some u => is_empty u || track_uri_format u
       | None => false
       end)%bool
  | _ => false
  end.

(** The URIs of the Tracks of the queue whose URI is not empty, in the order
    of the queue. *)
Fixpoint uris_of (queue : list item) : list string :=
  match queue with
  | [] => []
  | ITrack _ t :: rest =>
      match Track_uri t with
      | Some EmptyString => uris_of rest
      | u => string_or_undefined u :: uris_of rest
      end
  | _ :: rest => uris_of rest
  end.



(** Every URI followed by a line feed. *)
Fixpoint text_of (uris : list string) : string :=
  match uris with
  | [] => EmptyString
  | u :: rest => (u ++ newline ++ text_of rest)%string
  end.

(** A string without white space. *)
Definition printable (s : string) : bool :=
  string_forallb (fun c => negb (is_space c)) s.

(** Three resolved Tracks and an unresolved one. *)
Definition rendered_playlist : Playlist :=
  {| Playlist_ordering := OrderNull;
     Playlist_grouping := GroupTrue;
     Playlist_unique := true;
     Playlist_entries :=
       [ITrack 0 (Track_new "first" (Some (simple_track "a1" "First" "A")));
        ITrack 1 (query "nothing");
        ITrack 2 (Track_new "second"
                    (Some (full_track "b2" "Second" "B" "Album" 70)));
        ITrack 3 (Track_new "third" (Some (simple_track "c3" "Third" "C")))] |}.




(* ================================================================== *)
(** * Further vocabulary *)
(* ================================================================== *)

(** An entry that is not a nested queue. *)
Definition is_leaf (e : item) : bool :=
  match e with IQueue _ _ => false | _ => true end.

(** A Track or [undefined]: what a flattened queue of dispatched entries
    holds. *)
Definition is_result (e : item) : bool :=
  match e with ITrack _ _ | IUndefined => true | _ => false end.

(** Two Tracks with a full response, of popularity 30 and 70. *)
Definition two_rated : list item :=
  [ITrack 0 (Track_new "first" (Some (full_track "a1" "First" "A" "Album" 30)));
   ITrack 1 (Track_new "second" (Some (full_track "b2" "Second" "B" "Album" 70)))].

(** A Track and an [undefined]. *)
Definition track_and_undefined : list item :=
  [ITrack 0 (query "foo"); IUndefined].

(** The reference of an object. *)
Definition reference (e : item) : option nat :=
  match e with
  | ITrack r _ | IAlbum r _ | IArtist r _ | IQueue r _ => Some r
  | IUndefined => None
  end.

(** An entry as the parser makes it: a Track, an Album or an Artist that
    holds its entry text and no response. *)
Definition parsed_entry (e : item) : bool :=
  match e with
  | ITrack _ t =>
      (negb (truthy_object (Track_response t)) &&
       negb (truthy_object (Track_responseSimple t)) &&
       negb (truthy_object (Track_lastfmResponse t)))%bool
  | IAlbum _ a =>
      (negb (truthy_object (Album_searchResponse a)) &&
       negb (truthy_object (Album_albumResponse a)))%bool
  | IArtist _ a =>
      (negb (truthy_object (Artist_artistResponse a)) &&
       negb (truthy_object (Artist_albumResponse a)))%bool
  | IQueue _ _ | IUndefined => false
  end.

(** The world after [n] allocations. *)
Definition after_allocs (n : nat) (w : World) : World :=
  {| next_ref := next_ref w + n;
     requests := requests w;
     console := console w |}.

(** A code unit below U+0080. *)
Definition is_ascii (c : ascii) : bool := N.ltb (code c) 128.

(** The object [e] with [f] applied to its entry text. *)
Definition with_entry (f : string -> string) (e : item) : item :=
  match e with
  | ITrack r t =>
      ITrack r {| Track_entry := f (Track_entry t);
                  Track_responseSimple := Track_responseSimple t;
                  Track_response := Track_response t;
                  Track_lastfmResponse := Track_lastfmResponse t |}
  | IAlbum r a =>
      IAlbum r {| Album_entry := f (Album_entry a);
                  Album_searchResponse := Album_searchResponse a;
                  Album_albumResponse := Album_albumResponse a |}
  | IArtist r a =>
      IArtist r {| Artist_entry := f (Artist_entry a);
                   Artist_artistResponse := Artist_artistResponse a;
                   Artist_albumResponse := Artist_albumResponse a |}
  | IQueue _ _ | IUndefined => e
  end.

(** A text of ASCII characters. *)
Definition ascii_text (s : string) : bool := string_forallb is_ascii s.

(** An ASCII program in mixed case. *)
Definition mixed_case_text : string :=
  ("#Order By Popularity" ++ newline ++ "#ALBUM Kid A" ++ newline ++
   "Karma Police")%string.

(** The playlist [p] with every entry text in lower case. *)
Definition lower_playlist (p : Playlist) : Playlist :=
  set_entries (map (with_entry toLowerCase) (Playlist_entries p)) p.

Definition nonblank (line : string) : bool := negb (is_empty line).

Definition carriage_return : ascii := ascii_of_nat 13.
Definition line_feed : ascii := ascii_of_nat 10.

(** A text of white space only. *)
Definition all_space (s : string) : bool := string_forallb is_space s.

(** The text with every pair CR LF replaced by LF. *)
Fixpoint crlf_to_lf (s : string) : string :=
  match s with
  | EmptyString => EmptyString
  | String c r =>
      match r with
      | String c' r' =>
          if (Ascii.eqb c carriage_return && Ascii.eqb c' line_feed)%bool
          then String line_feed (crlf_to_lf r')
          else String c (crlf_to_lf r)
      | EmptyString => String c EmptyString
      end
  end.

(** A text with CR LF line ends, the last line included. *)
Definition crlf_text : string :=
  ("foo" ++ String carriage_return (String line_feed
     ("bar" ++ String carriage_return (String line_feed ""))))%string.

(** The Track of the line [spotify:track:4uLU6hMCjMI75M1A2tKUQC]. *)
Definition idioteque : Track :=
  Track_new "spotify:track:4uLU6hMCjMI75M1A2tKUQC" None.

(** The same Track once [one_track] has answered. *)
Definition idioteque_fetched : Track :=
  promoted idioteque
    (full_track "4uLU6hMCjMI75M1A2tKUQC" "Idioteque" "Radiohead" "Kid A" 70).

(** The URL of [GET /tracks/<id>]. *)
Definition track_request (id : string) : string :=
  ("https://api.spotify.com/v1/tracks/" ++ encodeURIComponent id)%string.

(** The URLs of the album search and of [GET /albums/<id>]. *)
Definition album_search_request (query : string) : string :=
  ("https://api.spotify.com/v1/search?type=album&q=" ++
   encodeURIComponent query)%string.

Definition album_request (id : string) : string :=
  ("https://api.spotify.com/v1/albums/" ++ encodeURIComponent id)%string.

(** The world after the lines [lines] are printed and the requests
    [urls] are made. *)
Definition after_output (urls lines : list string) (w : World) : World :=
  {| next_ref := next_ref w;
     requests := requests w ++ urls;
     console := console w ++ lines |}.

(** The Tracks [createQueue] makes of the listing of an album, the first one
    with the reference [r]. *)
Fixpoint numbered (entry : string) (r : nat) (tracks : list TrackObject)
  : list item :=
  match tracks with
  | [] => []
  | track :: rest =>
      ITrack r (Track_new entry (Some track)) :: numbered entry (S r) rest
  end.

(** An album object with a usable [id]. *)
Definition has_id (album : AlbumObject) : bool := truthy_string (album_id album).

(** Every listing of the albums of an artist gives each album its [id]. *)
Definition lists_albums_with_ids (env : Environment) : Prop :=
  forall url response albums,
    request_artist_albums env url = Some response ->
    items response = Some albums ->
    forallb has_id albums = true.

(** The album [Kid A] with two of its tracks. *)
Definition kid_a : AlbumObject :=
  {| album_id := Some "6GjwtEZcfenmOf6l18N7T7";
     album_tracks :=
       Some [simple_track "4uLU6hMCjMI75M1A2tKUQC" "Idioteque" "Radiohead";
             simple_track "2nTsKOXIVGDf2iPeVQO2Gm" "Optimistic" "Radiohead"] |}.

(** A service that knows one artist and one album of theirs, [kid_a], and
    answers every request of either kind with them. *)
Definition one_album : Environment :=
  {| request_track := fun _ => None;
     request_track_search := fun _ => None;
     request_album := fun _ => Some kid_a;
     request_album_search := fun _ =>
       Some {| albums_items :=
                 Some [{| album_id := Some "6GjwtEZcfenmOf6l18N7T7";
                          album_tracks := None |}] |};
     request_artist_search := fun _ =>
       Some {| artists_items := Some [{| hit_id := Some "4Z8W4fKeB5YxbusRsdQVPb" |}] |};
     request_artist_albums := fun _ =>
       Some {| items := Some [{| album_id := Some "6GjwtEZcfenmOf6l18N7T7";
                                 album_tracks := None |}] |};
     getInfo := fun _ _ => None;
     array_property := es5_array_property |}.

(** What [fetchTracks] leaves in the queue: [undefined], or a Track that
    holds a response. *)
Definition fetched (e : item) : bool :=
  match e with
  | ITrack _ t =>
      (truthy_object (Track_response t) ||
       truthy_object (Track_responseSimple t))%bool
  | IUndefined => true
  | _ => false
  end.

(** The leaves of [e] are all [fetched]. *)
Definition yields_fetched (e : item) : Prop :=
  forallb fetched (flatten_item e) = true.

(** Synchronous code that throws nothing but a TypeError, and a promise
    that is rejected with nothing else. *)
Definition throws_only_TypeError {A : Type} (r : outcome A) : Prop :=
  forall err, r = Rejected err -> err = TypeError.

Definition rejects_only_with_TypeError {A : Type} (m : M A) : Prop :=
  forall w err w', m w = (Rejected err, w') -> err = TypeError.

(** A line that sets an option of the playlist, or a comment: the first
    seven patterns of the parser. *)
Definition is_option (line : string) : bool :=
  (ci_prefix "#ORDER BY POPULARITY" line ||
   matches_last_fm line ||
   ci_prefix "#GROUP BY ENTRY" line ||
   ci_prefix "#GROUP BY ARTIST" line ||
   ci_prefix "#GROUP BY ALBUM" line ||
   ci_prefix "#UNIQUE" line ||
   ci_prefix "##" line)%bool.

Definition is_entry (line : string) : bool := negb (is_option line).

(** The Track [t] with the Last.fm answer [info]. *)
Definition annotated (t : Track) (info : LastfmInfo) : Track :=
  {| Track_entry := Track_entry t;
     Track_responseSimple := Track_responseSimple t;
     Track_response := Track_response t;
     Track_lastfmResponse := Some info |}.

(** What [fetchLastfm] makes of an entry: a Track for which Last.fm answers
    holds the answer, every other entry is as it was. *)
Definition with_lastfm (env : Environment) (e : item) : item :=
  match e with
  | ITrack r t =>
      match getInfo env (Track_artist t) (Track_title t) with
      | Some info => ITrack r (annotated t info)
      | None => e
      end
  | _ => e
  end.

(** Two Tracks to be ordered by their Last.fm play counts. *)
Definition lastfm_playlist : Playlist :=
  {| Playlist_ordering := OrderLastfm;
     Playlist_grouping := GroupTrue;
     Playlist_unique := true;
     Playlist_entries := two_rated |}.

(* ================================================================== *)
(** * Track: equality, artists, construction *)
(* ================================================================== *)

Lemma Track_toString_cases (t : Track) :
  Track_toString t =
    if is_empty (Track_title t) then Track_entry t
    else if is_empty (Track_artist t) then Track_title t
    else (Track_title t ++ " - " ++ Track_artist t)%string.
Proof.
  unfold Track_toString, Track_name.
  destruct (Track_title t) as [|c s]; simpl; [reflexivity|].
  destruct (Track_artist t); reflexivity.
Qed.

Lemma Track_toString_unresolved (t : Track) :
  unresolved t -> Track_toString t = Track_entry t.
Proof.
  intros [Hfull Hsimple]. rewrite Track_toString_cases.
  unfold Track_title, Track_either. now rewrite Hfull, Hsimple.
Qed.

Lemma Track_equals_track (a b : Track) (r : nat) :
  Track_equals a (ITrack r b) = Resolved (String.eqb (folded a) (folded b)).
Proof. reflexivity. Qed.

(** C7. Two Tracks are equal exactly when their case-folded [toString()]
    agree; [toString()] is [Title - Artist], or the title alone when there is
    no artist, and the entry text when there is no title; so two Tracks
    without any response and with the same entry text are equal. *)
Theorem C7_track_equality :
  (forall (a b : Track) (r : nat),
      Track_equals a (ITrack r b) = Resolved true <->
      toLowerCase (Track_toString a) = toLowerCase (Track_toString b)) /\
  (forall (a b : Track) (r : nat),
      Track_equals a (ITrack r b) = Resolved false <->
      toLowerCase (Track_toString a) <> toLowerCase (Track_toString b)) /\
  (forall t : Track,
      Track_toString t =
        if is_empty (Track_title t) then Track_entry t
        else if is_empty (Track_artist t) then Track_title t
        else (Track_title t ++ " - " ++ Track_artist t)%string) /\
  (forall (a b : Track) (r : nat),
      unresolved a -> unresolved b -> Track_entry a = Track_entry b ->
      Track_equals a (ITrack r b) = Resolved true).
Proof.
  split; [|split; [|split]].
  - intros a b r. rewrite Track_equals_track. unfold folded. split.
    + intros H. injection H as H. now apply String.eqb_eq.
    + intros H. f_equal. now apply String.eqb_eq.
  - intros a b r. rewrite Track_equals_track. unfold folded. split.
    + intros H. injection H as H. now apply String.eqb_neq.
    + intros H. f_equal. now apply String.eqb_neq.
  - exact Track_toString_cases.
  - intros a b r Ha Hb Hab. rewrite Track_equals_track. unfold folded.
    rewrite (Track_toString_unresolved a Ha), (Track_toString_unresolved b Hb), Hab.
    now rewrite String.eqb_refl.
Qed.

Lemma C7_track_equality_witness :
  unresolved (query "Karma Police") /\
  Track_equals (query "Karma Police") (ITrack 1 (query "Karma Police")) =
    Resolved true.
Proof.
  split; [split; reflexivity|].
  exact (proj2 (proj2 (proj2 C7_track_equality))
           (query "Karma Police") (query "Karma Police") 1
           (conj eq_refl eq_refl) (conj eq_refl eq_refl) eq_refl).
Defined.

(** C9. On a Track that has no full response and whose simple response
    lists artists, [artists()] raises a TypeError instead of returning the
    joined names, while [artist()] and [title()] answer from the simple
    response. *)
Theorem C9_artists_of_simple_track
  (t : Track) (simple : TrackObject) (first : ArtistObject)
  (others : list ArtistObject)
  (Hfull : Track_response t = None)
  (Hsimple : Track_responseSimple t = Some simple)
  (Hartists : track_artists simple = Some (first :: others)) :
  Track_artists t = Rejected TypeError /\
  Track_artist t =
    (if truthy_string (artist_name first)
     then trim (string_or_undefined (artist_name first)) else "") /\
  Track_title t =
    (if truthy_string (track_name simple)
     then string_or_undefined (track_name simple) else "").
Proof.
  unfold Track_artists, Track_artist, Track_title, Track_either.
  rewrite Hfull, Hsimple, Hartists. auto.
Qed.

Lemma C9_artists_of_simple_track_witness :
  let simple := simple_track "4uLU6hMCjMI75M1A2tKUQC" "Idioteque" " Radiohead " in
  let t := Track_new "Kid A" (Some simple) in
  Track_artists t = Rejected TypeError /\
  Track_artist t = "Radiohead" /\
  Track_title t = "Idioteque".
Proof.
  exact (C9_artists_of_simple_track
           (Track_new "Kid A"
              (Some (simple_track "4uLU6hMCjMI75M1A2tKUQC" "Idioteque" " Radiohead ")))
           (simple_track "4uLU6hMCjMI75M1A2tKUQC" "Idioteque" " Radiohead ")
           {| artist_name := Some " Radiohead " |} []
           eq_refl eq_refl eq_refl).
Defined.

Lemma Track_dispatch_simple (env : Environment) (t : Track) (w : World) :
  Track_response t = None ->
  Track_responseSimple t <> None ->
  Track_dispatch env t w =
    (match request_track env (track_url t) with
     | Some body => Resolved (Some (promoted t body))
     | None => Rejected RequestError
     end, after_request (track_url t) w).
Proof.
  intros Hfull Hsimple. unfold Track_dispatch. rewrite Hfull. simpl.
  destruct (Track_responseSimple t); [simpl|congruence].
  unfold bind, Track_fetchTrack, bind, request. fold (track_url t).
  fold (after_request (track_url t) w).
  destruct (request_track env (track_url t)); reflexivity.
Qed.

(** C10. A response whose [popularity] is 0 or missing is stored as the
    simple response, whatever else it holds; [popularity()] is then -1, and
    the next dispatch of the Track requests [/v1/tracks/<id>] and, if the
    request succeeds, stores the body as the full response. *)
Theorem C10_falsy_popularity_is_simple
  (entry : string) (response : TrackObject)
  (Hpop : track_popularity response = None \/
          track_popularity response = Some 0%Z) :
  let t := Track_new entry (Some response) in
  Track_isFullResponse (Some response) = false /\
  Track_responseSimple t = Some response /\
  Track_response t = None /\
  Track_popularity t = Some (-1)%Z /\
  forall (env : Environment) (w : World),
    Track_dispatch env t w =
      (match request_track env (track_url t) with
       | Some body => Resolved (Some (promoted t body))
       | None => Rejected RequestError
       end, after_request (track_url t) w) /\
    requests (snd (Track_dispatch env t w)) = requests w ++ [track_url t].
Proof.
  assert (Hfalse : Track_isFullResponse (Some response) = false).
  { unfold Track_isFullResponse. destruct Hpop as [-> | ->]; reflexivity. }
  intros t. unfold t, Track_new. rewrite Hfalse. simpl.
  repeat split; try reflexivity.
  - apply Track_dispatch_simple; simpl; congruence.
  - rewrite Track_dispatch_simple by (simpl; congruence). reflexivity.
Qed.

Lemma C10_falsy_popularity_is_simple_witness :
  let response := full_track "4uLU6hMCjMI75M1A2tKUQC" "Idioteque" "Radiohead" "Kid A" 0 in
  let t := Track_new "Idioteque" (Some response) in
  Track_isFullResponse (Some response) = false /\
  Track_responseSimple t = Some response /\
  Track_response t = None /\
  Track_popularity t = Some (-1)%Z /\
  forall (env : Environment) (w : World),
    Track_dispatch env t w =
      (match request_track env (track_url t) with
       | Some body => Resolved (Some (promoted t body))
       | None => Rejected RequestError
       end, after_request (track_url t) w) /\
    requests (snd (Track_dispatch env t w)) = requests w ++ [track_url t].
Proof.
  exact (C10_falsy_popularity_is_simple "Idioteque"
           (full_track "4uLU6hMCjMI75M1A2tKUQC" "Idioteque" "Radiohead" "Kid A" 0)
           (or_intror eq_refl)).
Defined.

(* ================================================================== *)
(** * Parser *)
(* ================================================================== *)

Lemma recognised_false (line : string) :
  recognised line = false ->
  ci_prefix "#ORDER BY POPULARITY" line = false /\
  matches_last_fm line = false /\
  ci_prefix "#GROUP BY ENTRY" line = false /\
  ci_prefix "#GROUP BY ARTIST" line = false /\
  ci_prefix "#GROUP BY ALBUM" line = false /\
  ci_prefix "#UNIQUE" line = false /\
  ci_prefix "##" line = false /\
  ci_prefix "#ALBUM " line = false /\
  ci_prefix "#ARTIST " line = false.
Proof.
  unfold recognised. intros H.
  repeat (apply orb_false_iff in H; destruct H as [H ?]).
  repeat split; assumption.
Qed.

(** C3, as the program has it. A line that begins with [#] and matches none
    of the directive patterns changes no option of the playlist and is
    appended to the queue as a Track entry whose text is the trimmed
    line. *)
Theorem C3_unknown_directive_is_a_track
  (line : string) (p : Playlist) (w : World)
  (Hhash : begins_with_hash line = true)
  (Hunknown : recognised line = false) :
  Playlist_line line p w =
    (Resolved
       {| Playlist_ordering := Playlist_ordering p;
          Playlist_grouping := Playlist_grouping p;
          Playlist_unique := Playlist_unique p;
          Playlist_entries :=
            Playlist_entries p ++
            [ITrack (next_ref w)
               {| Track_entry := trim line;
                  Track_responseSimple := None;
                  Track_response := None;
                  Track_lastfmResponse := None |}] |},
     after_alloc w).
Proof.
  destruct (recognised_false line Hunknown)
    as (H1 & H2 & H3 & H4 & H5 & H6 & H7 & H8 & H9).
  unfold Playlist_line.
  rewrite H1, H2, H3, H4, H5, H6, H7, H8, H9.
  destruct line as [|c rest]; [discriminate|]. reflexivity.
Qed.

Lemma C3_unknown_directive_is_a_track_witness :
  begins_with_hash "#FOO" = true /\
  recognised "#FOO" = false /\
  Playlist_line "#FOO" empty_playlist empty_world =
    (Resolved
       {| Playlist_ordering := OrderNull;
          Playlist_grouping := GroupTrue;
          Playlist_unique := true;
          Playlist_entries :=
            [ITrack 0
               {| Track_entry := "#FOO";
                  Track_responseSimple := None;
                  Track_response := None;
                  Track_lastfmResponse := None |}] |},
     after_alloc empty_world).
Proof.
  split; [reflexivity|]. split; [reflexivity|].
  exact (C3_unknown_directive_is_a_track "#FOO" empty_playlist empty_world
           eq_refl eq_refl).
Defined.

(** C3, as the specification has it, fails: the line [#FOO] begins with [#],
    matches no directive, and yet a playlist that reads it gains an entry. *)
Lemma C3_counterexample :
  ~ (forall (line : string) (p : Playlist) (w : World),
        begins_with_hash line = true ->
        recognised line = false ->
        exists w', Playlist_line line p w = (Resolved p, w')).
Proof.
  intros H.
  destruct (H "#FOO" empty_playlist empty_world eq_refl eq_refl) as [w' Hw'].
  discriminate Hw'.
Qed.

(* ================================================================== *)
(** * The pipeline on two inputs *)
(* ================================================================== *)

(** [resolveAll] never rejects. *)
Lemma resolve_loop_resolves {A : Type} (fn : A -> M item) (queue : list A) :
  forall (result : list item) (w : World),
    exists l w', resolve_loop fn queue result w = (Resolved l, w').
Proof.
  induction queue as [|entry rest IH]; intros result w; simpl.
  - unfold ret. eauto.
  - destruct (fn entry w) as [[value|e] w1]; apply IH.
Qed.

Lemma Playlist_refreshTracks_resolves (env : Environment) (p : Playlist) (w : World) :
  exists q w',
    Playlist_refreshTracks env p w = (Resolved (set_entries q p), w').
Proof.
  unfold Playlist_refreshTracks, Queue_dispatch, Queue_resolveAll, bind.
  destruct (resolve_loop_resolves (item_dispatch env) (Playlist_entries p) [] w)
    as (l & w' & ->).
  unfold ret. eauto.
Qed.

(** With the grouping ['album'] the group stage is rejected with a
    TypeError, whatever the queue and the responses. *)
Lemma Playlist_group_album_rejects (env : Environment) (p : Playlist) (w : World) :
  Playlist_grouping p = GroupAlbum ->
  exists w', Playlist_group env p w = (Rejected TypeError, w').
Proof.
  intros Hg. unfold Playlist_group. rewrite Hg. unfold bind.
  destruct (Playlist_refreshTracks_resolves env p w) as (q & w' & ->).
  simpl. eauto.
Qed.

(** A query the search has no usable hit for is dispatched to
    [undefined]. *)
Lemma item_dispatch_no_hit (env : Environment) (r : nat) (line : string)
  (result : TrackSearch) (w : World) :
  let url := ("https://api.spotify.com/v1/search?type=track&q=" ++
              encodeURIComponent (trim line))%string in
  Track_isURI (trim line) = false ->
  Track_isLink (trim line) = false ->
  request_track_search env url = Some result ->
  match tracks_items result with
  | Some (first :: _) => truthy_string (track_uri first) = false
  | _ => True
  end ->
  item_dispatch env (ITrack r (Track_new line None)) w =
    (Resolved IUndefined, after_request url w).
Proof.
  intros url Huri Hlink Hresult Hhit.
  unfold item_dispatch, bind, Track_dispatch, Track_new. simpl.
  rewrite Huri, Hlink.
  unfold Track_searchForTrack, bind, request.
  fold url. rewrite Hresult. fold (after_request url w).
  destruct (tracks_items result) as [[|first rest]|]; try reflexivity.
  now rewrite Hhit.
Qed.

(** The renderer throws on a queue that begins with [undefined]. *)
Lemma Playlist_toString_undefined (p : Playlist) (rest : list item) (w : World) :
  Playlist_entries p = IUndefined :: rest ->
  Playlist_toString p w = (Rejected TypeError, w).
Proof. intros Hp. unfold Playlist_toString. now rewrite Hp. Qed.

(** C1, on the program. The input of one line [nonexistent-xyz], run against
    a service whose search finds nothing: the search is issued, and the
    promise of [dispatch] is rejected with a TypeError instead of resolving
    with the empty string. *)
Theorem C1_unresolved_track_rejects :
  run no_hits ("nonexistent-xyz" ++ newline)%string empty_world =
    (Rejected TypeError,
     {| next_ref := 1;
        requests :=
          ["https://api.spotify.com/v1/search?type=track&q=nonexistent-xyz"];
        console :=
          ["https://api.spotify.com/v1/search?type=track&q=nonexistent-xyz"] |}).
Proof. vm_compute. reflexivity. Qed.

(** C2, on the program. The input [#GROUP BY ALBUM] followed by a track URI,
    run against a service that knows the track: the track is fetched, and
    the promise of [dispatch] is rejected with a TypeError when the group
    stage calls [groupByAlbum]; no queue grouped by album reaches the
    renderer. *)
Theorem C2_album_grouping_rejects :
  run one_track
    ("#GROUP BY ALBUM" ++ newline ++ "spotify:track:4uLU6hMCjMI75M1A2tKUQC")%string
    empty_world =
    (Rejected TypeError,
     {| next_ref := 1;
        requests :=
          ["https://api.spotify.com/v1/tracks/4uLU6hMCjMI75M1A2tKUQC"];
        console :=
          ["https://api.spotify.com/v1/tracks/4uLU6hMCjMI75M1A2tKUQC"] |}).
Proof. vm_compute. reflexivity. Qed.

(* ================================================================== *)
(** * Queue.dedup *)
(* ================================================================== *)

Section Greedy.

Variable eqv : item -> item -> bool.

Lemma matched_app (a b : list item) (x : item) :
  matched eqv (a ++ b) x = (matched eqv a x || matched eqv b x)%bool.
Proof. unfold matched. apply existsb_app. Qed.

Lemma chain_snoc (l : list item) :
  forall (acc : list item) (x : item),
    chain eqv acc l -> matched eqv (acc ++ l) x = false -> chain eqv acc (l ++ [x]).
Proof.
  induction l as [|y l IH]; intros acc x Hc Hm; simpl in *.
  - rewrite app_nil_r in Hm. auto.
  - destruct Hc as [Hy Hc]. split; [assumption|].
    apply IH; [assumption|]. now rewrite <- app_assoc.
Qed.

Lemma kept_chain (l : list item) :
  forall acc, chain eqv acc l -> kept eqv l acc = acc ++ l.
Proof.
  induction l as [|x l IH]; intros acc Hc; simpl in *.
  - now rewrite app_nil_r.
  - destruct Hc as [Hx Hc]. rewrite Hx, (IH _ Hc). now rewrite <- app_assoc.
Qed.

Lemma kept_is_chain (queue : list item) :
  forall acc, chain eqv [] acc -> chain eqv [] (kept eqv queue acc).
Proof.
  induction queue as [|x rest IH]; intros acc Hc; simpl; [assumption|].
  apply IH. destruct (matched eqv acc x) eqn:Hm; [assumption|].
  now apply chain_snoc.
Qed.

Lemma kept_idempotent (queue : list item) :
  kept eqv (kept eqv queue []) [] = kept eqv queue [].
Proof. apply (kept_chain _ []), kept_is_chain. exact I. Qed.

Lemma chain_pairs (l : list item) :
  forall acc,
    chain eqv acc l ->
    Forall (fun x => matched eqv acc x = false) l /\
    ForallOrdPairs (fun y x => eqv y x = false) l.
Proof.
  induction l as [|x l IH]; intros acc Hc; simpl in *.
  - split; constructor.
  - destruct Hc as [Hx Hc]. destruct (IH _ Hc) as [Hall Hpairs].
    split; constructor; try assumption.
    + eapply Forall_impl; [|exact Hall]. intros z Hz. cbv beta in Hz.
      rewrite matched_app in Hz. now apply orb_false_iff in Hz.
    + eapply Forall_impl; [|exact Hall]. intros z Hz. cbv beta in Hz.
      rewrite matched_app in Hz. apply orb_false_iff in Hz.
      destruct Hz as [_ Hz]. unfold matched in Hz. simpl in Hz.
      now apply orb_false_iff in Hz.
Qed.

Lemma kept_extends (queue : list item) :
  forall acc x, In x acc -> In x (kept eqv queue acc).
Proof.
  induction queue as [|y rest IH]; intros acc x Hx; simpl; [assumption|].
  apply IH. destruct (matched eqv acc y); [assumption|].
  apply in_or_app. now left.
Qed.

Lemma kept_represents (queue : list item) :
  (forall x, eqv x x = true) ->
  forall acc x, In x queue ->
    exists y, In y (kept eqv queue acc) /\ eqv y x = true.
Proof.
  intros Hrefl. induction queue as [|z rest IH]; intros acc x Hx; [easy|].
  simpl. destruct Hx as [-> | Hx]; [|now apply IH].
  destruct (matched eqv acc x) eqn:Hm.
  - apply existsb_exists in Hm. destruct Hm as (y & Hy & Hyx).
    exists y. split; [now apply kept_extends | assumption].
  - exists x. split; [|apply Hrefl].
    apply kept_extends, in_or_app. right. now left.
Qed.

End Greedy.

Lemma kept_subsequence (eqv : item -> item -> bool) (queue : list item) :
  forall acc,
    exists tail, kept eqv queue acc = acc ++ tail /\ subsequence tail queue.
Proof.
  induction queue as [|x rest IH]; intros acc; simpl.
  - exists []. split; [now rewrite app_nil_r | constructor].
  - destruct (matched eqv acc x).
    + destruct (IH acc) as (tail & -> & Hsub).
      exists tail. split; [reflexivity | now constructor].
    + destruct (IH (acc ++ [x])) as (tail & -> & Hsub).
      exists (x :: tail). split; [now rewrite <- app_assoc | now constructor].
Qed.

Lemma kept_ext (eqv1 eqv2 : item -> item -> bool) (universe queue : list item) :
  (forall x y, In x universe -> In y universe -> eqv1 x y = eqv2 x y) ->
  forall acc,
    incl queue universe -> incl acc universe ->
    kept eqv1 queue acc = kept eqv2 queue acc.
Proof.
  intros Hext. induction queue as [|x rest IH]; intros acc Hq Hacc; simpl;
    [reflexivity|].
  assert (Hx : In x universe) by (apply Hq; now left).
  assert (Hm : matched eqv1 acc x = matched eqv2 acc x).
  { unfold matched. clear IH. induction acc as [|y acc IHacc]; [reflexivity|].
    simpl. rewrite Hext, IHacc; auto.
    - intros z Hz. apply Hacc. now right.
    - apply Hacc. now left. }
  rewrite Hm. apply IH.
  - intros z Hz. apply Hq. now right.
  - destruct (matched eqv2 acc x); [assumption|].
    intros z Hz. apply in_app_or in Hz. destruct Hz as [Hz | [<- | []]]; auto.
Qed.

Lemma entry_matches_objects (x y : item) :
  is_object x = true -> is_object y = true ->
  entry_matches x y = Resolved (matches x y).
Proof.
  unfold matches.
  destruct x as [r a| | | |]; try discriminate; intros _ Hy; simpl;
    try now rewrite orb_false_r.
  unfold Track_equals. destruct y; try discriminate; simpl;
    now rewrite orb_comm.
Qed.

Lemma Queue_contains_objects (acc : list item) (x : item) :
  forallb is_object acc = true -> is_object x = true ->
  Queue_contains acc x = Resolved (matched matches acc x).
Proof.
  intros Hacc Hx. induction acc as [|y acc IH]; [reflexivity|].
  simpl in Hacc. apply andb_true_iff in Hacc. destruct Hacc as [Hy Hacc].
  simpl. rewrite (entry_matches_objects y x Hy Hx). simpl.
  destruct (matches y x); [reflexivity|]. now apply IH.
Qed.

Lemma dedup_loop_objects (queue : list item) :
  forall acc,
    forallb is_object queue = true -> forallb is_object acc = true ->
    dedup_loop queue acc = Resolved (kept matches queue acc).
Proof.
  induction queue as [|x rest IH]; intros acc Hq Hacc; [reflexivity|].
  simpl in Hq. apply andb_true_iff in Hq. destruct Hq as [Hx Hq].
  simpl. rewrite (Queue_contains_objects acc x Hacc Hx). simpl.
  apply IH; [assumption|].
  destruct (matched matches acc x); [assumption|].
  unfold Queue_add. rewrite forallb_app, Hacc. simpl. now rewrite Hx.
Qed.

Lemma kept_objects (eqv : item -> item -> bool) (queue : list item) :
  forall acc,
    forallb is_object queue = true -> forallb is_object acc = true ->
    forallb is_object (kept eqv queue acc) = true.
Proof.
  induction queue as [|x rest IH]; intros acc Hq Hacc; [assumption|].
  simpl in Hq. apply andb_true_iff in Hq. destruct Hq as [Hx Hq].
  simpl. apply IH; [assumption|].
  destruct (matched eqv acc x); [assumption|].
  rewrite forallb_app, Hacc. simpl. now rewrite Hx.
Qed.

Lemma matches_refl (x : item) : matches x x = true.
Proof.
  unfold matches. destruct x; simpl; rewrite ?Nat.eqb_refl; reflexivity.
Qed.

(** Between two Tracks the test of [contains] is the equivalence of the
    specification. *)
Lemma matches_tracks (x y : item) :
  is_track x = true -> is_track y = true -> matches x y = same_class x y.
Proof.
  destruct x, y; try discriminate. reflexivity.
Qed.

(** Among Tracks whose references are consistent, two items are of the same
    class exactly when their case-folded [toString()] agree. *)
Lemma same_class_key (universe : list item) (x y : item) :
  consistent_refs universe ->
  In x universe -> In y universe ->
  is_track x = true -> is_track y = true ->
  same_class x y = String.eqb (class_key x) (class_key y).
Proof.
  intros Hrefs Hx Hy Tx Ty. unfold same_class.
  destruct (strict_eqb x y) eqn:Heq.
  - rewrite (Hrefs x y Hx Hy Heq). now rewrite String.eqb_refl.
  - destruct x, y; try discriminate. reflexivity.
Qed.

Lemma same_class_trans (universe : list item) (x y z : item) :
  consistent_refs universe ->
  forallb is_track universe = true ->
  In x universe -> In y universe -> In z universe ->
  same_class x y = true -> same_class y z = true -> same_class x z = true.
Proof.
  intros Hrefs Htracks Hx Hy Hz.
  rewrite forallb_forall in Htracks.
  rewrite (same_class_key universe x y), (same_class_key universe y z),
    (same_class_key universe x z) by auto.
  rewrite !String.eqb_eq. congruence.
Qed.

(** With a transitive matching test, an item is matched by a kept item
    exactly when it is matched by an earlier item of the queue. *)
Lemma kept_first_occurrences (universe : list item) :
  consistent_refs universe ->
  forallb is_track universe = true ->
  forall queue acc seen,
    incl queue universe -> incl acc universe ->
    (forall z, In z universe ->
       matched same_class acc z = matched same_class seen z) ->
    kept same_class queue acc = acc ++ first_occurrences seen queue.
Proof.
  intros Hrefs Htracks.
  induction queue as [|x rest IH]; intros acc seen Hq Hacc Hinv; simpl.
  - now rewrite app_nil_r.
  - assert (Hx : In x universe) by (apply Hq; now left).
    assert (Hrest : incl rest universe)
      by (intros z Hz; apply Hq; now right).
    fold (matched same_class seen x). rewrite <- (Hinv x Hx).
    destruct (matched same_class acc x) eqn:Hm.
    + apply IH; try assumption.
      intros z Hz. rewrite matched_app, <- (Hinv z Hz).
      unfold matched at 3. simpl. rewrite orb_false_r.
      destruct (same_class x z) eqn:Hxz; [|now rewrite orb_false_r].
      rewrite orb_true_r.
      unfold matched in Hm. apply existsb_exists in Hm.
      destruct Hm as (y & Hy & Hyx).
      unfold matched. apply existsb_exists. exists y. split; [assumption|].
      apply (same_class_trans universe y x z); auto.
    + rewrite (IH (acc ++ [x]) (seen ++ [x])); try assumption.
      * now rewrite <- app_assoc.
      * intros z Hz. apply in_app_or in Hz. destruct Hz as [Hz | [<- | []]]; auto.
      * intros z Hz. now rewrite !matched_app, (Hinv z Hz).
Qed.

(** C4, as the program has it. On a queue of objects, [dedup] keeps an item
    exactly when no item kept before it matches it, an item matching a later
    one when they are the same object or when it is a Track and the
    case-folded [toString()] of both agree.  The result is the queue with
    items left out, every item of the queue is matched by an item of the
    result, no item of the result matches a later one, and [dedup] of the
    result is the result.  On a queue of Tracks the result is the first
    occurrence of each class, two Tracks being of one class when they are
    the same object or their case-folded [toString()] agree. *)
Theorem C4_dedup_first_matches
  (queue : list item)
  (Hobjects : forallb is_object queue = true) :
  exists result,
    Queue_dedup queue = Resolved result /\
    Queue_dedup result = Resolved result /\
    subsequence result queue /\
    result = kept matches queue [] /\
    (forall x, In x queue -> exists y, In y result /\ matches y x = true) /\
    ForallOrdPairs (fun y x => matches y x = false) result /\
    (forallb is_track queue = true -> consistent_refs queue ->
     result = first_occurrences [] queue).
Proof.
  exists (kept matches queue []).
  assert (Hdedup : Queue_dedup queue = Resolved (kept matches queue []))
    by (now apply dedup_loop_objects).
  split; [exact Hdedup|]. split; [|split; [|split; [|split; [|split]]]].
  - unfold Queue_dedup. rewrite dedup_loop_objects.
    + now rewrite kept_idempotent.
    + now apply kept_objects.
    + reflexivity.
  - destruct (kept_subsequence matches queue []) as (tail & -> & Hsub).
    exact Hsub.
  - reflexivity.
  - intros x Hx. apply kept_represents; [exact matches_refl | assumption].
  - apply (chain_pairs matches _ []), kept_is_chain. exact I.
  - intros Htracks Hrefs.
    rewrite (kept_ext matches same_class queue queue).
    + apply (kept_first_occurrences queue Hrefs Htracks queue [] []);
        auto using incl_refl, incl_nil_l.
    + rewrite forallb_forall in Htracks. intros x y Hx Hy.
      apply matches_tracks; auto.
    + apply incl_refl.
    + apply incl_nil_l.
Qed.

Lemma sample_queue_consistent : consistent_refs sample_queue.
Proof.
  intros x y Hx Hy H. unfold sample_queue in Hx, Hy. simpl in Hx, Hy.
  repeat (destruct Hx as [<- | Hx]; [|]); try contradiction;
    repeat (destruct Hy as [<- | Hy]; [|]); try contradiction;
    try reflexivity; discriminate H.
Defined.

Lemma C4_dedup_first_matches_witness :
  forallb is_object sample_queue = true /\
  exists result,
    Queue_dedup sample_queue = Resolved result /\
    Queue_dedup result = Resolved result /\
    subsequence result sample_queue /\
    result = kept matches sample_queue [] /\
    (forall x, In x sample_queue ->
       exists y, In y result /\ matches y x = true) /\
    ForallOrdPairs (fun y x => matches y x = false) result /\
    (forallb is_track sample_queue = true -> consistent_refs sample_queue ->
     result = first_occurrences [] sample_queue).
Proof.
  split; [reflexivity|].
  exact (C4_dedup_first_matches sample_queue eq_refl).
Defined.

Example dedup_sample_queue :
  Queue_dedup sample_queue =
    Resolved [ITrack 0 (query "foo"); ITrack 2 (query "bar")] /\
  first_occurrences [] sample_queue =
    [ITrack 0 (query "foo"); ITrack 2 (query "bar")].
Proof. split; reflexivity. Qed.

Lemma mixed_queue_consistent : consistent_refs mixed_queue.
Proof.
  intros x y Hx Hy H. unfold mixed_queue in Hx, Hy. simpl in Hx, Hy.
  repeat (destruct Hx as [<- | Hx]; [|]); try contradiction;
    repeat (destruct Hy as [<- | Hy]; [|]); try contradiction;
    try reflexivity; discriminate H.
Qed.

Example dedup_mixed_queue :
  Queue_dedup mixed_queue = Resolved [ITrack 0 (query "[object Object]")] /\
  first_occurrences [] mixed_queue = mixed_queue.
Proof. split; reflexivity. Qed.

(** C4, as the specification has it, fails: a Track whose text is
    [[object Object]] and an Album are neither the same object nor two
    Tracks, and yet [dedup] keeps the Track only. *)
Lemma C4_counterexample :
  ~ (forall queue : list item,
        forallb is_object queue = true ->
        consistent_refs queue ->
        Queue_dedup queue = Resolved (first_occurrences [] queue)).
Proof.
  intros H.
  specialize (H mixed_queue eq_refl mixed_queue_consistent).
  vm_compute in H. discriminate H.
Qed.

(** On a queue that holds [undefined] next to something else, [dedup]
    throws. *)
Example dedup_undefined :
  Queue_dedup [IUndefined; ITrack 0 (query "foo")] = Rejected TypeError /\
  Queue_dedup [ITrack 0 (query "foo"); IUndefined] = Rejected TypeError /\
  Queue_dedup [IUndefined] = Resolved [IUndefined].
Proof. repeat split. Qed.

(* ================================================================== *)
(** * Queue.group *)
(* ================================================================== *)

Lemma append_new_in (k x : string) (l : list string) :
  In x (append_new k l) <-> x = k \/ In x l.
Proof.
  induction l as [|k' rest IH]; simpl.
  - intuition.
  - destruct (String.eqb k k') eqn:E.
    + apply String.eqb_eq in E. subst. simpl. intuition.
    + simpl. rewrite IH. intuition.
Qed.

Lemma append_new_nodup (k : string) (l : list string) :
  NoDup l -> NoDup (append_new k l).
Proof.
  induction l as [|k' rest IH]; intros Hl; simpl.
  - constructor; [easy | constructor].
  - destruct (String.eqb k k') eqn:E; [assumption|].
    inversion Hl as [|? ? Hnot Hrest]; subst.
    constructor; [|now apply IH].
    rewrite append_new_in. intros [-> | H]; [|contradiction].
    now rewrite String.eqb_refl in E.
Qed.

Lemma insert_new_in (n x : N) (l : list N) :
  In x (insert_new n l) <-> x = n \/ In x l.
Proof.
  induction l as [|m rest IH]; simpl.
  - intuition.
  - destruct (N.eqb n m) eqn:E.
    + apply N.eqb_eq in E. subst. simpl. intuition.
    + destruct (N.ltb n m); simpl; [intuition|]. rewrite IH. intuition.
Qed.

Lemma insert_new_sorted (n : N) (l : list N) :
  StronglySorted N.lt l -> StronglySorted N.lt (insert_new n l).
Proof.
  induction l as [|m rest IH]; intros Hl; simpl.
  - repeat constructor.
  - inversion Hl as [|? ? Hrest Hall]; subst.
    destruct (N.eqb n m) eqn:E; [assumption|].
    apply N.eqb_neq in E.
    destruct (N.ltb n m) eqn:L.
    + apply N.ltb_lt in L. constructor; [assumption|].
      constructor; [assumption|].
      eapply Forall_impl; [|exact Hall]. intros x Hx. cbv beta in Hx. lia.
    + apply N.ltb_ge in L. constructor; [now apply IH|].
      apply Forall_forall. intros x Hx. apply insert_new_in in Hx.
      destruct Hx as [-> | Hx]; [lia|].
      rewrite Forall_forall in Hall. now apply Hall.
Qed.

Lemma names_seen_snoc (ks : list string) (k : string) :
  names_seen (ks ++ [k]) =
    if is_index k then names_seen ks else append_new k (names_seen ks).
Proof.
  unfold names_seen. rewrite filter_app. simpl.
  destruct (is_index k); simpl.
  - now rewrite app_nil_r.
  - now rewrite fold_left_app.
Qed.

Lemma indices_seen_snoc (ks : list string) (k : string) :
  indices_seen (ks ++ [k]) =
    match array_index k with
    | Some n => insert_new n (indices_seen ks)
    | None => indices_seen ks
    end.
Proof. unfold indices_seen. now rewrite fold_left_app. Qed.

Lemma names_seen_in (ks : list string) (x : string) :
  In x (names_seen ks) <-> In x ks /\ is_index x = false.
Proof.
  induction ks as [|k ks IH] using rev_ind.
  - simpl. intuition.
  - rewrite names_seen_snoc, in_app_iff. simpl.
    destruct (is_index k) eqn:E.
    + rewrite IH. intuition. subst. congruence.
    + rewrite append_new_in, IH. intuition. subst. auto.
Qed.

Lemma names_seen_nodup (ks : list string) : NoDup (names_seen ks).
Proof.
  induction ks as [|k ks IH] using rev_ind.
  - constructor.
  - rewrite names_seen_snoc. destruct (is_index k); [assumption|].
    now apply append_new_nodup.
Qed.

Lemma indices_seen_in (ks : list string) (x : N) :
  In x (indices_seen ks) <-> exists k, In k ks /\ array_index k = Some x.
Proof.
  induction ks as [|k ks IH] using rev_ind.
  - simpl. split; [easy | intros (k & [] & _)].
  - rewrite indices_seen_snoc. destruct (array_index k) as [n|] eqn:E.
    + rewrite insert_new_in, IH. split.
      * intros [-> | (k' & Hk' & E')].
        -- exists k. split; [apply in_or_app; right; now left | assumption].
        -- exists k'. split; [apply in_or_app; now left | assumption].
      * intros (k' & Hk' & E'). apply in_app_or in Hk'.
        destruct Hk' as [Hk' | [<- | []]]; [right; eauto | left; congruence].
    + rewrite IH. split.
      * intros (k' & Hk' & E'). exists k'.
        split; [apply in_or_app; now left | assumption].
      * intros (k' & Hk' & E'). apply in_app_or in Hk'.
        destruct Hk' as [Hk' | [<- | []]]; [eauto | congruence].
Qed.

Lemma indices_seen_sorted (ks : list string) :
  StronglySorted N.lt (indices_seen ks).
Proof.
  induction ks as [|k ks IH] using rev_ind.
  - constructor.
  - rewrite indices_seen_snoc. destruct (array_index k); [|assumption].
    now apply insert_new_sorted.
Qed.

Lemma filter_append_new (k k0 : string) (l : list string) :
  filter (fun k' => negb (String.eqb k' k0)) (append_new k l) =
    if String.eqb k k0
    then filter (fun k' => negb (String.eqb k' k0)) l
    else append_new k (filter (fun k' => negb (String.eqb k' k0)) l).
Proof.
  induction l as [|k' rest IH]; simpl.
  - destruct (String.eqb k k0); reflexivity.
  - destruct (String.eqb k k') eqn:E.
    + apply String.eqb_eq in E. subst k'.
      destruct (String.eqb k k0) eqn:E0; simpl; rewrite E0; simpl;
        [reflexivity|]. now rewrite String.eqb_refl.
    + simpl. rewrite IH.
      destruct (String.eqb k' k0) eqn:E1; simpl.
      * destruct (String.eqb k k0); reflexivity.
      * destruct (String.eqb k k0); [reflexivity|]. now rewrite E.
Qed.

Lemma distinct_snoc (ks : list string) (k : string) :
  distinct (ks ++ [k]) = append_new k (distinct ks).
Proof.
  induction ks as [|k0 ks IH]; simpl; [reflexivity|].
  rewrite IH, filter_append_new.
  destruct (String.eqb k k0); reflexivity.
Qed.

(** The names of the table are the keys in the order of their first
    appearance. *)
Lemma names_seen_distinct (ks : list string) :
  names_seen ks = distinct (filter (fun k => negb (is_index k)) ks).
Proof.
  unfold names_seen.
  induction (filter (fun k => negb (is_index k)) ks) as [|k l IH] using rev_ind.
  - reflexivity.
  - now rewrite fold_left_app, distinct_snoc, <- IH.
Qed.

Lemma add_named_spec (k : string) (e : item) (G : string -> list item)
  (l : list string) :
  NoDup l ->
  (~ In k l -> G k = []) ->
  add_named k e (map (fun k' => (k', G k')) l) =
    map (fun k' => (k', G k' ++ if String.eqb k k' then [e] else []))
      (append_new k l).
Proof.
  induction l as [|k' rest IH]; intros Hl Hk; simpl.
  - rewrite String.eqb_refl, Hk by easy. reflexivity.
  - inversion Hl as [|? ? Hnot Hrest]; subst.
    destruct (String.eqb k k') eqn:E.
    + apply String.eqb_eq in E. subst k'. simpl. rewrite String.eqb_refl.
      f_equal. apply map_ext_in. intros k'' Hin.
      destruct (String.eqb k k'') eqn:E2.
      * apply String.eqb_eq in E2. subst. contradiction.
      * now rewrite app_nil_r.
    + simpl. rewrite E, app_nil_r. f_equal. apply IH; [assumption|].
      intros Hn. apply Hk. intros [-> | H]; [|contradiction].
      now rewrite String.eqb_refl in E.
Qed.

Lemma add_indexed_spec (n : N) (e : item) (G : N -> list item) (l : list N) :
  StronglySorted N.lt l ->
  (~ In n l -> G n = []) ->
  add_indexed n e (map (fun m => (m, G m)) l) =
    map (fun m => (m, G m ++ if N.eqb n m then [e] else []))
      (insert_new n l).
Proof.
  induction l as [|m rest IH]; intros Hl Hn; simpl.
  - rewrite N.eqb_refl, Hn by easy. reflexivity.
  - inversion Hl as [|? ? Hrest Hall]; subst.
    rewrite Forall_forall in Hall.
    destruct (N.eqb n m) eqn:E.
    + apply N.eqb_eq in E. subst m. simpl. rewrite N.eqb_refl.
      f_equal. apply map_ext_in. intros m' Hin.
      destruct (N.eqb n m') eqn:E2.
      * apply N.eqb_eq in E2. subst. specialize (Hall _ Hin). lia.
      * now rewrite app_nil_r.
    + apply N.eqb_neq in E. destruct (N.ltb n m) eqn:L.
      * apply N.ltb_lt in L. simpl. rewrite N.eqb_refl.
        rewrite Hn.
        -- destruct (N.eqb n m) eqn:E3; [apply N.eqb_eq in E3; lia|].
           rewrite app_nil_r. simpl. do 2 f_equal.
           apply map_ext_in. intros m' Hin.
           destruct (N.eqb n m') eqn:E2.
           ++ apply N.eqb_eq in E2. subst. specialize (Hall _ Hin). lia.
           ++ now rewrite app_nil_r.
        -- intros [-> | Hin]; [lia|]. specialize (Hall _ Hin). lia.
      * simpl. destruct (N.eqb n m) eqn:E3; [apply N.eqb_eq in E3; lia|].
        rewrite app_nil_r. f_equal. apply IH; [assumption|].
        intros Hnot. apply Hn. intros [-> | H]; [lia | contradiction].
Qed.

Lemma flat_map_groups {K : Type} (G : K -> list item) (l : list K) :
  flat_map snd (map (fun k => (k, G k)) l) = flat_map G l.
Proof.
  induction l as [|k l IH]; simpl; [reflexivity|]. now rewrite IH.
Qed.

Section Grouping.

Variable env : Environment.
Variable fn : item -> outcome string.
Variable key : item -> string.

Lemma is_index_array_index (k : string) :
  is_index k = false <-> array_index k = None.
Proof. unfold is_index. destruct (array_index k); split; congruence. Qed.

Lemma group_of_snoc (p : list item) (e : item) (k : string) :
  group_of key (p ++ [e]) k =
    group_of key p k ++ if String.eqb (key e) k then [e] else [].
Proof.
  unfold group_of. rewrite filter_app. simpl.
  destruct (String.eqb (key e) k); reflexivity.
Qed.

Lemma index_group_snoc (p : list item) (e : item) (n : N) :
  index_group key (p ++ [e]) n =
    index_group key p n ++
    match array_index (key e) with
    | Some m => if N.eqb m n then [e] else []
    | None => []
    end.
Proof.
  unfold index_group. rewrite filter_app. simpl.
  destruct (array_index (key e)) as [m|]; [|reflexivity].
  destruct (N.eqb m n); reflexivity.
Qed.

Lemma group_of_absent (p : list item) (k : string) :
  ~ In k (map key p) -> group_of key p k = [].
Proof.
  intros Hk. unfold group_of. induction p as [|e p IH]; [reflexivity|].
  simpl. destruct (String.eqb (key e) k) eqn:E.
  - apply String.eqb_eq in E. exfalso. apply Hk. simpl. now left.
  - apply IH. intros H. apply Hk. simpl. now right.
Qed.

Lemma index_group_absent (p : list item) (n : N) :
  (forall e, In e p -> array_index (key e) <> Some n) ->
  index_group key p n = [].
Proof.
  intros Hn. unfold index_group. induction p as [|e p IH]; [reflexivity|].
  simpl. destruct (array_index (key e)) as [m|] eqn:E.
  - destruct (N.eqb m n) eqn:E2.
    + apply N.eqb_eq in E2. subst. exfalso. apply (Hn e); [now left | assumption].
    + apply IH. intros e' He'. apply Hn. now right.
  - apply IH. intros e' He'. apply Hn. now right.
Qed.

(** One turn of the loop of [group] takes the table of [p] to the table of
    [p] followed by the entry. *)
Lemma table_push_spec (p : list item) (e : item) :
  array_property env (key e) = false ->
  table_push env (key e) e (table_of key p) =
    Resolved (table_of key (p ++ [e])).
Proof.
  intros Hfree. unfold table_push. rewrite Hfree.
  unfold table_of. rewrite !map_app. simpl map.
  rewrite names_seen_snoc, indices_seen_snoc.
  destruct (array_index (key e)) as [n|] eqn:E; simpl; f_equal; f_equal.
  - rewrite add_indexed_spec.
    + apply map_ext. intros m. now rewrite index_group_snoc, E.
    + apply indices_seen_sorted.
    + intros Hn. apply index_group_absent. intros e' He' E'. apply Hn.
      apply indices_seen_in. exists (key e'). split; [|assumption].
      now apply in_map.
  - unfold is_index. rewrite E. apply map_ext_in. intros k Hk.
    rewrite group_of_snoc.
    destruct (String.eqb (key e) k) eqn:E2; [|now rewrite app_nil_r].
    apply String.eqb_eq in E2. apply names_seen_in in Hk.
    destruct Hk as [_ Hk]. apply is_index_array_index in Hk. congruence.
  - apply map_ext. intros m. now rewrite index_group_snoc, E, app_nil_r.
  - unfold is_index. rewrite E. rewrite add_named_spec.
    + apply map_ext. intros k. now rewrite group_of_snoc.
    + apply names_seen_nodup.
    + intros Hn. apply group_of_absent. intros Hin. apply Hn.
      apply names_seen_in. split; [assumption|].
      unfold is_index. now rewrite E.
Qed.

Lemma group_loop_spec (l : list item) :
  forall p,
    (forall e, In e l -> fn e = Resolved (key e)) ->
    (forall e, In e l -> array_property env (key e) = false) ->
    group_loop env fn l (table_of key p) = Resolved (table_of key (p ++ l)).
Proof.
  induction l as [|e l IH]; intros p Hkeys Hfree; simpl.
  - now rewrite app_nil_r.
  - rewrite (Hkeys e) by now left. simpl.
    rewrite table_push_spec by (apply Hfree; now left). simpl.
    rewrite IH.
    + now rewrite <- app_assoc.
    + intros e' He'. apply Hkeys. now right.
    + intros e' He'. apply Hfree. now right.
Qed.

Lemma Queue_group_spec (queue : list item) :
  (forall e, In e queue -> fn e = Resolved (key e)) ->
  (forall e, In e queue -> array_property env (key e) = false) ->
  Queue_group env fn queue =
    Resolved
      (flat_map (index_group key queue) (indices_seen (map key queue)) ++
       flat_map (group_of key queue)
         (distinct (filter (fun k => negb (is_index k)) (map key queue)))).
Proof.
  intros Hkeys Hfree. unfold Queue_group.
  change {| indexed := []; named := [] |} with (table_of key []).
  rewrite group_loop_spec by assumption. simpl.
  unfold table_concat, table_of. simpl.
  now rewrite !flat_map_groups, names_seen_distinct.
Qed.

End Grouping.

Lemma add_named_permutation (k : string) (e : item)
  (l : list (string * list item)) :
  Permutation (flat_map snd (add_named k e l)) (e :: flat_map snd l).
Proof.
  induction l as [|[k' g] rest IH]; simpl; [reflexivity|].
  destruct (String.eqb k k'); simpl.
  - rewrite <- app_assoc. simpl.
    symmetry. apply Permutation_middle.
  - rewrite IH. symmetry. apply Permutation_middle.
Qed.

Lemma add_indexed_permutation (n : N) (e : item) (l : list (N * list item)) :
  Permutation (flat_map snd (add_indexed n e l)) (e :: flat_map snd l).
Proof.
  induction l as [|[n' g] rest IH]; simpl; [reflexivity|].
  destruct (N.eqb n n'); simpl.
  - rewrite <- app_assoc. simpl.
    symmetry. apply Permutation_middle.
  - destruct (N.ltb n n'); simpl; [reflexivity|].
    rewrite IH. symmetry. apply Permutation_middle.
Qed.

Lemma table_push_permutation (env : Environment) (k : string) (e : item)
  (map map' : table) :
  table_push env k e map = Resolved map' ->
  Permutation (table_concat map') (e :: table_concat map).
Proof.
  unfold table_push, table_concat.
  destruct (array_property env k); [discriminate|].
  destruct (array_index k); intros H; injection H as <-; simpl.
  - now rewrite add_indexed_permutation.
  - rewrite add_named_permutation. symmetry. apply Permutation_middle.
Qed.

Lemma group_loop_permutation (env : Environment) (fn : item -> outcome string)
  (queue : list item) :
  forall map map',
    group_loop env fn queue map = Resolved map' ->
    Permutation (table_concat map') (queue ++ table_concat map).
Proof.
  induction queue as [|e rest IH]; intros map map'; simpl.
  - intros H. now injection H as <-.
  - destruct (fn e) as [k|]; [|discriminate]. simpl.
    destruct (table_push env k e map) as [map1|] eqn:Hpush; [|discriminate].
    simpl. intros H. rewrite (IH _ _ H).
    rewrite (table_push_permutation _ _ _ _ _ Hpush).
    symmetry. apply Permutation_middle.
Qed.

(** Whenever [group] returns, its result is the queue rearranged. *)
Lemma Queue_group_permutation (env : Environment) (fn : item -> outcome string)
  (queue result : list item) :
  Queue_group env fn queue = Resolved result -> Permutation queue result.
Proof.
  unfold Queue_group.
  destruct (group_loop env fn queue {| indexed := []; named := [] |})
    as [map|] eqn:Hloop; [|discriminate].
  simpl. intros H. injection H as <-.
  rewrite (group_loop_permutation _ _ _ _ _ Hloop).
  unfold table_concat. simpl. now rewrite app_nil_r.
Qed.

Lemma array_index_canonical (k : string) (n : N) :
  array_index k = Some n -> k = index_to_string n.
Proof.
  unfold array_index.
  destruct (negb (is_empty k) && string_forallb is_digit k)%bool; [|discriminate].
  cbv zeta.
  destruct (String.eqb (index_to_string (decimal_value 0 k)) k) eqn:E;
    [|discriminate].
  destruct (N.leb (decimal_value 0 k) 4294967294); [|discriminate].
  simpl. intros H. injection H as <-. apply String.eqb_eq in E. now symmetry.
Qed.

Lemma nothing_in {A : Type} (l : list A) : (forall x, ~ In x l) -> l = [].
Proof.
  destruct l as [|a l]; [reflexivity|]. intros H. exfalso. apply (H a). now left.
Qed.

(** C5, as the program has it. When the key function does not throw and no
    key names a property every array has, [group] returns the queue
    rearranged into groups, one after the other: first the groups whose key
    is an array index, by ascending index, then the other groups in the
    order in which their keys first appear.  Each group is the entries of
    the queue with that key, in the order of the queue.  The empty string is
    a key like any other name; when no key is an array index the order is
    that of first appearance. *)
Theorem C5_group_order
  (env : Environment) (fn : item -> outcome string) (key : item -> string)
  (queue : list item)
  (Hkeys : forall e, In e queue -> fn e = Resolved (key e))
  (Hfree : forall e, In e queue -> array_property env (key e) = false) :
  exists (indices : list N) (result : list item),
    Queue_group env fn queue = Resolved result /\
    Permutation queue result /\
    StronglySorted N.lt indices /\
    (forall n, In n indices <->
               exists e, In e queue /\ array_index (key e) = Some n) /\
    (forall n, In n indices ->
               index_group key queue n = group_of key queue (index_to_string n)) /\
    result =
      flat_map (index_group key queue) indices ++
      flat_map (group_of key queue)
        (distinct (filter (fun k => negb (is_index k)) (map key queue))) /\
    ((forall e, In e queue -> array_index (key e) = None) ->
     result = grouped_by_first_appearance key queue) /\
    array_index "" = None.
Proof.
  exists (indices_seen (map key queue)).
  eexists. split; [now apply (Queue_group_spec env fn key)|].
  assert (Hin : forall n, In n (indices_seen (map key queue)) <->
                  exists e, In e queue /\ array_index (key e) = Some n).
  { intros n. rewrite indices_seen_in. split.
    - intros (k & Hk & E). apply in_map_iff in Hk.
      destruct Hk as (e & <- & He). eauto.
    - intros (e & He & E). exists (key e). split; [now apply in_map | assumption]. }
  split; [apply (Queue_group_permutation env fn);
          now apply (Queue_group_spec env fn key)|].
  split; [apply indices_seen_sorted|]. split; [exact Hin|].
  split; [|split; [reflexivity | split; [|reflexivity]]].
  - intros n Hn. apply Hin in Hn. destruct Hn as (e0 & _ & E0).
    apply array_index_canonical in E0 as K0.
    unfold index_group, group_of. apply filter_ext. intros e.
    destruct (array_index (key e)) as [m|] eqn:E.
    + apply array_index_canonical in E as K.
      destruct (N.eqb m n) eqn:E2.
      * apply N.eqb_eq in E2. subst m. rewrite K. now rewrite String.eqb_refl.
      * symmetry. apply String.eqb_neq. intros Heq. apply N.eqb_neq in E2.
        apply E2. rewrite Heq, <- K0 in E. congruence.
    + symmetry. apply String.eqb_neq. intros Heq.
      rewrite Heq, <- K0 in E. congruence.
  - intros Hnone.
    rewrite (nothing_in (indices_seen (map key queue))).
    + simpl. unfold grouped_by_first_appearance. do 2 f_equal.
      apply forallb_filter_id. apply forallb_forall. intros k Hk.
      apply in_map_iff in Hk. destruct Hk as (e & <- & He).
      unfold is_index. now rewrite (Hnone e He).
    + intros n Hn. apply Hin in Hn. destruct Hn as (e & He & E).
      rewrite (Hnone e He) in E. discriminate.
Qed.

Lemma C5_group_order_witness :
  (forall e, In e keyed_queue -> entry_key e = Resolved (key_of entry_key e)) /\
  (forall e, In e keyed_queue ->
             array_property no_hits (key_of entry_key e) = false) /\
  exists (indices : list N) (result : list item),
    Queue_group no_hits entry_key keyed_queue = Resolved result /\
    Permutation keyed_queue result /\
    StronglySorted N.lt indices /\
    (forall n, In n indices <->
               exists e, In e keyed_queue /\
                         array_index (key_of entry_key e) = Some n) /\
    (forall n, In n indices ->
               index_group (key_of entry_key) keyed_queue n =
               group_of (key_of entry_key) keyed_queue (index_to_string n)) /\
    result =
      flat_map (index_group (key_of entry_key) keyed_queue) indices ++
      flat_map (group_of (key_of entry_key) keyed_queue)
        (distinct (filter (fun k => negb (is_index k))
                     (map (key_of entry_key) keyed_queue))) /\
    ((forall e, In e keyed_queue -> array_index (key_of entry_key e) = None) ->
     result = grouped_by_first_appearance (key_of entry_key) keyed_queue) /\
    array_index "" = None.
Proof.
  assert (H1 : forall e, In e keyed_queue ->
                 entry_key e = Resolved (key_of entry_key e)).
  { intros e He. unfold keyed_queue in He. simpl in He.
    repeat (destruct He as [<- | He]; [reflexivity|]). contradiction. }
  assert (H2 : forall e, In e keyed_queue ->
                 array_property no_hits (key_of entry_key e) = false).
  { intros e He. unfold keyed_queue in He. simpl in He.
    repeat (destruct He as [<- | He]; [reflexivity|]). contradiction. }
  split; [exact H1|]. split; [exact H2|].
  exact (C5_group_order no_hits entry_key (key_of entry_key) keyed_queue H1 H2).
Defined.

Example group_keyed_queue :
  Queue_group no_hits entry_key keyed_queue =
    Resolved
      [ITrack 2 (query "9"); ITrack 1 (query "10"); ITrack 5 (query "10");
       ITrack 0 (query "b"); ITrack 4 (query "B"); ITrack 3 (query "")].
Proof. vm_compute. reflexivity. Qed.

(** C5, as the specification has it, fails: of the keys [b], [10] and [9],
    the group of [9] comes first and the group of [b] last. *)
Lemma C5_counterexample :
  ~ (forall (env : Environment) (fn : item -> outcome string) (queue : list item),
        (forall e, In e queue ->
           exists k, fn e = Resolved k /\ array_property env k = false) ->
        Queue_group env fn queue =
          Resolved (grouped_by_first_appearance (key_of fn) queue)).
Proof.
  intros H.
  specialize (H no_hits entry_key
                [ITrack 0 (query "b"); ITrack 1 (query "10"); ITrack 2 (query "9")]).
  assert (Hk : forall e,
             In e [ITrack 0 (query "b"); ITrack 1 (query "10"); ITrack 2 (query "9")] ->
             exists k, entry_key e = Resolved k /\ array_property no_hits k = false).
  { intros e He. simpl in He.
    repeat (destruct He as [<- | He]; [eexists; split; reflexivity|]).
    contradiction. }
  specialize (H Hk). vm_compute in H. discriminate H.
Qed.

(* ================================================================== *)
(** * Ordering by popularity *)
(* ================================================================== *)













(** The order of that playlist: the Track of popularity 70, then the two
    Tracks of popularity 30 in their order; the fourth Track is gone. *)
Example order_popularity_playlist :
  match Playlist_order three_tracks popularity_playlist empty_world with
  | (Resolved p, w) =>
      map (fun e => match e with
                    | ITrack r t => (r, Track_popularity t)
                    | _ => (0, None)
                    end) (Playlist_entries p) =
        [(1, Some 70%Z); (0, Some 30%Z); (2, Some 30%Z)] /\
      requests w =
        ["https://api.spotify.com/v1/tracks/a1";
         "https://api.spotify.com/v1/tracks/b2";
         "https://api.spotify.com/v1/tracks/c3";
         "https://api.spotify.com/v1/tracks/d4"]
  | _ => False
  end.
Proof. vm_compute. split; reflexivity. Qed.

(* ================================================================== *)
(** * Rendering *)
(* ================================================================== *)

Lemma append_assoc (a b c : string) :
  ((a ++ b) ++ c = a ++ (b ++ c))%string.
Proof. induction a as [|x a IH]; simpl; [reflexivity | now rewrite IH]. Qed.

Lemma append_nil_r (a : string) : (a ++ "")%string = a.
Proof. induction a as [|x a IH]; simpl; [reflexivity | now rewrite IH]. Qed.

Lemma printable_append (a b : string) :
  printable (a ++ b) = (printable a && printable b)%bool.
Proof.
  unfold printable. induction a as [|x a IH]; simpl; [reflexivity|].
  now rewrite IH, andb_assoc.
Qed.

Lemma alnum_not_space (c : ascii) : is_alnum c = true -> is_space c = false.
Proof.
  destruct c as [[] [] [] [] [] [] [] []]; vm_compute; congruence.
Qed.

Lemma alnum_printable (s : string) :
  string_forallb is_alnum s = true -> printable s = true.
Proof.
  unfold printable. induction s as [|c s IH]; simpl; [reflexivity|].
  intros H. apply andb_true_iff in H. destruct H as [Hc Hs].
  now rewrite (alnum_not_space c Hc), IH.
Qed.

Lemma strip_prefix_spec (pat s rest : string) :
  strip_prefix pat s = Some rest -> s = (pat ++ rest)%string.
Proof.
  revert s. induction pat as [|p pat IH]; intros s; simpl.
  - intros H. now injection H as ->.
  - destruct s as [|c s]; [discriminate|].
    destruct (Ascii.eqb p c) eqn:E; [|discriminate].
    apply Ascii.eqb_eq in E. subst. intros H. now rewrite (IH _ H).
Qed.

Lemma strip_scheme_printable (s rest : string) :
  strip_scheme s = Some rest -> printable rest = true ->
  printable s = true /\ is_empty s = false.
Proof.
  revert rest. induction s as [|c s IH]; intros rest; simpl; [discriminate|].
  destruct (is_alnum c) eqn:Hc; [|discriminate].
  intros H Hrest. split; [|reflexivity].
  unfold printable. simpl. rewrite (alnum_not_space c Hc). simpl.
  destruct s as [|c' s']; [discriminate|].
  destruct (Ascii.eqb c' ":") eqn:E.
  - apply Ascii.eqb_eq in E. subst c'. injection H as <-.
    simpl. exact Hrest.
  - assert (H' : strip_scheme (String c' s') = Some rest).
    { destruct c' as [[] [] [] [] [] [] [] []]; try exact H; discriminate E. }
    now destruct (IH rest H' Hrest).
Qed.

(** A URI of the format has no white space in it and is not empty. *)
Lemma track_uri_format_printable (u : string) :
  track_uri_format u = true -> printable u = true /\ is_empty u = false.
Proof.
  unfold track_uri_format.
  destruct (strip_scheme u) as [rest|] eqn:Hs; [|discriminate].
  destruct (strip_prefix "track:" rest) as [id|] eqn:Hp; [|discriminate].
  intros H. apply andb_true_iff in H. destruct H as [_ Hid].
  apply (strip_scheme_printable u rest Hs).
  rewrite (strip_prefix_spec _ _ _ Hp), printable_append.
  now rewrite (alnum_printable id Hid).
Qed.

Lemma trimStart_printable (s : string) :
  printable s = true -> trimStart s = s.
Proof.
  destruct s as [|c s]; [reflexivity|]. unfold printable. simpl.
  intros H. apply andb_true_iff in H. destruct H as [Hc _].
  now destruct (is_space c).
Qed.

Lemma trimEnd_printable (a b : string) :
  printable a = true -> trimEnd (a ++ b) = (a ++ trimEnd b)%string.
Proof.
  unfold printable. induction a as [|c a IH]; simpl; [reflexivity|].
  intros H. apply andb_true_iff in H. destruct H as [Hc Ha].
  rewrite (IH Ha). now destruct (is_space c).
Qed.

Lemma join_not_empty (u : string) (rest : list string) :
  is_empty u = false -> is_empty (join newline (u :: rest)) = false.
Proof.
  destruct u as [|c u]; [discriminate|]. intros _.
  destruct rest; reflexivity.
Qed.

(** Trimming the text leaves the URIs joined by line feeds. *)
Lemma trim_text_of (uris : list string) :
  Forall (fun u => printable u = true /\ is_empty u = false) uris ->
  trim (text_of uris) = join newline uris.
Proof.
  intros Hall. unfold trim.
  assert (Hstart : trimStart (text_of uris) = text_of uris).
  { destruct Hall as [|u rest [Hu Hne] _]; [reflexivity|].
    simpl. destruct u as [|c u]; [discriminate|].
    unfold printable in Hu. simpl in Hu. apply andb_true_iff in Hu.
    simpl. now destruct (is_space c). }
  rewrite Hstart. clear Hstart.
  induction Hall as [|u rest [Hu Hne] Hrest IH]; [reflexivity|].
  simpl text_of. rewrite (trimEnd_printable u _ Hu).
  unfold newline at 1. simpl append. simpl trimEnd. rewrite IH.
  destruct rest as [|u' rest'].
  - simpl. now rewrite append_nil_r.
  - inversion Hrest as [|? ? [_ Hne'] _]; subst.
    rewrite (join_not_empty u' rest' Hne'). simpl.
    destruct u; reflexivity.
Qed.




Lemma toString_loop_renderable (queue : list item) :
  forallb renderable queue = true ->
  forall (result : string) (w : World),
    exists w',
      toString_loop queue result w =
        (Resolved (result ++ text_of (uris_of queue))%string, w') /\
      requests w' = requests w.
Proof.
  induction queue as [|e rest IH]; intros Hq result w.
  - exists w. simpl. unfold ret. now rewrite append_nil_r.
  - simpl in Hq. apply andb_true_iff in Hq. destruct Hq as [He Hrest].
    destruct e as [r t| | | |]; try discriminate. simpl in He.
    apply andb_true_iff in He. destruct He as [Hplays Huri].
    destruct (Track_lastfm t) as [plays|] eqn:Hl; [|discriminate].
    destruct (Track_uri t) as [u|] eqn:Hu; [|discriminate].
    cbn [toString_loop uris_of]. unfold bind at 1.
    unfold toString_step, bind, lift, console_log, item_toString, item_lastfm.
    rewrite Hl, Hu.
    destruct u as [|c u].
    + unfold ret at 1.
      match goal with |- context [toString_loop rest result ?w1] =>
        destruct (IH Hrest result w1) as (w' & -> & Hreq) end.
      exists w'. split; [reflexivity | exact Hreq].
    + unfold ret at 1.
      match goal with |- context [toString_loop rest ?r1 ?w1] =>
        destruct (IH Hrest r1 w1) as (w' & -> & Hreq) end.
      exists w'. split; [|exact Hreq].
      cbn [string_or_undefined text_of]. now rewrite !append_assoc.
Qed.








Example render_rendered_playlist :
  fst (Playlist_toString rendered_playlist empty_world) =
    Resolved ("spotify:track:a1" ++ newline ++ "spotify:track:b2" ++ newline ++
              "spotify:track:c3")%string.
Proof. reflexivity. Qed.

(** A response without [uri] is printed as [undefined]. *)
Example render_without_uri :
  fst (Playlist_toString
         {| Playlist_ordering := OrderNull;
            Playlist_grouping := GroupTrue;
            Playlist_unique := true;
            Playlist_entries :=
              [ITrack 0
                 (Track_new "first"
                    (Some {| track_id := Some "a1";
                             track_uri := None;
                             track_name := Some "First";
                             track_artists := None;
                             track_album := None;
                             track_popularity := Some 5%Z |}))] |}
         empty_world) =
    Resolved "undefined".
Proof. reflexivity. Qed.

(* ================================================================== *)
(** * Queue: flatten, resolveAll, contains, sort *)
(* ================================================================== *)

(** Induction on entries, through nested queues. *)
Lemma item_nested_ind (P : item -> Prop) :
  (forall r t, P (ITrack r t)) ->
  (forall r a, P (IAlbum r a)) ->
  (forall r a, P (IArtist r a)) ->
  (forall r q, Forall P q -> P (IQueue r q)) ->
  P IUndefined ->
  forall e, P e.
Proof.
  intros Htrack Halbum Hartist Hqueue Hundefined.
  fix IH 1. intros [r t|r a|r a|r q|].
  - apply Htrack.
  - apply Halbum.
  - apply Hartist.
  - apply Hqueue. induction q as [|e q IHq]; constructor; [apply IH | exact IHq].
  - exact Hundefined.
Qed.

Lemma flatten_item_leaves (e : item) :
  forallb is_leaf (flatten_item e) = true.
Proof.
  induction e as [r t|r a|r a|r q IH|] using item_nested_ind; try reflexivity.
  simpl. induction IH as [|e q He Hq IHq]; [reflexivity|].
  simpl. now rewrite forallb_app, He, IHq.
Qed.

Lemma flatten_leaves (queue : list item) :
  forallb is_leaf queue = true -> Queue_flatten queue = queue.
Proof.
  unfold Queue_flatten. induction queue as [|e rest IH]; [reflexivity|].
  simpl. intros H. apply andb_true_iff in H. destruct H as [He Hrest].
  rewrite (IH Hrest). now destruct e.
Qed.

(** X1. [flatten] leaves no nested queue and changes nothing in a queue that
    has no nested queue, so that it does nothing when it is applied again; a
    queue nested in another one is flattened like its own entries, and the
    entries of two queues put together are flattened one queue after the
    other. *)
Theorem flatten_is_flat (queue : list item) :
  forallb is_leaf (Queue_flatten queue) = true /\
  (forallb is_leaf queue = true -> Queue_flatten queue = queue) /\
  Queue_flatten (Queue_flatten queue) = Queue_flatten queue /\
  (forall r, Queue_flatten [IQueue r queue] = Queue_flatten queue) /\
  (forall queue', Queue_flatten (queue ++ queue') =
                  Queue_flatten queue ++ Queue_flatten queue').
Proof.
  assert (Hflat : forallb is_leaf (Queue_flatten queue) = true).
  { unfold Queue_flatten. induction queue as [|e rest IH]; [reflexivity|].
    simpl. now rewrite forallb_app, flatten_item_leaves, IH. }
  split; [exact Hflat|]. split; [apply flatten_leaves|].
  split; [now apply flatten_leaves|]. split.
  - intros r. unfold Queue_flatten. simpl. now rewrite app_nil_r.
  - intros queue'. unfold Queue_flatten. apply flat_map_app.
Qed.

Lemma resolve_loop_length {A : Type} (fn : A -> M item) (queue : list A) :
  forall (result : list item) (w : World),
    exists l w',
      resolve_loop fn queue result w = (Resolved (result ++ l), w') /\
      length l <= length queue /\
      ((forall e w1, In e queue -> exists v w2, fn e w1 = (Resolved v, w2)) ->
       length l = length queue) /\
      ((forall e w1, In e queue -> exists err w2, fn e w1 = (Rejected err, w2)) ->
       l = []).
Proof.
  induction queue as [|entry rest IH]; intros result w.
  - exists [], w. simpl. unfold ret. rewrite app_nil_r. auto.
  - simpl. destruct (fn entry w) as [[value|err] w1] eqn:Hfn.
    + destruct (IH (Queue_add result value) w1) as (l & w' & -> & Hlen & Hall & Hnone).
      exists (value :: l), w'. unfold Queue_add. rewrite <- app_assoc. simpl.
      split; [reflexivity|]. split; [lia|]. split.
      * intros H. f_equal. apply Hall. intros e w2 He. apply H. now right.
      * intros H. destruct (H entry w (or_introl eq_refl)) as (err & w2 & Hrej).
        congruence.
    + destruct (IH result w1) as (l & w' & -> & Hlen & Hall & Hnone).
      exists l, w'. split; [reflexivity|]. split; [lia|]. split.
      * intros H. destruct (H entry w (or_introl eq_refl)) as (v & w2 & Hres).
        congruence.
      * intros H. apply Hnone. intros e w2 He. apply H. now right.
Qed.

(** X2. [resolveAll] always resolves, whatever [fn] does: with at most one
    result for each entry, with exactly one for each entry when no call of
    [fn] is rejected, and with none when all are. *)
Theorem resolveAll_always_resolves {A : Type} (fn : A -> M item)
  (queue : list A) (w : World) :
  exists result w',
    Queue_resolveAll fn queue w = (Resolved result, w') /\
    length result <= length queue /\
    ((forall e w1, In e queue -> exists v w2, fn e w1 = (Resolved v, w2)) ->
     length result = length queue) /\
    ((forall e w1, In e queue -> exists err w2, fn e w1 = (Rejected err, w2)) ->
     result = []).
Proof.
  destruct (resolve_loop_length fn queue [] w) as (l & w' & H).
  exists l, w'. exact H.
Qed.

(** X3. In a queue of objects, an entry that was added is contained, and so is
    every entry of a queue in what [dedup] leaves of it. *)
Theorem contains_what_was_added (queue : list item) (x : item)
  (Hqueue : forallb is_object queue = true)
  (Hx : is_object x = true) :
  Queue_contains (Queue_add queue x) x = Resolved true /\
  (In x queue ->
   exists result,
     Queue_dedup queue = Resolved result /\
     Queue_contains result x = Resolved true).
Proof.
  split.
  - rewrite Queue_contains_objects; [|unfold Queue_add;
      rewrite forallb_app, Hqueue; simpl; now rewrite Hx | exact Hx].
    unfold Queue_add. rewrite matched_app. unfold matched at 2. simpl.
    now rewrite matches_refl, orb_true_r.
  - intros Hin. exists (kept matches queue []).
    split; [now apply dedup_loop_objects|].
    rewrite Queue_contains_objects;
      [|now apply kept_objects | exact Hx].
    f_equal. unfold matched. apply existsb_exists.
    destruct (kept_represents matches queue matches_refl [] x Hin) as (y & Hy & Hyx).
    eauto.
Qed.

Lemma contains_what_was_added_witness :
  forallb is_object sample_queue = true /\
  is_object (ITrack 0 (query "foo")) = true /\
  Queue_contains (Queue_add sample_queue (ITrack 0 (query "foo")))
    (ITrack 0 (query "foo")) = Resolved true /\
  (In (ITrack 0 (query "foo")) sample_queue ->
   exists result,
     Queue_dedup sample_queue = Resolved result /\
     Queue_contains result (ITrack 0 (query "foo")) = Resolved true).
Proof.
  split; [reflexivity|]. split; [reflexivity|].
  exact (contains_what_was_added sample_queue (ITrack 0 (query "foo"))
           eq_refl eq_refl).
Defined.

Lemma sort_insert_permutation (fn : item -> item -> outcome Z) (x : item)
  (l l' : list item) :
  sort_insert fn x l = Resolved l' -> Permutation (x :: l) l'.
Proof.
  revert l'. induction l as [|y rest IH]; intros l'; simpl.
  - intros H. now injection H as <-.
  - destruct (fn x y) as [v|]; [|discriminate]. simpl.
    destruct (v <=? 0)%Z.
    + intros H. now injection H as <-.
    + destruct (sort_insert fn x rest) as [rest'|]; [|discriminate].
      simpl. intros H. injection H as <-.
      rewrite perm_swap. constructor. now apply IH.
Qed.

Lemma sort_defined_permutation (fn : item -> item -> outcome Z)
  (l l' : list item) :
  sort_defined fn l = Resolved l' -> Permutation l l'.
Proof.
  revert l'. induction l as [|x rest IH]; intros l'; simpl.
  - intros H. now injection H as <-.
  - destruct (sort_defined fn rest) as [sorted|]; [|discriminate].
    simpl. intros H. apply sort_insert_permutation in H.
    rewrite <- H. constructor. now apply IH.
Qed.

Lemma filter_split_permutation {A : Type} (p : A -> bool) (l : list A) :
  Permutation l (filter (fun e => negb (p e)) l ++ filter p l).
Proof.
  induction l as [|x l IH]; [reflexivity|].
  simpl. destruct (p x); simpl.
  - rewrite <- Permutation_middle. now constructor.
  - now constructor.
Qed.




Lemma Queue_contains_undefined (acc : list item) (r : nat) (t : Track) :
  Queue_contains (ITrack r t :: acc) IUndefined = Rejected TypeError.
Proof. reflexivity. Qed.

Lemma track_is_object (l : list item) :
  forallb is_track l = true -> forallb is_object l = true.
Proof.
  induction l as [|e l IH]; [reflexivity|]. simpl. intros H.
  apply andb_true_iff in H. destruct H as [He Hl].
  rewrite (IH Hl). now destruct e.
Qed.

Lemma dedup_loop_reaches_undefined (rest : list item) :
  forall (r : nat) (t : Track) (acc : list item),
    forallb is_track acc = true ->
    forallb is_result rest = true ->
    existsb is_undefined rest = true ->
    dedup_loop rest (ITrack r t :: acc) = Rejected TypeError.
Proof.
  induction rest as [|x rest IH]; intros r t acc Hacc Hrest Hundef;
    [discriminate|].
  simpl in Hrest. apply andb_true_iff in Hrest. destruct Hrest as [Hx Hrest].
  destruct x as [r' t'| | | |]; try discriminate.
  - simpl in Hundef. cbn [dedup_loop].
    rewrite (Queue_contains_objects (ITrack r t :: acc) (ITrack r' t'));
      [|simpl; now rewrite track_is_object | reflexivity].
    cbn [obind].
    destruct (matched matches (ITrack r t :: acc) (ITrack r' t')).
    + now apply IH.
    + unfold Queue_add. simpl app. apply IH; try assumption.
      rewrite forallb_app, Hacc. reflexivity.
  - reflexivity.
Qed.

(** X6. On a queue of Tracks and [undefined], [dedup] throws a TypeError exactly
    when the queue holds an [undefined] and at least one more entry. *)
Theorem dedup_throws_on_undefined (queue : list item)
  (Hresults : forallb is_result queue = true) :
  Queue_dedup queue = Rejected TypeError <->
  existsb is_undefined queue = true /\ 2 <= length queue.
Proof.
  split.
  - intros Hthrow.
    destruct (existsb is_undefined queue) eqn:Hundef.
    + split; [reflexivity|].
      destruct queue as [|x [|y rest]]; simpl; try lia.
      * discriminate Hthrow.
      * destruct x; discriminate Hthrow.
    + exfalso.
      assert (Hobjects : forallb is_object queue = true).
      { apply forallb_forall. intros e He. unfold is_object.
        destruct (is_undefined e) eqn:E; [|reflexivity].
        assert (existsb is_undefined queue = true)
          by (apply existsb_exists; eauto).
        congruence. }
      unfold Queue_dedup in Hthrow.
      rewrite dedup_loop_objects in Hthrow by auto. discriminate.
  - intros [Hundef Hlen].
    destruct queue as [|x [|y rest]]; simpl in Hlen; try lia.
    unfold Queue_dedup.
    simpl in Hresults. apply andb_true_iff in Hresults.
    destruct Hresults as [Hx Hrest].
    destruct x as [r t| | | |]; try discriminate.
    + simpl in Hundef.
      change (dedup_loop (y :: rest) [ITrack r t] = Rejected TypeError).
      now apply dedup_loop_reaches_undefined.
    + reflexivity.
Qed.

Lemma toString_step_not_a_track (e : item) (result : string) (w : World) :
  is_track e = false ->
  exists w', toString_step e result w = (Rejected TypeError, w').
Proof.
  destruct e; try discriminate; intros _; eexists; reflexivity.
Qed.

Lemma toString_step_rejection (e : item) (result : string) (w w' : World)
  (err : error) :
  toString_step e result w = (Rejected err, w') -> err = TypeError.
Proof.
  destruct e as [r t| | | |];
    try (intros H; vm_compute in H; congruence).
  unfold toString_step, bind, lift, console_log, item_toString, item_lastfm.
  destruct (Track_lastfm t) as [plays|err'] eqn:Hl.
  - destruct (Track_uri t) as [[|c u]|]; unfold ret; congruence.
  - unfold Track_lastfm in Hl.
    destruct (Track_lastfmResponse t) as [info|]; [|discriminate].
    destruct (lastfm_track info) as [tr|]; [|congruence].
    destruct (playcount tr); discriminate.
Qed.

Lemma toString_loop_rejection (queue : list item) :
  forall (result : string) (w w' : World) (err : error),
    toString_loop queue result w = (Rejected err, w') -> err = TypeError.
Proof.
  induction queue as [|e rest IH]; intros result w w' err; simpl.
  - unfold ret. discriminate.
  - unfold bind.
    destruct (toString_step e result w) as [[result'|err'] w1] eqn:Hstep.
    + apply IH.
    + intros H. injection H as <- _. now apply toString_step_rejection in Hstep.
Qed.

(** X8. [toString] fails with a TypeError and with nothing else; it does fail
    when an entry of the queue is not a Track, be it [undefined], an Album,
    an Artist or a nested queue. *)
Theorem toString_only_renders_tracks (p : Playlist) (w : World) :
  (forall err w',
      Playlist_toString p w = (Rejected err, w') -> err = TypeError) /\
  (forallb is_track (Playlist_entries p) = false ->
   exists w', Playlist_toString p w = (Rejected TypeError, w')).
Proof.
  split.
  - intros err w'. unfold Playlist_toString, bind.
    destruct (toString_loop (Playlist_entries p) "" w) as [[text|err'] w1] eqn:Hloop.
    + unfold ret. discriminate.
    + intros H. injection H as <- _. now apply toString_loop_rejection in Hloop.
  - unfold Playlist_toString, bind.
    generalize (""%string) as result. revert w.
    induction (Playlist_entries p) as [|e rest IH]; intros w result Hq;
      [discriminate|].
    simpl in Hq. simpl. unfold bind at 1.
    destruct (is_track e) eqn:He.
    + simpl in Hq.
      destruct (toString_step e result w) as [[result'|err] w1] eqn:Hstep.
      * apply IH. exact Hq.
      * apply toString_step_rejection in Hstep as ->. eauto.
    + destruct (toString_step_not_a_track e result w He) as (w' & ->). eauto.
Qed.

Lemma dedup_throws_on_undefined_witness :
  forallb is_result track_and_undefined = true /\
  (Queue_dedup track_and_undefined = Rejected TypeError <->
   existsb is_undefined track_and_undefined = true /\
   2 <= length track_and_undefined).
Proof.
  split; [reflexivity|].
  exact (dedup_throws_on_undefined track_and_undefined eq_refl).
Defined.

(* ================================================================== *)
(** * The parser *)
(* ================================================================== *)

Lemma after_allocs_zero (w : World) : after_allocs 0 w = w.
Proof. unfold after_allocs. rewrite Nat.add_0_r. now destruct w. Qed.

Lemma after_allocs_succ (n : nat) (w : World) :
  after_allocs n (after_alloc w) = after_allocs (S n) w.
Proof. unfold after_allocs, after_alloc. simpl. f_equal. lia. Qed.

(** One line: the options change and the queue stays, or an entry with a
    fresh reference is appended and the options stay, or nothing happens. *)
Lemma Playlist_line_cases (line : string) (p : Playlist) (w : World) :
  (exists p',
      Playlist_line line p w = (Resolved p', w) /\
      Playlist_entries p' = Playlist_entries p /\
      (Playlist_unique p = true -> Playlist_unique p' = true)) \/
  (exists e,
      Playlist_line line p w =
        (Resolved (set_entries (Playlist_entries p ++ [e]) p), after_alloc w) /\
      parsed_entry e = true /\
      reference e = Some (next_ref w)).
Proof.
  unfold Playlist_line.
  repeat match goal with
         | |- context [if ?c then _ else _] =>
             destruct c;
             [try (left; eexists; split; [reflexivity | split; [reflexivity | auto]]);
              try (right; eexists; split; [reflexivity | split; reflexivity])|]
         end.
  left. eexists. split; [reflexivity | split; [reflexivity | auto]].
Qed.

Lemma Playlist_lines_invariants (lines : list string) :
  forall (p : Playlist) (w : World),
    exists p' added,
      Playlist_lines lines p w =
        (Resolved p', after_allocs (length added) w) /\
      Playlist_entries p' = Playlist_entries p ++ added /\
      (Playlist_unique p = true -> Playlist_unique p' = true) /\
      forallb parsed_entry added = true /\
      map reference added = map Some (seq (next_ref w) (length added)) /\
      length added <= length lines.
Proof.
  induction lines as [|line rest IH]; intros p w.
  - exists p, []. simpl. rewrite after_allocs_zero, app_nil_r.
    repeat split; auto.
  - destruct (Playlist_line_cases line p w)
      as [(p1 & Hline & Hentries & Hunique) | (e & Hline & Hparsed & Href)].
    + destruct (IH p1 w) as (p' & added & Hrun & Happ & Hu & Hall & Hrefs & Hlen).
      exists p', added. simpl. unfold bind. rewrite Hline, Hrun, Happ, Hentries.
      repeat split; auto; simpl; lia.
    + destruct (IH (set_entries (Playlist_entries p ++ [e]) p) (after_alloc w))
        as (p' & added & Hrun & Happ & Hu & Hall & Hrefs & Hlen).
      exists p', (e :: added). simpl. unfold bind. rewrite Hline, Hrun, Happ.
      rewrite after_allocs_succ. simpl. rewrite <- app_assoc. simpl.
      rewrite Hparsed, Hall, Href, Hrefs. simpl.
      replace (next_ref w + 1) with (S (next_ref w)) by lia.
      repeat split; auto; lia.
Qed.

(** X9. The parser performs no request and prints nothing; it allocates one
    object per entry, with consecutive references; every entry is a Track,
    an Album or an Artist without a response; there are no more entries than
    lines; and [unique] is [true] whatever the text says. *)
Theorem parser_builds_fresh_entries (str : string) (w : World) :
  exists p,
    Playlist_new str w =
      (Resolved p, after_allocs (length (Playlist_entries p)) w) /\
    Playlist_unique p = true /\
    forallb parsed_entry (Playlist_entries p) = true /\
    map reference (Playlist_entries p) =
      map Some (seq (next_ref w) (length (Playlist_entries p))) /\
    length (Playlist_entries p) <=
      length (split_at is_line_terminator (trim str)).
Proof.
  unfold Playlist_new.
  destruct (negb (is_empty (trim str))).
  - destruct (Playlist_lines_invariants
                (split_at is_line_terminator (trim str)) empty_playlist w)
      as (p' & added & Hrun & Happ & Hu & Hall & Hrefs & Hlen).
    simpl in Happ. exists p'. fold empty_playlist. rewrite Happ, Hrun.
    repeat split; auto.
  - exists empty_playlist. unfold ret. simpl. rewrite after_allocs_zero.
    repeat split; auto; lia.
Qed.

(** ** Blank programs and blank lines *)

Lemma trimStart_spaces (s : string) :
  string_forallb is_space s = true -> trimStart s = "".
Proof.
  induction s as [|c r IH]; simpl; [reflexivity|].
  intros H. apply andb_true_iff in H as [Hc Hr]. rewrite Hc. now apply IH.
Qed.

(** X10. A program of white space only gives the empty text, with no request and
    nothing printed. *)
Theorem blank_program_gives_nothing (env : Environment) (str : string)
    (w : World) :
  string_forallb is_space str = true ->
  run env str w = (Resolved "", w).
Proof.
  intros H. unfold run, Playlist_new, trim, bind.
  rewrite (trimStart_spaces str H). reflexivity.
Qed.

Lemma blank_program_gives_nothing_witness :
  string_forallb is_space (" " ++ newline) = true /\
  run no_hits (" " ++ newline) empty_world = (Resolved "", empty_world).
Proof.
  split; [reflexivity|].
  exact (blank_program_gives_nothing no_hits (" " ++ newline) empty_world
           eq_refl).
Defined.

Lemma Playlist_lines_nonblank (lines : list string) :
  forall (p : Playlist) (w : World),
    Playlist_lines lines p w = Playlist_lines (filter nonblank lines) p w.
Proof.
  induction lines as [|line rest IH]; intros p w; [reflexivity|].
  destruct line as [|c r].
  - simpl. unfold bind, ret. simpl. apply IH.
  - change (filter nonblank (String c r :: rest))
      with (String c r :: filter nonblank rest).
    simpl. unfold bind.
    destruct (Playlist_line (String c r) p w) as [[p'|err] w']; auto.
Qed.

Lemma split_at_nonempty (sep : ascii -> bool) (s : string) :
  split_at sep s <> [].
Proof.
  destruct s as [|c r]; simpl; [discriminate|].
  destruct (sep c); [discriminate|].
  destruct (split_at sep r); discriminate.
Qed.

Lemma split_at_separator (sep : ascii -> bool) (c : ascii) (a b : string) :
  sep c = true ->
  split_at sep (a ++ String c b) = split_at sep a ++ split_at sep b.
Proof.
  intros Hc. induction a as [|x a IH]; simpl.
  - now rewrite Hc.
  - rewrite IH. destruct (sep x); [reflexivity|].
    pose proof (split_at_nonempty sep a) as Hne.
    destruct (split_at sep a) as [|piece pieces]; [contradiction|reflexivity].
Qed.

Lemma terminator_is_space (c : ascii) :
  is_line_terminator c = true -> is_space c = true.
Proof. destruct c as [[] [] [] [] [] [] [] []]; vm_compute; congruence. Qed.

Lemma trimStart_app_spaces (a x : string) :
  all_space a = true -> trimStart (a ++ x) = trimStart x.
Proof.
  unfold all_space. induction a as [|c a IH]; [reflexivity|].
  cbn [string_forallb append trimStart]. intros H.
  apply andb_true_iff in H as [Hc Ha]. rewrite Hc. now apply IH.
Qed.

Lemma trimStart_app_text (a x : string) :
  all_space a = false ->
  trimStart (a ++ x) = (trimStart a ++ x)%string /\
  is_empty (trimStart a) = false.
Proof.
  unfold all_space. induction a as [|c a IH]; [discriminate|].
  cbn [string_forallb append trimStart]. intros H.
  destruct (is_space c); [now apply IH | split; reflexivity].
Qed.

Lemma trimEnd_spaces (y : string) : all_space y = true -> trimEnd y = "".
Proof.
  unfold all_space. induction y as [|c y IH]; [reflexivity|].
  cbn [string_forallb trimEnd]. intros H.
  apply andb_true_iff in H as [Hc Hy]. now rewrite (IH Hy), Hc.
Qed.

Lemma trimEnd_app_spaces (x y : string) :
  all_space y = true -> trimEnd (x ++ y) = trimEnd x.
Proof.
  intros Hy. induction x as [|c x IH].
  - now apply trimEnd_spaces.
  - cbn [append trimEnd]. now rewrite IH.
Qed.

Lemma trimEnd_text (b : string) :
  all_space b = false -> is_empty (trimEnd b) = false.
Proof.
  unfold all_space. induction b as [|c b IH]; [discriminate|].
  cbn [string_forallb trimEnd]. intros H.
  destruct (is_space c); [|reflexivity].
  rewrite (IH H). reflexivity.
Qed.

Lemma is_empty_append (x y : string) :
  is_empty (x ++ y) = (is_empty x && is_empty y)%bool.
Proof. now destruct x. Qed.

Lemma trimEnd_app_text (x b : string) :
  all_space b = false -> trimEnd (x ++ b) = (x ++ trimEnd b)%string.
Proof.
  intros Hb. induction x as [|c x IH]; [reflexivity|].
  cbn [append trimEnd]. rewrite IH, is_empty_append, (trimEnd_text b Hb).
  now rewrite !andb_false_r.
Qed.

(** One more line terminator next to a line terminator, wherever it stands
    in the text. *)
Lemma Playlist_new_doubled (a b : string) (c1 c2 : ascii) (w : World) :
  is_line_terminator c1 = true ->
  is_line_terminator c2 = true ->
  Playlist_new (a ++ String c1 (String c2 b)) w =
  Playlist_new (a ++ String c2 b) w.
Proof.
  intros H1 H2.
  pose proof (terminator_is_space c1 H1) as S1.
  pose proof (terminator_is_space c2 H2) as S2.
  unfold Playlist_new, trim.
  destruct (all_space a) eqn:Ha.
  - rewrite !(trimStart_app_spaces a) by exact Ha.
    cbn [trimStart]. now rewrite S1, S2.
  - destruct (trimStart_app_text a (String c1 (String c2 b)) Ha) as [-> Hne].
    destruct (trimStart_app_text a (String c2 b) Ha) as [-> _].
    set (a' := trimStart a) in *.
    destruct (all_space b) eqn:Hb.
    + rewrite !trimEnd_app_spaces; [reflexivity| |];
        unfold all_space in *; cbn [string_forallb];
        now rewrite ?S1, ?S2, Hb.
    + change (a' ++ String c1 (String c2 b))%string
        with (a' ++ (String c1 (String c2 "") ++ b))%string.
      change (a' ++ String c2 b)%string
        with (a' ++ (String c2 "" ++ b))%string.
      rewrite <- !append_assoc, !trimEnd_app_text by exact Hb.
      rewrite !append_assoc. cbn [append].
      rewrite !is_empty_append, Hne. cbn [andb negb].
      rewrite Playlist_lines_nonblank.
      rewrite (Playlist_lines_nonblank
                 (split_at _ (a' ++ String c2 (trimEnd b)))).
      rewrite !split_at_separator by assumption.
      change (split_at is_line_terminator (String c2 (trimEnd b)))
        with (if is_line_terminator c2
              then EmptyString :: split_at is_line_terminator (trimEnd b)
              else match split_at is_line_terminator (trimEnd b) with
                   | [] => [String c2 EmptyString]
                   | piece :: pieces => String c2 piece :: pieces
                   end).
      rewrite H2. rewrite !filter_app. reflexivity.
Qed.

Lemma crlf_to_lf_pair (c c' : ascii) (r : string) :
  crlf_to_lf (String c (String c' r)) =
    if (Ascii.eqb c carriage_return && Ascii.eqb c' line_feed)%bool
    then String line_feed (crlf_to_lf r)
    else String c (crlf_to_lf (String c' r)).
Proof. reflexivity. Qed.

Lemma Playlist_new_crlf (n : nat) (w : World) :
  forall (s a : string),
    String.length s <= n ->
    Playlist_new (a ++ crlf_to_lf s) w = Playlist_new (a ++ s) w.
Proof.
  induction n as [|n IH]; intros s a Hlen.
  - destruct s; [reflexivity | simpl in Hlen; lia].
  - destruct s as [|c [|c' r']]; [reflexivity | reflexivity|].
    rewrite crlf_to_lf_pair.
    destruct (Ascii.eqb c carriage_return && Ascii.eqb c' line_feed)%bool
      eqn:Hpair.
    + apply andb_true_iff in Hpair as [Hc Hc'].
      apply Ascii.eqb_eq in Hc, Hc'. subst c c'.
      rewrite (Playlist_new_doubled a r' carriage_return line_feed w)
        by reflexivity.
      change (a ++ String line_feed (crlf_to_lf r'))%string
        with (a ++ (String line_feed "" ++ crlf_to_lf r'))%string.
      change (a ++ String line_feed r')%string
        with (a ++ (String line_feed "" ++ r'))%string.
      rewrite <- !append_assoc. apply IH. simpl in Hlen. lia.
    + change (a ++ String c (crlf_to_lf (String c' r')))%string
        with (a ++ (String c "" ++ crlf_to_lf (String c' r')))%string.
      change (a ++ String c (String c' r'))%string
        with (a ++ (String c "" ++ String c' r'))%string.
      rewrite <- !append_assoc. apply IH. simpl in Hlen. simpl. lia.
Qed.

(** X11. Two line terminators in a row separate lines as one does, wherever
    they stand in the text, at its end too; so a text with CR LF line ends
    gives the playlist of the same text with LF line ends. *)
Theorem line_ends_may_be_doubled (a b : string) (c1 c2 : ascii) (w : World) :
  is_line_terminator c1 = true ->
  is_line_terminator c2 = true ->
  Playlist_new (a ++ String c1 (String c2 b)) w =
    Playlist_new (a ++ String c2 b) w /\
  (forall text, Playlist_new (crlf_to_lf text) w = Playlist_new text w).
Proof.
  intros H1 H2. split; [now apply Playlist_new_doubled|].
  intros text. exact (Playlist_new_crlf (String.length text) w text "" (le_n _)).
Qed.

Lemma line_ends_may_be_doubled_witness :
  is_line_terminator carriage_return = true /\
  is_line_terminator line_feed = true /\
  Playlist_new ("foo" ++ String carriage_return (String line_feed "")) empty_world =
    Playlist_new ("foo" ++ String line_feed "") empty_world /\
  Playlist_new (crlf_to_lf crlf_text) empty_world =
    Playlist_new crlf_text empty_world.
Proof.
  split; [reflexivity|]. split; [reflexivity|].
  pose proof (line_ends_may_be_doubled "foo" "" carriage_return line_feed
                empty_world eq_refl eq_refl) as [Hone Hall].
  split; [exact Hone | exact (Hall crlf_text)].
Defined.

(** ** Letter case *)

Ltac each_code_unit c :=
  destruct c as [[] [] [] [] [] [] [] []]; vm_compute; auto.

Lemma is_space_lower (c : ascii) : is_space (lower_char c) = is_space c.
Proof. each_code_unit c. Qed.

Lemma is_line_terminator_lower (c : ascii) :
  is_line_terminator (lower_char c) = is_line_terminator c.
Proof. each_code_unit c. Qed.

Lemma canonicalize_lower (c : ascii) :
  canonicalize (lower_char c) = canonicalize c \/
  (is_ascii (canonicalize (lower_char c)) = false /\
   is_ascii (canonicalize c) = false).
Proof. each_code_unit c. Qed.

Lemma canonicalize_ascii (p : ascii) :
  is_ascii p = true -> is_ascii (canonicalize p) = true.
Proof. each_code_unit p. Qed.

Lemma ci_char_eqb_lower (p c : ascii) :
  is_ascii p = true -> ci_char_eqb p (lower_char c) = ci_char_eqb p c.
Proof.
  intros Hp. apply canonicalize_ascii in Hp. unfold ci_char_eqb.
  destruct (canonicalize_lower c) as [-> | [H1 H2]]; [reflexivity|].
  transitivity false; [|symmetry]; apply Ascii.eqb_neq; congruence.
Qed.

Lemma is_empty_lower (s : string) : is_empty (toLowerCase s) = is_empty s.
Proof. now destruct s. Qed.

Lemma ci_prefix_lower (pat : string) :
  string_forallb is_ascii pat = true ->
  forall s, ci_prefix pat (toLowerCase s) = ci_prefix pat s.
Proof.
  induction pat as [|p pat IH]; intros Hpat s; [reflexivity|].
  simpl in Hpat. apply andb_true_iff in Hpat as [Hp Hpat].
  destruct s as [|c s]; [reflexivity|]. simpl.
  now rewrite ci_char_eqb_lower, IH.
Qed.

Lemma ci_strip_lower (pat : string) :
  string_forallb is_ascii pat = true ->
  forall s, ci_strip pat (toLowerCase s) = option_map toLowerCase (ci_strip pat s).
Proof.
  induction pat as [|p pat IH]; intros Hpat s; [reflexivity|].
  simpl in Hpat. apply andb_true_iff in Hpat as [Hp Hpat].
  destruct s as [|c s]; [reflexivity|]. simpl.
  rewrite ci_char_eqb_lower by assumption.
  destruct (ci_char_eqb p c); [now apply IH | reflexivity].
Qed.

Lemma substring_from_lower (n : nat) :
  forall s, substring_from n (toLowerCase s) = toLowerCase (substring_from n s).
Proof.
  induction n as [|n IH]; intros s; [reflexivity|].
  destruct s as [|c s]; [reflexivity|]. simpl. apply IH.
Qed.

Lemma trimStart_lower (s : string) :
  trimStart (toLowerCase s) = toLowerCase (trimStart s).
Proof.
  induction s as [|c s IH]; [reflexivity|]. simpl.
  rewrite is_space_lower. destruct (is_space c); [exact IH | reflexivity].
Qed.

Lemma trimEnd_lower (s : string) :
  trimEnd (toLowerCase s) = toLowerCase (trimEnd s).
Proof.
  induction s as [|c s IH]; [reflexivity|]. simpl.
  fold (toLowerCase s). rewrite IH, is_empty_lower, is_space_lower.
  destruct (is_space c && is_empty (trimEnd s))%bool; reflexivity.
Qed.

Lemma trim_lower (s : string) : trim (toLowerCase s) = toLowerCase (trim s).
Proof. unfold trim. now rewrite trimStart_lower, trimEnd_lower. Qed.

Lemma split_at_lower (s : string) :
  split_at is_line_terminator (toLowerCase s) =
  map toLowerCase (split_at is_line_terminator s).
Proof.
  induction s as [|c s IH]; [reflexivity|]. simpl.
  fold (toLowerCase s). rewrite IH, is_line_terminator_lower.
  destruct (is_line_terminator c); [reflexivity|].
  destruct (split_at is_line_terminator s); reflexivity.
Qed.

Lemma last_fm_tail_lower (rest : string) :
  last_fm_tail (toLowerCase rest) = last_fm_tail rest.
Proof.
  unfold last_fm_tail. rewrite ci_strip_lower by reflexivity.
  destruct (ci_strip " BY LAST" rest) as [r|]; [|reflexivity].
  cbn [option_map]. rewrite (ci_prefix_lower "FM") by reflexivity.
  destruct r as [|c r]; [reflexivity|].
  change (toLowerCase (String c r)) with (String (lower_char c) (toLowerCase r)).
  cbv iota. now rewrite is_line_terminator_lower,
    (ci_prefix_lower "FM") by reflexivity.
Qed.

Lemma matches_last_fm_lower (line : string) :
  matches_last_fm (toLowerCase line) = matches_last_fm line.
Proof.
  unfold matches_last_fm. rewrite !ci_strip_lower by reflexivity.
  destruct (ci_strip "#SORT" line), (ci_strip "#ORDER" line);
    cbn [option_map]; now rewrite ?last_fm_tail_lower.
Qed.

Lemma lower_playlist_add (p : Playlist) (e : item) :
  lower_playlist (set_entries (Queue_add (Playlist_entries p) e) p) =
  set_entries
    (Queue_add (Playlist_entries (lower_playlist p)) (with_entry toLowerCase e))
    (lower_playlist p).
Proof.
  unfold lower_playlist, set_entries, Queue_add. simpl.
  now rewrite map_app.
Qed.

Lemma Playlist_line_lower (line : string) (p : Playlist) (w : World) :
  exists p' w',
    Playlist_line line p w = (Resolved p', w') /\
    Playlist_line (toLowerCase line) (lower_playlist p) w =
      (Resolved (lower_playlist p'), w').
Proof.
  unfold Playlist_line.
  rewrite !ci_prefix_lower by reflexivity.
  rewrite matches_last_fm_lower, is_empty_lower.
  repeat match goal with
         | |- context [if ?c then _ else _] =>
             destruct c;
             [try (do 2 eexists; split; reflexivity)|]
         end.
  - do 2 eexists. split; [reflexivity|].
    unfold bind, alloc, ret. cbv beta iota zeta. rewrite lower_playlist_add.
    unfold Album_new. rewrite substring_from_lower, trim_lower. reflexivity.
  - do 2 eexists. split; [reflexivity|].
    unfold bind, alloc, ret. cbv beta iota zeta. rewrite lower_playlist_add.
    unfold Artist_new. rewrite substring_from_lower, trim_lower. reflexivity.
  - do 2 eexists. split; [reflexivity|].
    unfold bind, alloc, ret. cbv beta iota zeta. rewrite lower_playlist_add.
    unfold Track_new. cbn [Track_isFullResponse with_entry Track_entry Track_response Track_responseSimple Track_lastfmResponse]. rewrite trim_lower. reflexivity.
  - do 2 eexists. split; reflexivity.
Qed.

Lemma Playlist_lines_lower (lines : list string) :
  forall (p : Playlist) (w : World),
    exists p' w',
      Playlist_lines lines p w = (Resolved p', w') /\
      Playlist_lines (map toLowerCase lines) (lower_playlist p) w =
        (Resolved (lower_playlist p'), w').
Proof.
  induction lines as [|line rest IH]; intros p w.
  - exists p, w. split; reflexivity.
  - destruct (Playlist_line_lower line p w) as (p1 & w1 & H1 & H2).
    destruct (IH p1 w1) as (p' & w' & H3 & H4).
    exists p', w'. simpl. unfold bind. rewrite H1, H2. split; assumption.
Qed.

(** X12. In a text of ASCII characters the letter case never changes what a
    line is: the text in lower case gives the same options, the same kinds
    of entries in the same order with the same references, and the entry
    texts in lower case.  (Beyond Latin-1, lower case can lengthen a text,
    and a line may then stop matching its pattern.) *)
Theorem directives_ignore_letter_case (str : string) (w : World) :
  ascii_text str = true ->
  exists p w',
    Playlist_new str w = (Resolved p, w') /\
    Playlist_new (toLowerCase str) w = (Resolved (lower_playlist p), w') /\
    ascii_text (toLowerCase str) = true.
Proof.
  intros Hascii.
  assert (Hlower : ascii_text (toLowerCase str) = true).
  { unfold ascii_text in *. induction str as [|c str IH]; [reflexivity|].
    cbn [toLowerCase string_map string_forallb] in *.
    apply andb_true_iff in Hascii as [Hc Hstr].
    fold (toLowerCase str). rewrite (IH Hstr), andb_true_r.
    revert Hc. destruct c as [[] [] [] [] [] [] [] []]; vm_compute; congruence. }
  unfold Playlist_new. rewrite trim_lower, is_empty_lower, split_at_lower.
  destruct (negb (is_empty (trim str))).
  - destruct (Playlist_lines_lower (split_at is_line_terminator (trim str))
                empty_playlist w) as (p & w' & Hrun & Hlow).
    exists p, w'. auto.
  - exists empty_playlist, w. repeat split; auto.
Qed.

Lemma directives_ignore_letter_case_witness :
  ascii_text mixed_case_text = true /\
  exists p w',
    Playlist_new mixed_case_text empty_world = (Resolved p, w') /\
    Playlist_new (toLowerCase mixed_case_text) empty_world =
      (Resolved (lower_playlist p), w') /\
    ascii_text (toLowerCase mixed_case_text) = true.
Proof.
  split; [reflexivity|].
  exact (directives_ignore_letter_case mixed_case_text empty_world eq_refl).
Defined.

(** ** Options and entries *)

Ltac option_line :=
  do 2 eexists; split; [reflexivity|];
  split; [intros _; repeat split; reflexivity | intros H; discriminate H].

Ltac entry_line p :=
  do 2 eexists; split; [reflexivity|];
  split; [intros H; discriminate H
         | intros _; split; [destruct p; reflexivity | intros o; reflexivity]].

Lemma Playlist_line_split (line : string) (p : Playlist) (w : World) :
  exists p' w',
    Playlist_line line p w = (Resolved p', w') /\
    (is_option line = true ->
     Playlist_entries p' = Playlist_entries p /\ w' = w /\
     forall q v,
       Playlist_line line (set_entries q p) v = (Resolved (set_entries q p'), v)) /\
    (is_option line = false ->
     set_entries (Playlist_entries p) p' = p /\
     forall o,
       Playlist_line line (set_entries (Playlist_entries p) o) w =
         (Resolved (set_entries (Playlist_entries p') o), w')).
Proof.
  unfold Playlist_line, is_option.
  destruct (ci_prefix "#ORDER BY POPULARITY" line); [option_line|].
  destruct (matches_last_fm line); [option_line|].
  destruct (ci_prefix "#GROUP BY ENTRY" line); [option_line|].
  destruct (ci_prefix "#GROUP BY ARTIST" line); [option_line|].
  destruct (ci_prefix "#GROUP BY ALBUM" line); [option_line|].
  destruct (ci_prefix "#UNIQUE" line); [option_line|].
  destruct (ci_prefix "##" line); [option_line|].
  destruct (ci_prefix "#ALBUM " line); [entry_line p|].
  destruct (ci_prefix "#ARTIST " line); [entry_line p|].
  destruct (negb (is_empty line)); entry_line p.
Qed.

Lemma set_entries_twice (q q' : list item) (p : Playlist) :
  set_entries q (set_entries q' p) = set_entries q p.
Proof. reflexivity. Qed.

Lemma Playlist_lines_split (lines : list string) :
  forall (p : Playlist) (w : World),
    exists p' w',
      Playlist_lines lines p w = (Resolved p', w') /\
      (forall q v,
          Playlist_lines (filter is_option lines) (set_entries q p) v =
            (Resolved (set_entries q p'), v)) /\
      (forall o,
          Playlist_lines (filter is_entry lines)
            (set_entries (Playlist_entries p) o) w =
            (Resolved (set_entries (Playlist_entries p') o), w')).
Proof.
  induction lines as [|line rest IH]; intros p w.
  - exists p, w. repeat split; reflexivity.
  - destruct (Playlist_line_split line p w) as (p1 & w1 & Hline & Hopt & Hent).
    destruct (IH p1 w1) as (p' & w' & Hrun & Hoptions & Hentries).
    exists p', w'. cbn [Playlist_lines filter]. unfold is_entry.
    unfold bind at 1. rewrite Hline.
    split; [exact Hrun|].
    destruct (is_option line) eqn:Hkind; cbn [negb].
    + destruct (Hopt eq_refl) as (Hsame & -> & Hcommute). split.
      * intros q v. cbn [Playlist_lines]. unfold bind.
        rewrite Hcommute. apply Hoptions.
      * intros o. rewrite <- Hsame. apply Hentries.
    + destruct (Hent eq_refl) as (Hsame & Hcommute). split.
      * intros q v. rewrite <- Hsame, set_entries_twice.
        rewrite <- (set_entries_twice q (Playlist_entries p) p1).
        rewrite Hsame. rewrite <- Hsame at 1. rewrite set_entries_twice.
        apply Hoptions.
      * intros o. cbn [Playlist_lines]. unfold bind.
        rewrite Hcommute. apply Hentries.
Qed.

(** X13. The options and the entries of a playlist are read independently: the
    option lines alone give the options, the other lines alone give the
    queue, so that an option applies to the whole playlist wherever its
    line stands, before or after the entries. *)
Theorem options_and_entries_are_independent (lines : list string) (w : World) :
  exists p w',
    Playlist_lines lines empty_playlist w = (Resolved p, w') /\
    Playlist_lines (filter is_option lines) empty_playlist w =
      (Resolved (set_entries [] p), w) /\
    Playlist_lines (filter is_entry lines) empty_playlist w =
      (Resolved (set_entries (Playlist_entries p) empty_playlist), w').
Proof.
  destruct (Playlist_lines_split lines empty_playlist w)
    as (p & w' & Hrun & Hoptions & Hentries).
  exists p, w'. split; [exact Hrun|]. split.
  - exact (Hoptions [] w).
  - exact (Hentries empty_playlist).
Qed.

(* ================================================================== *)
(** * Track *)
(* ================================================================== *)

Lemma Track_dispatch_result (env : Environment) (t t1 : Track) (w w1 : World) :
  Track_dispatch env t w = (Resolved (Some t1), w1) ->
  (truthy_object (Track_response t1) = true /\
   (truthy_object (Track_response t) = true -> t1 = t /\ w1 = w)) /\
  length (requests w1) <= S (length (requests w)) \/
  truthy_object (Track_response t1) = false /\
  truthy_object (Track_responseSimple t1) = true.
Proof.
  unfold Track_dispatch.
  assert (Hfetch : forall v, (t' <- Track_fetchTrack env t;; ret (Some t')) w =
                             (Resolved (Some t1), v) ->
                   truthy_object (Track_response t1) = true /\
                   length (requests v) <= S (length (requests w))).
  { intros v. unfold Track_fetchTrack, bind, request, ret.
    destruct (request_track env _); [|discriminate].
    intros H. injection H as <- <-. simpl. rewrite length_app. simpl.
    split; [reflexivity | lia]. }
  destruct (truthy_object (Track_response t)) eqn:Eresponse.
  - unfold ret. intros H. injection H as <- <-. left. repeat split; auto.
  - assert (Hno : true = true -> t1 = t /\ w1 = w -> True) by auto.
    repeat match goal with
           | |- context [if ?c then _ else _] =>
               destruct c;
               [intros H; apply Hfetch in H as [H1 H2]; left;
                repeat split; auto; discriminate|]
           end.
    unfold Track_searchForTrack, bind, request, ret.
    destruct (request_track_search env _) as [result|]; [|discriminate].
    destruct (tracks_items result) as [[|first rest]|]; try discriminate.
    destruct (truthy_string (track_uri first)); [|discriminate].
    intros H. injection H as <- <-. right. simpl.
    destruct (Track_response t); [discriminate|]. split; reflexivity.
Qed.

(** X14. A Track is final after at most two successful dispatches: the first
    one may only store a search hit, the second one stores the full track,
    and from then on [dispatch] resolves with the Track as it is and makes
    no request. *)
Theorem dispatch_settles (env : Environment) (t t1 t2 : Track)
    (w w1 w2 : World) :
  Track_dispatch env t w = (Resolved (Some t1), w1) ->
  Track_dispatch env t1 w1 = (Resolved (Some t2), w2) ->
  forall w3, Track_dispatch env t2 w3 = (Resolved (Some t2), w3).
Proof.
  intros H1 H2 w3.
  assert (Hfull : truthy_object (Track_response t2) = true).
  { destruct (Track_dispatch_result env t t1 w w1 H1)
      as [[[Hfull _] _] | [Hnone Hsimple]].
    - destruct (Track_dispatch_result env t1 t2 w1 w2 H2)
        as [[[_ Hsame] _] | [Hnone _]].
      + destruct (Hsame Hfull) as [-> _]. exact Hfull.
      + unfold Track_dispatch in H2. rewrite Hfull in H2.
        unfold ret in H2. injection H2 as <- _. exact Hfull.
    - unfold Track_dispatch in H2. rewrite Hnone, Hsimple in H2.
      unfold Track_fetchTrack, bind, request, ret in H2.
      destruct (request_track env _); [|discriminate].
      injection H2 as <- _. reflexivity. }
  unfold Track_dispatch. now rewrite Hfull.
Qed.

Lemma dispatch_settles_witness :
  Track_dispatch one_track idioteque empty_world =
    (Resolved (Some idioteque_fetched),
     after_request (track_url idioteque) empty_world) /\
  Track_dispatch one_track idioteque_fetched
    (after_request (track_url idioteque) empty_world) =
    (Resolved (Some idioteque_fetched),
     after_request (track_url idioteque) empty_world) /\
  Track_dispatch one_track idioteque_fetched empty_world =
    (Resolved (Some idioteque_fetched), empty_world).
Proof.
  split; [reflexivity|]. split; [reflexivity|].
  exact (dispatch_settles one_track idioteque idioteque_fetched
           idioteque_fetched empty_world
           (after_request (track_url idioteque) empty_world)
           (after_request (track_url idioteque) empty_world)
           eq_refl eq_refl empty_world).
Defined.

Lemma trim_printable (s : string) : printable s = true -> trim s = s.
Proof.
  intros H. unfold trim. rewrite (trimStart_printable s H).
  rewrite <- (append_nil_r s) at 1.
  rewrite (trimEnd_printable s "" H). apply append_nil_r.
Qed.

Lemma split_at_whole (sep : ascii -> bool) (s : string) :
  string_forallb (fun c => negb (sep c)) s = true -> split_at sep s = [s].
Proof.
  induction s as [|c s IH]; simpl; [reflexivity|].
  intros H. apply andb_true_iff in H as [Hc Hs].
  apply negb_true_iff in Hc. now rewrite Hc, (IH Hs).
Qed.

Lemma alnum_not_slash (s : string) :
  string_forallb is_alnum s = true ->
  string_forallb (fun c => negb (Ascii.eqb "/" c)) s = true.
Proof.
  induction s as [|c s IH]; [reflexivity|]. cbn [string_forallb].
  intros H. apply andb_true_iff in H as [Hc Hs]. rewrite (IH Hs).
  rewrite andb_true_r. revert Hc.
  destruct c as [[] [] [] [] [] [] [] []]; vm_compute; congruence.
Qed.

Lemma Track_entry_uri (id : string) :
  string_forallb is_alnum id = true ->
  Track_entry (Track_new ("spotify:track:" ++ id) None) =
    ("spotify:track:" ++ id)%string.
Proof.
  intros Hid. apply trim_printable.
  rewrite printable_append, (alnum_printable id Hid). reflexivity.
Qed.

Lemma Track_id_uri (id : string) :
  string_forallb is_alnum id = true ->
  Track_id (Track_new ("spotify:track:" ++ id) None) = IdString id.
Proof.
  intros Hid. unfold Track_id. rewrite (Track_entry_uri id Hid). reflexivity.
Qed.

Lemma Track_dispatch_uri (env : Environment) (id : string) (w : World) :
  string_forallb is_alnum id = true ->
  Track_dispatch env (Track_new ("spotify:track:" ++ id) None) w =
    (match request_track env (track_request id) with
     | Some body =>
         Resolved (Some (promoted (Track_new ("spotify:track:" ++ id) None) body))
     | None => Rejected RequestError
     end, after_request (track_request id) w).
Proof.
  intros Hid. unfold Track_dispatch. rewrite (Track_entry_uri id Hid).
  change (truthy_object (Track_response (Track_new ("spotify:track:" ++ id) None)))
    with false.
  change (truthy_object
            (Track_responseSimple (Track_new ("spotify:track:" ++ id) None)))
    with false.
  change (Track_isURI ("spotify:track:" ++ id)) with true. cbv iota.
  unfold Track_fetchTrack, bind, request. rewrite (Track_id_uri id Hid).
  cbn [ident_to_string]. fold (track_request id).
  fold (after_request (track_request id) w).
  destruct (request_track env (track_request id)); reflexivity.
Qed.

(** X15. A track URI and a link to the same track give the same id, and their
    dispatch makes the same single request, for the track itself; neither
    is searched for. *)
Theorem uri_and_link_make_one_request (env : Environment) (id : string)
    (w : World) :
  string_forallb is_alnum id = true ->
  let uri := Track_new ("spotify:track:" ++ id) None in
  let link := Track_new ("https://open.spotify.com/track/" ++ id) None in
  Track_id uri = IdString id /\
  Track_id link = IdString id /\
  snd (Track_dispatch env uri w) = after_request (track_request id) w /\
  snd (Track_dispatch env link w) = after_request (track_request id) w.
Proof.
  intros Hid uri link.
  assert (Hlink : Track_entry link =
                  ("https://open.spotify.com/track/" ++ id)%string).
  { apply trim_printable. rewrite printable_append, (alnum_printable id Hid).
    reflexivity. }
  assert (H2 : Track_id link = IdString id).
  { unfold Track_id. rewrite Hlink.
    change (response_id (Track_response link)) with (@None string).
    change (response_id (Track_responseSimple link)) with (@None string).
    change (Track_isURI ("https://open.spotify.com/track/" ++ id)) with false.
    change (Track_isLink ("https://open.spotify.com/track/" ++ id)) with true.
    cbv iota.
    change ("https://open.spotify.com/track/" ++ id)%string
      with ("https:" ++ String "/" ("" ++ String "/" ("open.spotify.com" ++
            String "/" ("track" ++ String "/" id))))%string.
    rewrite !split_at_separator by reflexivity.
    rewrite (split_at_whole _ id (alnum_not_slash id Hid)). reflexivity. }
  split; [now apply Track_id_uri|]. split; [exact H2|]. split.
  - unfold uri. now rewrite Track_dispatch_uri.
  - unfold Track_dispatch. rewrite Hlink.
    change (truthy_object (Track_response link)) with false.
    change (truthy_object (Track_responseSimple link)) with false.
    change (Track_isURI ("https://open.spotify.com/track/" ++ id)) with false.
    change (Track_isLink ("https://open.spotify.com/track/" ++ id)) with true.
    cbv iota.
    unfold Track_fetchTrack, bind, request. rewrite H2.
    destruct (request_track env _); reflexivity.
Qed.

Lemma uri_and_link_make_one_request_witness :
  string_forallb is_alnum "4uLU6hMCjMI75M1A2tKUQC" = true /\
  Track_id (Track_new "spotify:track:4uLU6hMCjMI75M1A2tKUQC" None) =
    IdString "4uLU6hMCjMI75M1A2tKUQC" /\
  Track_id
    (Track_new "https://open.spotify.com/track/4uLU6hMCjMI75M1A2tKUQC" None) =
    IdString "4uLU6hMCjMI75M1A2tKUQC".
Proof.
  split; [reflexivity|].
  pose proof (uri_and_link_make_one_request one_track
                "4uLU6hMCjMI75M1A2tKUQC" empty_world eq_refl) as H.
  split; [exact (proj1 H) | exact (proj1 (proj2 H))].
Defined.

(* ================================================================== *)
(** * Album and Artist *)
(* ================================================================== *)

(** X16. An album that cannot be found is reported and left out: the search is
    the only request, [COULD NOT FIND] and the entry text are printed, and
    the queue is dispatched as if the album were not in it. *)
Theorem album_not_found_is_skipped (env : Environment) (r : nat) (a : Album)
    (rest : list item) (w : World) :
  Album_searchResponse a = None ->
  Album_albumResponse a = None ->
  Album_isSearchResponse
    (request_album_search env (album_search_request (Album_entry a))) = false ->
  Queue_dispatch env (IAlbum r a :: rest) w =
  Queue_dispatch env rest
    (after_output [album_search_request (Album_entry a)]
       [album_search_request (Album_entry a);
        ("COULD NOT FIND " ++ Album_entry a)%string] w).
Proof.
  intros Hsearch Halbum Hmiss.
  unfold Queue_dispatch, Queue_resolveAll.
  cbn [resolve_loop item_dispatch].
  unfold Album_dispatch. rewrite Hsearch, Halbum. cbn [truthy_object].
  unfold Album_searchForAlbum, bind, catch, request, console_log, throw.
  fold (album_search_request (Album_entry a)).
  destruct (request_album_search env (album_search_request (Album_entry a)))
    as [response|]; cbv beta iota.
  - rewrite Hmiss. unfold after_output. cbn [next_ref requests console].
    now rewrite <- app_assoc.
  - unfold after_output. cbn [next_ref requests console].
    now rewrite <- app_assoc.
Qed.

Lemma album_not_found_is_skipped_witness :
  Queue_dispatch no_hits [IAlbum 0 (Album_new "Kid A" None)] empty_world =
  (Resolved [],
   after_output [album_search_request "Kid A"]
     [album_search_request "Kid A"; "COULD NOT FIND Kid A"] empty_world).
Proof.
  exact (album_not_found_is_skipped no_hits 0 (Album_new "Kid A" None) []
           empty_world eq_refl eq_refl eq_refl).
Defined.

Lemma Album_createTracks_numbered (entry : string) (tracks : list TrackObject) :
  forall w,
    Album_createTracks entry tracks w =
      (Resolved (numbered entry (next_ref w) tracks),
       after_allocs (length tracks) w).
Proof.
  induction tracks as [|track rest IH]; intros w.
  - simpl. unfold ret. now rewrite after_allocs_zero.
  - cbn [Album_createTracks numbered length]. unfold bind, alloc.
    rewrite IH. unfold ret. cbn [next_ref]. f_equal.
    unfold after_allocs. cbn [next_ref requests console]. f_equal. lia.
Qed.

(** X17. An album that is found gives one Track per listed track, in the order
    of the listing, each with the entry text of the album; two requests are
    made, the search and the album of the first hit. *)
Theorem album_gives_its_tracks_in_order (env : Environment) (a : Album)
    (id : string) (hit album : AlbumObject) (hits : list AlbumObject)
    (tracks : list TrackObject) (w : World) :
  Album_searchResponse a = None ->
  Album_albumResponse a = None ->
  request_album_search env (album_search_request (Album_entry a)) =
    Some {| albums_items := Some (hit :: hits) |} ->
  album_id hit = Some id ->
  truthy_string (Some id) = true ->
  request_album env (album_request id) = Some album ->
  has_id album = true ->
  album_tracks album = Some tracks ->
  Album_dispatch env a w =
    (Resolved (IQueue (next_ref w)
                 (numbered (Album_entry a) (S (next_ref w)) tracks)),
     after_allocs (S (length tracks))
       (after_output
          [album_search_request (Album_entry a); album_request id]
          [album_search_request (Album_entry a); album_request id] w)).
Proof.
  intros Hsearch Halbum Hfound Hid Htruthy Hfetch Hhas Htracks.
  unfold Album_dispatch. rewrite Hsearch, Halbum. cbn [truthy_object].
  unfold Album_searchForAlbum, bind, catch, request.
  fold (album_search_request (Album_entry a)). rewrite Hfound.
  cbv beta iota.
  unfold Album_isSearchResponse at 1. cbn [albums_items]. rewrite Hid, Htruthy.
  unfold ret at 1. cbv beta iota.
  unfold Album_fetchAlbum, bind, request.
  unfold Album_id. cbn [Album_albumResponse Album_searchResponse Album_entry].
  rewrite Halbum. cbn [Album_isAlbumResponse].
  unfold Album_isSearchResponse. cbn [albums_items]. rewrite Hid, Htruthy.
  cbn [string_or_undefined ident_to_string]. fold (album_request id).
  rewrite Hfetch. cbv beta iota.
  unfold has_id in Hhas. rewrite Hhas. unfold ret at 1. cbv beta iota.
  cbn [fst snd]. unfold Album_createQueue. rewrite Htracks.
  unfold bind, alloc. rewrite Album_createTracks_numbered.
  unfold ret. cbn [next_ref Album_entry]. f_equal.
  unfold after_allocs, after_output. cbn [next_ref requests console].
  rewrite <- !app_assoc. f_equal. lia.
Qed.

Lemma album_gives_its_tracks_in_order_witness :
  Album_dispatch one_album (Album_new "Kid A" None) empty_world =
    (Resolved (IQueue 0 (numbered "Kid A" 1
                           [simple_track "4uLU6hMCjMI75M1A2tKUQC" "Idioteque"
                              "Radiohead";
                            simple_track "2nTsKOXIVGDf2iPeVQO2Gm" "Optimistic"
                              "Radiohead"])),
     after_allocs 3
       (after_output
          [album_search_request "Kid A"; album_request "6GjwtEZcfenmOf6l18N7T7"]
          [album_search_request "Kid A"; album_request "6GjwtEZcfenmOf6l18N7T7"]
          empty_world)).
Proof.
  exact (album_gives_its_tracks_in_order one_album (Album_new "Kid A" None)
           "6GjwtEZcfenmOf6l18N7T7"
           {| album_id := Some "6GjwtEZcfenmOf6l18N7T7"; album_tracks := None |}
           kid_a [] _ empty_world
           eq_refl eq_refl eq_refl eq_refl eq_refl eq_refl eq_refl eq_refl).
Defined.

Lemma resolve_loop_all_rejected {A : Type} (fn : A -> M item) (queue : list A) :
  Forall (fun entry => forall w, exists err w', fn entry w = (Rejected err, w'))
    queue ->
  forall (result : list item) (w : World),
    exists w', resolve_loop fn queue result w = (Resolved result, w').
Proof.
  induction 1 as [|entry rest Hentry _ IH]; intros result w.
  - simpl. unfold ret. eauto.
  - cbn [resolve_loop]. destruct (Hentry w) as (err & w1 & ->). apply IH.
Qed.

(** The Album [createQueue] of Artist makes of a listed album that has an
    [id] holds an album response, so that [dispatch] fetches the album and
    then calls [createQueue] on the global object. *)
Lemma listed_album_is_rejected (env : Environment) (entry : string)
    (album : AlbumObject) (w : World) :
  has_id album = true ->
  exists err w',
    Album_dispatch env (Album_new entry (Some album)) w = (Rejected err, w').
Proof.
  intros Hid. unfold has_id in Hid.
  unfold Album_dispatch, Album_new.
  cbn [Album_searchResponse Album_albumResponse Album_isAlbumResponse
       truthy_object].
  rewrite Hid. cbn [truthy_object].
  unfold Album_fetchAlbum, bind, request.
  destruct (request_album env _) as [response|]; [|eauto].
  destruct (Album_isAlbumResponse (Some response));
    unfold ret, throw, Album_createQueue; cbn [fst snd]; unfold throw; eauto.
Qed.

Lemma Artist_createAlbums_listed (entry : string) (albums : list AlbumObject) :
  forallb has_id albums = true ->
  forall w, exists queue w',
    Artist_createAlbums entry albums w = (Resolved queue, w') /\
    Forall (fun e => exists album,
                has_id album = true /\ snd e = Album_new entry (Some album))
      queue.
Proof.
  induction albums as [|album rest IH]; intros Hids w.
  - exists [], w. split; [reflexivity | constructor].
  - simpl in Hids. apply andb_true_iff in Hids as [Hid Hrest].
    cbn [Artist_createAlbums]. unfold bind, alloc.
    destruct (IH Hrest (after_alloc w)) as (queue & w' & Hrun & Hall).
    fold (after_alloc w). rewrite Hrun. unfold ret.
    do 2 eexists. split; [reflexivity|].
    constructor; [exists album; split; [assumption | reflexivity] | assumption].
Qed.

(** X18. An artist whose albums are listed with their ids gives no track: every
    album is fetched and then lost, and the artist resolves with an empty
    queue. *)
Theorem artist_albums_are_lost (env : Environment) (a : Artist) (e : item)
    (w w' : World) :
  lists_albums_with_ids env ->
  Artist_dispatch env a w = (Resolved e, w') ->
  exists r, e = IQueue r [].
Proof.
  intros Hids. unfold Artist_dispatch, bind.
  destruct (Artist_searchForArtist env a (Artist_entry a) w)
    as [[a1|err] w1]; [|discriminate].
  unfold Artist_fetchAlbums, bind, request.
  destruct (request_artist_albums env _) as [response|] eqn:Hlisting;
    [|discriminate].
  destruct (truthy_object (items response)); [|discriminate].
  unfold ret at 1. cbn [fst snd]. unfold Artist_createQueue.
  destruct (items response) as [albums|] eqn:Hitems; [|discriminate].
  unfold bind, alloc.
  match goal with
  | |- context [Artist_createAlbums ?entry albums ?v] =>
      destruct (Artist_createAlbums_listed entry albums
                  (Hids _ _ _ Hlisting Hitems) v)
        as (queue & w2 & -> & Hall)
  end.
  unfold Queue_resolveAll.
  destruct (resolve_loop_all_rejected
              (fun entry => Album_dispatch env (snd entry)) queue) with
    (result := @nil item) (w := w2) as (w3 & ->).
  { eapply Forall_impl; [|exact Hall].
    intros entry (album & Hid & ->) v. now apply listed_album_is_rejected. }
  unfold ret. intros H. injection H as <- _. eauto.
Qed.

Lemma one_album_lists_ids : lists_albums_with_ids one_album.
Proof.
  intros url response albums Hresponse Hitems. simpl in Hresponse.
  injection Hresponse as <-. simpl in Hitems. injection Hitems as <-.
  reflexivity.
Defined.

Lemma artist_albums_are_lost_witness :
  lists_albums_with_ids one_album /\
  Artist_dispatch one_album (Artist_new "Radiohead") empty_world =
    (Resolved (IQueue 2 []),
     snd (Artist_dispatch one_album (Artist_new "Radiohead") empty_world)) /\
  exists r, IQueue 2 [] = IQueue r [].
Proof.
  split; [exact one_album_lists_ids|]. split; [reflexivity|].
  exact (artist_albums_are_lost one_album (Artist_new "Radiohead")
           (IQueue 2 []) empty_world
           (snd (Artist_dispatch one_album (Artist_new "Radiohead")
                   empty_world))
           one_album_lists_ids eq_refl).
Defined.

(* ================================================================== *)
(** * The pipeline *)
(* ================================================================== *)

(** ** What [fetchTracks] leaves in the queue *)

Lemma resolve_loop_invariant {A : Type} (Q : item -> Prop) (fn : A -> M item)
    (queue : list A) :
  Forall (fun e => forall w v w', fn e w = (Resolved v, w') -> Q v) queue ->
  forall acc w l w',
    Forall Q acc ->
    resolve_loop fn queue acc w = (Resolved l, w') ->
    Forall Q l.
Proof.
  induction 1 as [|entry rest Hentry _ IH]; intros acc w l w' Hacc.
  - simpl. unfold ret. intros H. now injection H as <- _.
  - cbn [resolve_loop]. destruct (fn entry w) as [[value|err] w1] eqn:Hfn.
    + apply IH. unfold Queue_add. apply Forall_app. split; [exact Hacc|].
      constructor; [now apply (Hentry w value w1) | constructor].
    + now apply IH.
Qed.

Lemma yields_fetched_queue (r : nat) (q : list item) :
  Forall yields_fetched q -> yields_fetched (IQueue r q).
Proof.
  unfold yields_fetched. cbn [flatten_item].
  induction 1 as [|e rest He _ IH]; [reflexivity|].
  simpl. now rewrite forallb_app, He, IH.
Qed.

Lemma numbered_fetched (entry : string) (tracks : list TrackObject) :
  forall r, Forall yields_fetched (numbered entry r tracks).
Proof.
  induction tracks as [|track rest IH]; intros r; constructor; [|apply IH].
  unfold yields_fetched, Track_new. cbn [flatten_item forallb fetched].
  destruct (Track_isFullResponse (Some track)); reflexivity.
Qed.

Lemma Album_createQueue_fetched (this : receiver Album) (response : AlbumObject)
    (w : World) (v : item) (w' : World) :
  Album_createQueue this response w = (Resolved v, w') -> yields_fetched v.
Proof.
  unfold Album_createQueue. destruct this as [a|]; [|discriminate].
  destruct (album_tracks response) as [tracks|]; [|discriminate].
  unfold bind, alloc. rewrite Album_createTracks_numbered. unfold ret.
  intros H. injection H as <- _.
  apply yields_fetched_queue, numbered_fetched.
Qed.

Lemma Album_dispatch_fetched (env : Environment) (a : Album) (w : World)
    (v : item) (w' : World) :
  Album_dispatch env a w = (Resolved v, w') -> yields_fetched v.
Proof.
  unfold Album_dispatch, bind.
  destruct (truthy_object (Album_searchResponse a)).
  - destruct (Album_fetchAlbum env a w) as [[ar|err] w1]; [|discriminate].
    apply Album_createQueue_fetched.
  - destruct (truthy_object (Album_albumResponse a)).
    + destruct (Album_fetchAlbum env a w) as [[ar|err] w1]; [|discriminate].
      apply Album_createQueue_fetched.
    + destruct (Album_searchForAlbum env a (Album_entry a) w)
        as [[a1|err] w1]; [|discriminate].
      destruct (Album_fetchAlbum env a1 w1) as [[ar|err] w2]; [|discriminate].
      apply Album_createQueue_fetched.
Qed.

Lemma Artist_dispatch_fetched (env : Environment) (a : Artist) (w : World)
    (v : item) (w' : World) :
  Artist_dispatch env a w = (Resolved v, w') -> yields_fetched v.
Proof.
  unfold Artist_dispatch, bind.
  destruct (Artist_searchForArtist env a (Artist_entry a) w)
    as [[a1|err] w1]; [|discriminate].
  destruct (Artist_fetchAlbums env a1 w1) as [[ar|err] w2]; [|discriminate].
  unfold Artist_createQueue.
  destruct (items (snd ar)) as [albums|]; [|discriminate].
  unfold bind, alloc, Queue_resolveAll.
  destruct (Artist_createAlbums _ albums _) as [[queue|err] w3]; [|discriminate].
  destruct (resolve_loop _ queue [] w3) as [[result|err] w4] eqn:Hloop;
    [|discriminate].
  unfold ret. intros H. injection H as <- _.
  apply yields_fetched_queue.
  apply (resolve_loop_invariant yields_fetched _ queue) with (3 := Hloop);
    [|constructor].
  apply Forall_forall. intros entry _ v1 value v2.
  apply Album_dispatch_fetched.
Qed.

Lemma item_dispatch_fetched (env : Environment) (e : item) :
  forall w v w', item_dispatch env e w = (Resolved v, w') -> yields_fetched v.
Proof.
  induction e as [r t|r a|r a|r q IH|] using item_nested_ind; intros w v w'.
  - cbn [item_dispatch]. unfold bind.
    destruct (Track_dispatch env t w) as [[[t1|]|err] w1] eqn:Hdispatch;
      unfold ret; try discriminate; intros H; injection H as <- _;
      [|reflexivity].
    unfold yields_fetched. cbn [flatten_item forallb fetched].
    destruct (Track_dispatch_result env t t1 w w1 Hdispatch)
      as [[[-> _] _] | [_ ->]]; [reflexivity | now rewrite orb_true_r].
  - apply Album_dispatch_fetched.
  - apply Artist_dispatch_fetched.
  - cbn [item_dispatch]. unfold bind, Queue_resolveAll.
    destruct (resolve_loop (item_dispatch env) q [] w)
      as [[result|err] w1] eqn:Hloop; [|discriminate].
    unfold alloc, ret. intros H. injection H as <- _.
    apply yields_fetched_queue.
    apply (resolve_loop_invariant yields_fetched _ q) with (3 := Hloop);
      [exact IH | constructor].
  - discriminate.
Qed.

(** X19. [fetchTracks] always resolves, and it leaves nothing in the queue but
    Tracks that hold a response and [undefined]: no Album, no Artist and no
    nested queue, whatever the queue held and whatever the service
    answered. *)
Theorem fetchTracks_leaves_tracks (env : Environment) (p : Playlist)
    (w : World) :
  exists q w',
    Playlist_fetchTracks env p w = (Resolved (set_entries q p), w') /\
    forallb fetched q = true.
Proof.
  unfold Playlist_fetchTracks, Queue_dispatch, Queue_resolveAll, bind.
  destruct (resolve_loop_resolves (item_dispatch env) (Playlist_entries p) [] w)
    as (l & w' & Hloop).
  rewrite Hloop. unfold ret. exists (Queue_flatten l), w'.
  split; [reflexivity|].
  assert (Hall : Forall yields_fetched l).
  { apply (resolve_loop_invariant yields_fetched _ (Playlist_entries p))
      with (3 := Hloop); [|constructor].
    apply Forall_forall. intros e _. apply item_dispatch_fetched. }
  clear Hloop. unfold Queue_flatten, yields_fetched in *.
  induction Hall as [|e rest He _ IH]; [reflexivity|].
  simpl. now rewrite forallb_app, He, IH.
Qed.

(** ** The order of the requests *)

Lemma resolve_loop_accumulates {A : Type} (fn : A -> M item) (queue : list A) :
  forall w, exists l w',
    forall acc, resolve_loop fn queue acc w = (Resolved (acc ++ l), w').
Proof.
  induction queue as [|entry rest IH]; intros w.
  - exists [], w. intros acc. simpl. unfold ret. now rewrite app_nil_r.
  - cbn [resolve_loop]. destruct (fn entry w) as [[value|err] w1].
    + destruct (IH w1) as (l & w' & Hloop). exists (value :: l), w'.
      intros acc. rewrite Hloop. unfold Queue_add.
      now rewrite <- app_assoc.
    + destruct (IH w1) as (l & w' & Hloop). exists l, w'. exact Hloop.
Qed.

Lemma resolve_loop_app {A : Type} (fn : A -> M item) (q1 q2 : list A) :
  forall acc w,
    resolve_loop fn (q1 ++ q2) acc w =
    match resolve_loop fn q1 acc w with
    | (Resolved acc', w') => resolve_loop fn q2 acc' w'
    | (Rejected err, w') => (Rejected err, w')
    end.
Proof.
  induction q1 as [|entry rest IH]; intros acc w; [reflexivity|].
  cbn [app resolve_loop]. destruct (fn entry w) as [[value|err] w1]; apply IH.
Qed.

(** X20. The entries are dispatched one after the other, in the order of the
    queue: dispatching two queues put together is dispatching the first
    one, then the second one in the state the first one left, and the
    results come in that order. *)
Theorem resolveAll_is_sequential {A : Type} (fn : A -> M item)
    (q1 q2 : list A) (w : World) :
  exists r1 w1 r2 w2,
    Queue_resolveAll fn q1 w = (Resolved r1, w1) /\
    Queue_resolveAll fn q2 w1 = (Resolved r2, w2) /\
    Queue_resolveAll fn (q1 ++ q2) w = (Resolved (r1 ++ r2), w2).
Proof.
  unfold Queue_resolveAll.
  destruct (resolve_loop_accumulates fn q1 w) as (r1 & w1 & H1).
  destruct (resolve_loop_accumulates fn q2 w1) as (r2 & w2 & H2).
  exists r1, w1, r2, w2. rewrite resolve_loop_app, (H1 []), (H2 []).
  cbn [app]. now rewrite (H2 r1).
Qed.

(** ** Last.fm *)

Lemma Playlist_fetchLastfm_map (env : Environment) (p : Playlist)
    (w : World) :
  Playlist_fetchLastfm env p w =
    (Resolved (set_entries (map (with_lastfm env) (Playlist_entries p)) p), w).
Proof.
  unfold Playlist_fetchLastfm, bind.
  assert (Hloop : forall queue,
             update_loop (item_fetchLastfm env) queue w =
               (Resolved (map (with_lastfm env) queue), w)).
  { induction queue as [|e rest IH]; [reflexivity|].
    cbn [update_loop map].
    destruct e as [r t| | | |];
      try (cbn [item_fetchLastfm with_lastfm]; unfold throw, bind;
           rewrite IH; reflexivity).
    cbn [item_fetchLastfm with_lastfm]. unfold bind at 1, Track_fetchLastfm.
    destruct (getInfo env (Track_artist t) (Track_title t)) as [info|];
      unfold ret, throw, bind; rewrite IH; reflexivity. }
  rewrite Hloop. reflexivity.
Qed.
Lemma Queue_sort_permutation (fn : item -> item -> outcome Z)
    (queue result : list item) :
  Queue_sort fn queue = Resolved result -> Permutation queue result.
Proof.
  unfold Queue_sort.
  destruct (sort_defined fn (filter (fun e => negb (is_undefined e)) queue))
    as [sorted|] eqn:Hs; [|discriminate].
  simpl. intros H. injection H as <-.
  apply sort_defined_permutation in Hs. rewrite <- Hs.
  apply filter_split_permutation.
Qed.

(** X21. Ordering by Last.fm never drops an entry: [fetchLastfm] keeps the queue
    as it is, entry by entry (a Track for which Last.fm answers holds the
    answer, every other entry stays at its place unchanged, also a Track
    for which the lookup fails), and the ordered queue is that queue
    rearranged. *)
Theorem order_by_lastfm_keeps_every_entry (env : Environment) (p p' : Playlist)
    (w w' : World) :
  Playlist_ordering p = OrderLastfm ->
  Playlist_order env p w = (Resolved p', w') ->
  Playlist_fetchLastfm env p w =
    (Resolved (set_entries (map (with_lastfm env) (Playlist_entries p)) p), w) /\
  Permutation (map (with_lastfm env) (Playlist_entries p)) (Playlist_entries p') /\
  length (Playlist_entries p') = length (Playlist_entries p) /\
  w' = w.
Proof.
  intros Hordering. unfold Playlist_order. rewrite Hordering.
  unfold bind. rewrite Playlist_fetchLastfm_map.
  unfold lift, Playlist_orderByLastfm. cbn [Playlist_entries set_entries].
  destruct (Queue_sort by_lastfm (map (with_lastfm env) (Playlist_entries p)))
    as [sorted|err] eqn:Hsort; [|discriminate].
  cbn [obind]. intros H. injection H as <- <-.
  apply Queue_sort_permutation in Hsort.
  split; [reflexivity|]. split; [exact Hsort|]. split; [|reflexivity].
  cbn [Playlist_entries set_entries].
  now rewrite <- (Permutation_length Hsort), length_map.
Qed.

Lemma order_by_lastfm_keeps_every_entry_witness :
  Playlist_ordering lastfm_playlist = OrderLastfm /\
  Playlist_order no_hits lastfm_playlist empty_world =
    (Resolved lastfm_playlist, empty_world) /\
  Permutation (map (with_lastfm no_hits) (Playlist_entries lastfm_playlist))
    (Playlist_entries lastfm_playlist).
Proof.
  split; [reflexivity|]. split; [reflexivity|].
  exact (proj1 (proj2 (order_by_lastfm_keeps_every_entry no_hits
                         lastfm_playlist lastfm_playlist empty_world
                         empty_world eq_refl eq_refl))).
Defined.

(** ** How a run can fail *)

Lemma obind_TypeError {A B : Type} (r : outcome A) (k : A -> outcome B) :
  throws_only_TypeError r ->
  (forall a, throws_only_TypeError (k a)) ->
  throws_only_TypeError (obind r k).
Proof.
  intros Hr Hk err. destruct r as [a|e]; simpl; [apply Hk|].
  intros H. injection H as <-. now apply Hr.
Qed.

Lemma Resolved_TypeError {A : Type} (a : A) : throws_only_TypeError (Resolved a).
Proof. intros err H. discriminate. Qed.

Lemma Rejected_TypeError {A : Type} :
  throws_only_TypeError (@Rejected A TypeError).
Proof. intros err H. now injection H as <-. Qed.

Lemma bind_TypeError {A B : Type} (m : M A) (k : A -> M B) :
  rejects_only_with_TypeError m ->
  (forall a, rejects_only_with_TypeError (k a)) ->
  rejects_only_with_TypeError (bind m k).
Proof.
  intros Hm Hk w err w'. unfold bind.
  destruct (m w) as [[a|e] w1] eqn:Hrun; [apply Hk|].
  intros H. injection H as <- _. now apply Hm in Hrun.
Qed.

Lemma ret_TypeError {A : Type} (a : A) : rejects_only_with_TypeError (ret a).
Proof. intros w err w' H. discriminate. Qed.

Lemma lift_TypeError {A : Type} (r : outcome A) :
  throws_only_TypeError r -> rejects_only_with_TypeError (lift r).
Proof. intros Hr w err w'. unfold lift. intros H. injection H as H _. auto. Qed.

Lemma item_toString_TypeError (obj : item) :
  throws_only_TypeError (item_toString obj).
Proof. destruct obj; intros err H; simpl in H; congruence. Qed.

Lemma entry_matches_TypeError (entry obj : item) :
  throws_only_TypeError (entry_matches entry obj).
Proof.
  destruct entry; cbn [entry_matches];
    try apply Resolved_TypeError; try apply Rejected_TypeError.
  apply obind_TypeError; [|intros; apply Resolved_TypeError].
  unfold Track_equals. apply obind_TypeError;
    [apply item_toString_TypeError | intros; apply Resolved_TypeError].
Qed.

Lemma Queue_contains_TypeError (queue : list item) (obj : item) :
  throws_only_TypeError (Queue_contains queue obj).
Proof.
  induction queue as [|entry rest IH]; cbn [Queue_contains];
    [apply Resolved_TypeError|].
  apply obind_TypeError; [apply entry_matches_TypeError|].
  intros [|]; [apply Resolved_TypeError | exact IH].
Qed.

Lemma dedup_loop_TypeError (queue : list item) :
  forall result, throws_only_TypeError (dedup_loop queue result).
Proof.
  induction queue as [|entry rest IH]; intros result; cbn [dedup_loop];
    [apply Resolved_TypeError|].
  apply obind_TypeError; [apply Queue_contains_TypeError | intros; apply IH].
Qed.

Lemma Playlist_dedup_TypeError (p : Playlist) :
  throws_only_TypeError (Playlist_dedup p).
Proof.
  unfold Playlist_dedup, Queue_dedup.
  destruct (Playlist_unique p); [|apply Resolved_TypeError].
  apply obind_TypeError;
    [apply dedup_loop_TypeError | intros; apply Resolved_TypeError].
Qed.

Lemma sort_insert_TypeError (fn : item -> item -> outcome Z) (x : item)
    (sorted : list item) :
  (forall a b, throws_only_TypeError (fn a b)) ->
  throws_only_TypeError (sort_insert fn x sorted).
Proof.
  intros Hfn. induction sorted as [|y rest IH]; cbn [sort_insert];
    [apply Resolved_TypeError|].
  apply obind_TypeError; [apply Hfn|]. intros v.
  destruct (v <=? 0)%Z; [apply Resolved_TypeError|].
  apply obind_TypeError; [exact IH | intros; apply Resolved_TypeError].
Qed.

Lemma Queue_sort_TypeError (fn : item -> item -> outcome Z) (queue : list item) :
  (forall a b, throws_only_TypeError (fn a b)) ->
  throws_only_TypeError (Queue_sort fn queue).
Proof.
  intros Hfn. unfold Queue_sort.
  apply obind_TypeError; [|intros; apply Resolved_TypeError].
  induction (filter (fun e => negb (is_undefined e)) queue) as [|x rest IH];
    cbn [sort_defined]; [apply Resolved_TypeError|].
  apply obind_TypeError; [exact IH | intros; now apply sort_insert_TypeError].
Qed.

Lemma item_popularity_TypeError (a : item) :
  throws_only_TypeError (item_popularity a).
Proof. destruct a; intros err H; simpl in H; congruence. Qed.

Lemma item_lastfm_TypeError (a : item) : throws_only_TypeError (item_lastfm a).
Proof.
  destruct a as [r t| | | |]; try (intros err H; simpl in H; congruence).
  cbn [item_lastfm]. unfold Track_lastfm. intros err.
  destruct (Track_lastfmResponse t) as [info|]; [|discriminate].
  destruct (lastfm_track info) as [tr|]; [|congruence].
  destruct (playcount tr); discriminate.
Qed.

Lemma by_popularity_TypeError (a b : item) :
  throws_only_TypeError (by_popularity a b).
Proof.
  unfold by_popularity.
  repeat (apply obind_TypeError; [apply item_popularity_TypeError | intros]).
  apply Resolved_TypeError.
Qed.

Lemma by_lastfm_TypeError (a b : item) : throws_only_TypeError (by_lastfm a b).
Proof.
  unfold by_lastfm.
  repeat (apply obind_TypeError; [apply item_lastfm_TypeError | intros]).
  apply Resolved_TypeError.
Qed.

Lemma Queue_group_TypeError (env : Environment) (fn : item -> outcome string)
    (queue : list item) :
  (forall e, throws_only_TypeError (fn e)) ->
  throws_only_TypeError (Queue_group env fn queue).
Proof.
  intros Hfn. unfold Queue_group.
  apply obind_TypeError; [|intros; apply Resolved_TypeError].
  generalize {| indexed := []; named := [] |}.
  induction queue as [|entry rest IH]; intros map; cbn [group_loop];
    [apply Resolved_TypeError|].
  apply obind_TypeError; [apply Hfn|]. intros key.
  apply obind_TypeError; [|intros; apply IH].
  unfold table_push. destruct (array_property env key);
    [apply Rejected_TypeError|].
  destruct (array_index key); apply Resolved_TypeError.
Qed.

Lemma key_TypeError (e : item) :
  throws_only_TypeError (artist_key e) /\
  throws_only_TypeError (entry_key e).
Proof. split; destruct e; intros err H; simpl in H; congruence. Qed.

Lemma update_loop_resolves (fn : item -> M item) (queue : list item) :
  forall w, exists l w', update_loop fn queue w = (Resolved l, w').
Proof.
  induction queue as [|entry rest IH]; intros w; cbn [update_loop].
  - unfold ret. eauto.
  - destruct (fn entry w) as [[entry'|err] w1]; unfold bind;
      destruct (IH w1) as (l & w' & ->); unfold ret; eauto.
Qed.

Lemma resolves_TypeError {A : Type} (m : M A) :
  (forall w, exists a w', m w = (Resolved a, w')) ->
  rejects_only_with_TypeError m.
Proof. intros Hm w err w' H. destruct (Hm w) as (a & w1 & Ha). congruence. Qed.

Lemma Playlist_refreshTracks_TypeError (env : Environment) (p : Playlist) :
  rejects_only_with_TypeError (Playlist_refreshTracks env p).
Proof.
  apply resolves_TypeError. intros w.
  destruct (Playlist_refreshTracks_resolves env p w) as (q & w' & H). eauto.
Qed.

Lemma Playlist_order_TypeError (env : Environment) (p : Playlist) :
  rejects_only_with_TypeError (Playlist_order env p).
Proof.
  unfold Playlist_order. destruct (Playlist_ordering p).
  - apply ret_TypeError.
  - apply bind_TypeError; [apply Playlist_refreshTracks_TypeError|].
    intros p'. apply lift_TypeError. unfold Playlist_orderByPopularity.
    apply obind_TypeError; [|intros; apply Resolved_TypeError].
    apply Queue_sort_TypeError, by_popularity_TypeError.
  - apply bind_TypeError.
    + apply resolves_TypeError. intros w. unfold Playlist_fetchLastfm, bind.
      destruct (update_loop_resolves (item_fetchLastfm env)
                  (Playlist_entries p) w) as (l & w' & ->).
      unfold ret. eauto.
    + intros p'. apply lift_TypeError. unfold Playlist_orderByLastfm.
      apply obind_TypeError; [|intros; apply Resolved_TypeError].
      apply Queue_sort_TypeError, by_lastfm_TypeError.
Qed.

Lemma Playlist_group_TypeError (env : Environment) (p : Playlist) :
  rejects_only_with_TypeError (Playlist_group env p).
Proof.
  unfold Playlist_group. destruct (Playlist_grouping p).
  - apply ret_TypeError.
  - apply lift_TypeError. unfold Playlist_groupByEntry.
    apply obind_TypeError; [|intros; apply Resolved_TypeError].
    apply Queue_group_TypeError. intros e. apply key_TypeError.
  - apply lift_TypeError. unfold Playlist_groupByArtist.
    apply obind_TypeError; [|intros; apply Resolved_TypeError].
    apply Queue_group_TypeError. intros e. apply key_TypeError.
  - apply bind_TypeError; [apply Playlist_refreshTracks_TypeError|].
    intros p'. apply bind_TypeError; [|intros; apply ret_TypeError].
    apply lift_TypeError. cbn [Playlist_groupByAlbum]. apply Rejected_TypeError.
Qed.

(** X22. A failed request never makes the run fail: whatever the text and
    whatever the services answer, the promise of [dispatch] resolves or is
    rejected with a TypeError of the program itself. *)
Theorem run_fails_only_with_TypeError (env : Environment) (str : string)
    (w : World) (err : error) (w' : World) :
  run env str w = (Rejected err, w') -> err = TypeError.
Proof.
  revert w err w'.
  change (rejects_only_with_TypeError (run env str)).
  unfold run. apply bind_TypeError.
  - apply resolves_TypeError. intros w. unfold Playlist_new.
    destruct (negb (is_empty (trim str))); [|unfold ret; eauto].
    destruct (Playlist_lines_invariants
                (split_at is_line_terminator (trim str))
                {| Playlist_ordering := OrderNull;
                   Playlist_grouping := GroupTrue;
                   Playlist_unique := true;
                   Playlist_entries := [] |} w)
      as (p' & added & Hrun & _).
    eauto.
  - intros playlist. unfold Playlist_dispatch.
    apply bind_TypeError.
    { apply resolves_TypeError. intros w.
      unfold Playlist_fetchTracks, Queue_dispatch, Queue_resolveAll, bind.
      destruct (resolve_loop_resolves (item_dispatch env)
                  (Playlist_entries playlist) [] w) as (l & w' & ->).
      unfold ret. eauto. }
    intros p1. apply bind_TypeError;
      [apply lift_TypeError, Playlist_dedup_TypeError|].
    intros p2. apply bind_TypeError; [apply Playlist_order_TypeError|].
    intros p3. apply bind_TypeError; [apply Playlist_group_TypeError|].
    intros p4. unfold Playlist_toString.
    apply bind_TypeError; [|intros; apply ret_TypeError].
    intros w err w'. apply toString_loop_rejection.
Qed.

Lemma run_fails_only_with_TypeError_witness :
  run no_hits "foo" empty_world =
    (Rejected TypeError, snd (run no_hits "foo" empty_world)) /\
  TypeError = TypeError.
Proof.
  split; [reflexivity|].
  exact (run_fails_only_with_TypeError no_hits "foo" empty_world TypeError
           (snd (run no_hits "foo" empty_world)) eq_refl).
Defined.

(** ** A track line, from the text to the output *)

Lemma not_space_not_terminator (s : string) :
  printable s = true ->
  string_forallb (fun c => negb (is_line_terminator c)) s = true.
Proof.
  unfold printable. induction s as [|c s IH]; [reflexivity|].
  cbn [string_forallb]. intros H. apply andb_true_iff in H as [Hc Hs].
  rewrite (IH Hs), andb_true_r. revert Hc.
  destruct c as [[] [] [] [] [] [] [] []]; vm_compute; congruence.
Qed.

(** X23. The line of a track URI the service knows costs one request, and the
    output is the URI the service gave for the track. *)
Theorem track_line_gives_its_uri (env : Environment) (id u : string)
    (body : TrackObject) (w : World) :
  string_forallb is_alnum id = true ->
  request_track env (track_request id) = Some body ->
  track_uri body = Some u ->
  track_uri_format u = true ->
  exists w',
    run env ("spotify:track:" ++ id) w = (Resolved u, w') /\
    requests w' = requests w ++ [track_request id].
Proof.
  intros Hid Hbody Huri Hformat.
  set (line := ("spotify:track:" ++ id)%string).
  assert (Hline : printable line = true).
  { unfold line. rewrite printable_append, (alnum_printable id Hid).
    reflexivity. }
  destruct (track_uri_format_printable u Hformat) as [Hu Hne].
  set (t := promoted (Track_new line None) body).
  assert (Hrender : forallb renderable [ITrack (next_ref w) t] = true).
  { cbn [forallb renderable]. unfold t, promoted.
    unfold Track_lastfm, Track_uri. cbn [Track_lastfmResponse Track_response].
    unfold Track_new. cbn [Track_isFullResponse Track_lastfmResponse].
    rewrite Huri, Hformat. now rewrite orb_true_r. }
  destruct (toString_loop_renderable [ITrack (next_ref w) t] Hrender ""
              (after_request (track_request id) (after_alloc w)))
    as (w' & Hloop & Hrequests).
  exists w'. split; [|now rewrite Hrequests].
  unfold run, Playlist_new. fold line. rewrite (trim_printable line Hline).
  change (is_empty line) with false. cbn [negb].
  rewrite (split_at_whole _ line (not_space_not_terminator line Hline)).
  cbn [Playlist_lines]. unfold bind at 2. unfold Playlist_line.
  change (ci_prefix "#ORDER BY POPULARITY" line) with false.
  change (matches_last_fm line) with false.
  change (ci_prefix "#GROUP BY ENTRY" line) with false.
  change (ci_prefix "#GROUP BY ARTIST" line) with false.
  change (ci_prefix "#GROUP BY ALBUM" line) with false.
  change (ci_prefix "#UNIQUE" line) with false.
  change (ci_prefix "##" line) with false.
  change (ci_prefix "#ALBUM " line) with false.
  change (ci_prefix "#ARTIST " line) with false.
  change (is_empty line) with false. cbn [negb]. cbv iota.
  unfold bind, alloc, ret. cbv beta iota.
  unfold Playlist_dispatch, Playlist_fetchTracks, Queue_dispatch,
    Queue_resolveAll, bind.
  cbn [Playlist_entries set_entries Queue_add app resolve_loop item_dispatch].
  unfold bind. fold (after_alloc w). unfold line at 1.
  rewrite (Track_dispatch_uri env id (after_alloc w) Hid), Hbody.
  fold line. fold t. unfold ret. cbv beta iota.
  cbn [resolve_loop Queue_add app]. unfold ret.
  unfold lift, Playlist_dedup.
  cbn [Playlist_unique set_entries Playlist_entries Queue_flatten flat_map
       flatten_item app].
  unfold Queue_dedup. cbn [dedup_loop Queue_contains obind Queue_add app].
  unfold Playlist_order, Playlist_group.
  cbn [Playlist_ordering Playlist_grouping Playlist_unique Playlist_entries
       set_entries].
  unfold ret.
  unfold Playlist_toString, bind.
  cbn [Playlist_ordering Playlist_grouping Playlist_unique Playlist_entries
       set_entries].
  cbn [next_ref after_alloc] in Hloop. rewrite Hloop. unfold ret.
  f_equal. f_equal. cbn [append uris_of].
  assert (Htrack : Track_uri t = Some u).
  { unfold t, promoted, Track_uri. cbn [Track_response]. exact Huri. }
  rewrite Htrack. destruct u as [|c u]; [discriminate|].
  cbn [string_or_undefined].
  rewrite (trim_text_of [String c u]); [reflexivity|].
  constructor; [split; assumption | constructor].
Qed.

Lemma track_line_gives_its_uri_witness :
  string_forallb is_alnum "4uLU6hMCjMI75M1A2tKUQC" = true /\
  request_track one_track (track_request "4uLU6hMCjMI75M1A2tKUQC") =
    Some (full_track "4uLU6hMCjMI75M1A2tKUQC" "Idioteque" "Radiohead" "Kid A" 70) /\
  track_uri_format "spotify:track:4uLU6hMCjMI75M1A2tKUQC" = true /\
  exists w',
    run one_track "spotify:track:4uLU6hMCjMI75M1A2tKUQC" empty_world =
      (Resolved "spotify:track:4uLU6hMCjMI75M1A2tKUQC", w') /\
    requests w' =
      requests empty_world ++ [track_request "4uLU6hMCjMI75M1A2tKUQC"].
Proof.
  split; [reflexivity|]. split; [reflexivity|]. split; [reflexivity|].
  exact (track_line_gives_its_uri one_track "4uLU6hMCjMI75M1A2tKUQC"
           "spotify:track:4uLU6hMCjMI75M1A2tKUQC"
           (full_track "4uLU6hMCjMI75M1A2tKUQC" "Idioteque" "Radiohead"
              "Kid A" 70)
           empty_world eq_refl eq_refl eq_refl eq_refl).
Defined.
